(** * A shallow embedding of the torrent client

    Two Go packages are embedded:
    - [decoder]: the bencode decoder of [internal/decoder/decoder.go],
      over a model of [bufio.Reader] wrapped around a [bytes.Reader];
    - [torrent]: the peer-wire client (tracker exchange, handshake,
      message framing, block requests and the [Download] driver), over a
      scripted model of the network connection and of the file system.

    Go bytes are [ascii] (eight bits), Go strings are [string], Go [int],
    [int64] and [uint32] are [Z] with the wrap-around written where the
    program converts.  A Go call that returns [(v, err)] returns an
    [outcome]; a run-time panic is the third alternative of [outcome]. *)

From Stdlib Require Import ZArith NArith Ascii String Lia.
From Stdlib Require Import DecimalString.
From Stdlib Require DecimalFacts DecimalPos.
From stdpp Require Import gmap strings list.

Set Warnings "-register-all".
Set Default Proof Using "Type".

Local Open Scope string_scope.
Local Open Scope list_scope.
Local Open Scope Z_scope.

(** ** Errors and outcomes *)

Inductive error : Type :=
| EOF                                   (* io.EOF *)
| ErrUnexpectedEOF                      (* io.ErrUnexpectedEOF *)
| ErrBufferFull                         (* bufio.ErrBufferFull *)
| ErrNoProgress                         (* io.ErrNoProgress *)
| ErrInvalidUnreadByte                  (* bufio.ErrInvalidUnreadByte *)
| ErrTransport                          (* an error reported by the network or the file system *)
| Errorf (msg : string)                 (* fmt.Errorf(msg) *)
| Wrapf (msg : string) (cause : error). (* fmt.Errorf(msg + ": %v", cause) *)

Inductive outcome (A : Type) : Type :=
| Ok (a : A)
| Err (e : error)
| Panic (msg : string).

Arguments Ok {A} a.
Arguments Err {A} e.
Arguments Panic {A} msg.

Definition is_Ok {A} (r : outcome A) : bool :=
  match r with Ok _ => true | _ => false end.

Definition is_Err {A} (r : outcome A) : bool :=
  match r with Err _ => true | _ => false end.

Definition is_Panic {A} (r : outcome A) : bool :=
  match r with Panic _ => true | _ => false end.

(** ** Bytes *)

Definition byte_of_Z (z : Z) : ascii := ascii_of_N (Z.to_N (z mod 256)).
Definition Z_of_byte (b : ascii) : Z := Z.of_N (N_of_ascii b).

Definition zero_byte : ascii := byte_of_Z 0.

(** [make([]byte, n)]: [n] zero bytes. *)
Definition make (n : nat) : list ascii := replicate n zero_byte.

(** The effect of a read that delivered [got] into a buffer made with
    [make n]: the first bytes are overwritten, the others stay zero. *)
Definition fill_buffer (n : nat) (got : list ascii) : list ascii :=
  got ++ make (n - length got).

(** [unicode.IsDigit(rune(b))] for a single byte: below [MaxLatin1] the
    test is ['0' <= r && r <= '9']. *)
Definition IsDigit (b : ascii) : bool :=
  (48 <=? Z_of_byte b) && (Z_of_byte b <=? 57).

(** ** strconv.Atoi

    An optional sign, then at least one decimal digit and nothing else; the
    value has to fit a 64-bit [int].  [None] stands for the [*NumError]. *)

Fixpoint digits_value (acc : Z) (s : list ascii) : option Z :=
  match s with
  | [] => Some acc
  | c :: s' =>
      if IsDigit c then digits_value (10 * acc + (Z_of_byte c - 48)) s'
      else None
  end.

Definition Atoi (s : list ascii) : option Z :=
  let '(neg, ds) :=
    match s with
    | "-"%char :: t => (true, t)
    | "+"%char :: t => (false, t)
    | _ => (false, s)
    end in
  match ds with
  | [] => None
  | _ =>
      match digits_value 0 ds with
      | None => None
      | Some un =>
          if neg then (if un <=? 2 ^ 63 then Some (- un) else None)
          else (if un <? 2 ^ 63 then Some un else None)
      end
  end.

Module decoder.

(** *** bufio.Reader over bytes.Reader

    [buffered] is [b.buf[b.r:b.w]], the bytes already taken from the
    underlying reader and not yet consumed; [rest] is what the
    [bytes.Reader] still holds; [lastByte] is the byte [UnreadByte] would
    push back.  The sticky error [b.err] is not a field: over a
    [bytes.Reader] it is set and cleared inside one call. *)

Record Reader : Type := mkReader {
  buffered : list ascii;
  rest : list ascii;
  lastByte : option ascii
}.

Definition bufSize : nat := 4096.

Definition New (bencoded : list ascii) : Reader :=
  {| buffered := []; rest := bencoded; lastByte := None |}.

Definition remaining (b : Reader) : nat :=
  (length (buffered b) + length (rest b))%nat.

(** [b.fill()]: slide the unread bytes to the front and read once from the
    underlying reader into the free space.  [None] is the case where that
    read reports [io.EOF]. *)
Definition fill (b : Reader) : option Reader :=
  match rest b with
  | [] => None
  | _ =>
      let k := ((bufSize - length (buffered b)) `min` length (rest b))%nat in
      Some {| buffered := buffered b ++ take k (rest b);
              rest := drop k (rest b);
              lastByte := lastByte b |}
  end.

Definition ReadByte (b : Reader) : outcome ascii * Reader :=
  let take_one (b0 b1 : Reader) :=
    match buffered b1 with
    | c :: tl =>
        (Ok c, {| buffered := tl; rest := rest b1; lastByte := Some c |})
    | [] => (Err ErrNoProgress, b0)
    end in
  match buffered b with
  | _ :: _ => take_one b b
  | [] =>
      match fill b with
      | None => (Err EOF, b)
      | Some b' => take_one b b'
      end
  end.

(** [UnreadByte] right after a read: [b.r > 0] holds there, so only the
    [lastByte < 0] test can fail. *)
Definition UnreadByte (b : Reader) : outcome unit * Reader :=
  match lastByte b with
  | None => (Err ErrInvalidUnreadByte, b)
  | Some c =>
      (Ok tt, {| buffered := c :: buffered b; rest := rest b; lastByte := None |})
  end.

(** [b.Read(p)] with [len(p) = n]: the bytes delivered, at most [n], taken
    from at most one read of the underlying reader. *)
Definition Read (n : nat) (b : Reader) : outcome (list ascii) * Reader :=
  let copy_out (b1 : Reader) :=
    let got := take n (buffered b1) in
    (Ok got, {| buffered := drop n (buffered b1); rest := rest b1;
                lastByte := match last got with Some c => Some c | None => lastByte b1 end |}) in
  match n with
  | O => (Ok [], b)
  | _ =>
      match buffered b with
      | _ :: _ => copy_out b
      | [] =>
          match rest b with
          | [] => (Err EOF, b)
          | _ =>
              if (bufSize <=? n)%nat then
                (* large read, empty buffer: read directly into p *)
                let got := take n (rest b) in
                (Ok got, {| buffered := []; rest := drop n (rest b);
                            lastByte := last got |})
              else
                match fill b with
                | Some b' => copy_out b'
                | None => (Err EOF, b)
                end
          end
      end
  end.

(** Index of the first occurrence of [delim] ([bytes.IndexByte]). *)
Fixpoint IndexByte (delim : ascii) (s : list ascii) : option nat :=
  match s with
  | [] => None
  | c :: s' =>
      if Ascii.eqb c delim then Some O
      else match IndexByte delim s' with
           | Some i => Some (S i)
           | None => None
           end
  end.

Definition set_lastByte (line : list ascii) (b : Reader) : Reader :=
  match last line with
  | Some c => {| buffered := buffered b; rest := rest b; lastByte := Some c |}
  | None => b
  end.

(** [b.ReadSlice(delim)]; [fuel] bounds the number of calls of [fill] and
    is never exhausted when it starts at [length (rest b)]. *)
Fixpoint ReadSlice_loop (fuel : nat) (delim : ascii) (b : Reader)
  : (list ascii * option error) * Reader :=
  match IndexByte delim (buffered b) with
  | Some i =>
      let line := take (S i) (buffered b) in
      ((line, None),
       set_lastByte line
         {| buffered := drop (S i) (buffered b); rest := rest b; lastByte := lastByte b |})
  | None =>
      let flush (e : error) :=
        ((buffered b, Some e),
         set_lastByte (buffered b)
           {| buffered := []; rest := rest b; lastByte := lastByte b |}) in
      if (bufSize <=? length (buffered b))%nat then flush ErrBufferFull
      else
        match fill b with
        | None => flush EOF
        | Some b' =>
            match fuel with
            | O => flush ErrNoProgress
            | S fuel' => ReadSlice_loop fuel' delim b'
            end
        end
  end.

Definition ReadSlice (delim : ascii) (b : Reader) : (list ascii * option error) * Reader :=
  ReadSlice_loop (length (rest b)) delim b.

(** [b.collectFragments(delim)] followed by the copy of [ReadBytes]: the
    full buffers and the final fragment, concatenated. *)
Fixpoint collectFragments (fuel : nat) (delim : ascii) (full : list ascii) (b : Reader)
  : (list ascii * option error) * Reader :=
  match ReadSlice delim b with
  | ((frag, None), b') => ((full ++ frag, None), b')
  | ((frag, Some ErrBufferFull), b') =>
      match fuel with
      | O => ((full ++ frag, Some ErrNoProgress), b')
      | S fuel' => collectFragments fuel' delim (full ++ frag) b'
      end
  | ((frag, Some e), b') => ((full ++ frag, Some e), b')
  end.

Definition ReadBytes (delim : ascii) (b : Reader) : (list ascii * option error) * Reader :=
  collectFragments (remaining b) delim [] b.

(** *** The decoder *)

Definition Array : ascii := "l".
Definition Int : ascii := "i".
Definition Dict : ascii := "d".
Definition End : ascii := "e".

(** What a Go [any] returned by [Decode] can hold. *)
Inductive value : Type :=
| VInt (n : Z)
| VString (s : string)
| VBytes (s : list ascii)
| VList (l : list value)
| VDict (m : gmap string value).

Definition Decoder : Type := Reader.

Definition decodeInt (d : Decoder) : outcome Z * Decoder :=
  match ReadBytes End d with
  | ((_, Some _), d1) => (Err (Errorf "invalid int format"), d1)
  | ((intBytes, None), d1) =>
      let numStr := take (length intBytes - 1) intBytes in
      if (1 <? length numStr)%nat && bool_decide (head numStr = Some "0"%char) then
        (Err (Errorf "invalid int format"), d1)
      else
        match Atoi numStr with
        | None => (Err (Errorf "invalid int format"), d1)
        | Some n => (Ok n, d1)
        end
  end.

Definition decodeString (asBytes : bool) (d : Decoder) : outcome value * Decoder :=
  match ReadBytes ":"%char d with
  | ((_, Some e), d1) => (Err e, d1)
  | ((lenBytes, None), d1) =>
      let lenBytes := take (length lenBytes - 1) lenBytes in
      match Atoi lenBytes with
      | None => (Err (Errorf "invalid string format"), d1)
      | Some len =>
          if len <? 0 then (Panic "makeslice: len out of range", d1)
          else
            let n := Z.to_nat len in
            match Read n d1 with
            | (Ok got, d2) =>
                let str := fill_buffer n got in
                if asBytes then (Ok (VBytes str), d2)
                else (Ok (VString (string_of_list_ascii str)), d2)
            | (Err e, d2) => (Err (Wrapf "failed to read string" e), d2)
            | (Panic msg, d2) => (Panic msg, d2)
            end
      end
  end.

(** The three mutually recursive methods.  [fuel] bounds the depth of the
    calls; [None] means it ran out, which [Decode] below excludes. *)
Fixpoint Decode_fuel (fuel : nat) (d : Decoder) {struct fuel}
  : option (outcome value * Decoder) :=
  match fuel with
  | O => None
  | S fuel' =>
      match ReadByte d with
      | (Err e, d1) => Some (Err (Wrapf "failed to read byte" e), d1)
      | (Panic msg, d1) => Some (Panic msg, d1)
      | (Ok b, d1) =>
          if IsDigit b then
            match UnreadByte d1 with
            | (Err e, d2) => Some (Err (Wrapf "failed to unread byte" e), d2)
            | (Panic msg, d2) => Some (Panic msg, d2)
            | (Ok _, d2) => Some (decodeString false d2)
            end
          else if Ascii.eqb b Int then
            match decodeInt d1 with
            | (Ok n, d2) => Some (Ok (VInt n), d2)
            | (Err e, d2) => Some (Err e, d2)
            | (Panic msg, d2) => Some (Panic msg, d2)
            end
          else if Ascii.eqb b Array then
            match decodeArray_fuel fuel' [] d1 with
            | Some (Ok l, d2) => Some (Ok (VList l), d2)
            | Some (Err e, d2) => Some (Err e, d2)
            | Some (Panic msg, d2) => Some (Panic msg, d2)
            | None => None
            end
          else if Ascii.eqb b Dict then
            match decodeDict_fuel fuel' ∅ d1 with
            | Some (Ok m, d2) => Some (Ok (VDict m), d2)
            | Some (Err e, d2) => Some (Err e, d2)
            | Some (Panic msg, d2) => Some (Panic msg, d2)
            | None => None
            end
          else Some (Err (Errorf "unknown format"), d1)
      end
  end

with decodeArray_fuel (fuel : nat) (lst : list value) (d : Decoder) {struct fuel}
  : option (outcome (list value) * Decoder) :=
  match fuel with
  | O => None
  | S fuel' =>
      match ReadByte d with
      | (Err e, d1) => Some (Err (Wrapf "failed to read byte" e), d1)
      | (Panic msg, d1) => Some (Panic msg, d1)
      | (Ok b, d1) =>
          if Ascii.eqb b End then Some (Ok lst, d1)
          else
            match UnreadByte d1 with
            | (Err e, d2) => Some (Err (Wrapf "failed to unread byte" e), d2)
            | (Panic msg, d2) => Some (Panic msg, d2)
            | (Ok _, d2) =>
                match Decode_fuel fuel' d2 with
                | None => None
                | Some (Err e, d3) => Some (Err (Wrapf "failed to decode" e), d3)
                | Some (Panic msg, d3) => Some (Panic msg, d3)
                | Some (Ok v, d3) => decodeArray_fuel fuel' (lst ++ [v]) d3
                end
            end
      end
  end

with decodeDict_fuel (fuel : nat) (m : gmap string value) (d : Decoder) {struct fuel}
  : option (outcome (gmap string value) * Decoder) :=
  match fuel with
  | O => None
  | S fuel' =>
      match ReadByte d with
      | (Err e, d1) => Some (Err (Wrapf "failed to read byte" e), d1)
      | (Panic msg, d1) => Some (Panic msg, d1)
      | (Ok b, d1) =>
          if Ascii.eqb b End then Some (Ok m, d1)
          else
            match UnreadByte d1 with
            | (Err e, d2) => Some (Err (Wrapf "failed to unread byte" e), d2)
            | (Panic msg, d2) => Some (Panic msg, d2)
            | (Ok _, d2) =>
                match Decode_fuel fuel' d2 with
                | None => None
                | Some (Err e, d3) => Some (Err (Wrapf "failed to decode dict key" e), d3)
                | Some (Panic msg, d3) => Some (Panic msg, d3)
                | Some (Ok k, d3) =>
                    match k with
                    | VString key =>
                        match Decode_fuel fuel' d3 with
                        | None => None
                        | Some (Err e, d4) =>
                            Some (Err (Wrapf "failed to decode dict value" e), d4)
                        | Some (Panic msg, d4) => Some (Panic msg, d4)
                        | Some (Ok v, d4) => decodeDict_fuel fuel' (<[key := v]> m) d4
                        end
                    | _ =>
                        Some (Err (Errorf "dict key must be a string (got string instead)"), d3)
                    end
                end
            end
      end
  end.

(** Fuel that always suffices: a call of [Decode] consumes a byte. *)
Definition enough (d : Decoder) : nat := (2 * remaining d + 2)%nat.

Definition Decode (d : Decoder) : option (outcome value * Decoder) :=
  Decode_fuel (enough d) d.

Definition decodeArray (d : Decoder) : option (outcome (list value) * Decoder) :=
  decodeArray_fuel (enough d) [] d.

Definition decodeDict (d : Decoder) : option (outcome (gmap string value) * Decoder) :=
  decodeDict_fuel (enough d) ∅ d.

(** [New(bencoded).Decode()], the result alone. *)
Definition Decode_bytes (bencoded : string) : option (outcome value) :=
  fst <$> Decode (New (list_ascii_of_string bencoded)).

End decoder.

(** ** Formatting *)

(** [%d] of [fmt]. *)
Definition itoa (z : Z) : string := NilZero.string_of_int (Z.to_int z).

Definition hex_digit (n : Z) : ascii :=
  nth (Z.to_nat n) (list_ascii_of_string "0123456789abcdef") "0"%char.

(** [%x] of [fmt] on a byte slice: two lower-case digits per byte. *)
Definition hex (bs : list ascii) : string :=
  string_of_list_ascii
    (flat_map (fun b => [hex_digit (Z_of_byte b / 16); hex_digit (Z_of_byte b mod 16)]) bs).

Definition newline : string := String (ascii_of_N 10) EmptyString.

(** ** encoding/binary, big endian *)

(** [uint32(x)] followed by [binary.BigEndian.PutUint32]. *)
Definition be32 (x : Z) : list ascii :=
  let v := x mod 2 ^ 32 in
  [byte_of_Z (Z.shiftr v 24); byte_of_Z (Z.shiftr v 16); byte_of_Z (Z.shiftr v 8); byte_of_Z v].

(** [binary.BigEndian.Uint32] on a four-byte buffer. *)
Definition Uint32 (b : list ascii) : Z :=
  match b with
  | [b0; b1; b2; b3] =>
      Z.lor (Z.lor (Z.lor (Z.shiftl (Z_of_byte b0) 24) (Z.shiftl (Z_of_byte b1) 16))
                   (Z.shiftl (Z_of_byte b2) 8))
            (Z_of_byte b3)
  | _ => 0
  end.

(** [binary.BigEndian.Uint16] on a two-byte slice. *)
Definition Uint16 (b0 b1 : ascii) : Z :=
  Z.lor (Z.shiftl (Z_of_byte b0) 8) (Z_of_byte b1).

(** [math.Ceil(float64(a) / float64(b))] converted back to an integer.
    On integers of magnitude below [2 ^ 53] with [b <> 0] the float64
    quotient is close enough to the real one for its ceiling to be the
    exact one, which is what this definition computes; division by zero
    and larger magnitudes are outside the model. *)
Definition ceilDiv (a b : Z) : Z := - ((- a) / b).

Module torrent.

Definition Bitfield : Z := 5.
Definition Interested : Z := 2.
Definition Unchoke : Z := 1.
Definition Request : Z := 6.

Record MetaInfo : Type := mkMetaInfo {
  Name : string;
  Pieces : string;
  Length : Z;
  PieceLength : Z
}.

Record TorrentFile : Type := mkTorrentFile {
  Announce : string;
  Info : MetaInfo
}.

Record TorrentClient : Type := mkTorrentClient {
  File : TorrentFile;
  Peers : list string;
  InfoHash : vec ascii 20;
  PeerID : vec ascii 20
}.

(** *** The outside world

    The connection is a script: [incoming] lists what the successive reads
    meet (a failure, or a chunk of bytes the transport has ready),
    [wscript] tells whether the successive writes succeed (they do once the
    script is exhausted), [sent] logs the buffers written. *)

Inductive event : Type :=
| Fail
| Data (chunk : list ascii).

Record Conn : Type := mkConn {
  incoming : list event;
  wscript : list bool;
  sent : list (list ascii);
  closed : bool
}.

(** What [http.Get] and [bencode.Unmarshal] make of the tracker. *)
Inductive TrackerReply : Type :=
| GetFails
| UnmarshalFails
| PeersField (peers : list ascii).

(** How a call of [os.WriteFile] goes: it opens the file with
    [O_WRONLY|O_CREATE|O_TRUNC], writes, closes.  When the open fails the
    disk is untouched; when the write or the close fails the file has been
    created or emptied by then and holds the [n] first bytes that got
    through. *)
Inductive WriteResult : Type :=
| Written
| OpenFails
| WriteFails (n : nat).

Record World : Type := mkWorld {
  tracker : TrackerReply;
  spare : list ascii;           (* the bytes of the capacity that the
                                   conversion [[]byte(string)] of the peers
                                   field leaves behind its length *)
  dial_ok : bool;               (* whether net.Dial succeeds *)
  conn : Conn;                  (* the connection net.Dial returns *)
  write_result : WriteResult;   (* how os.WriteFile goes *)
  files : list (string * list ascii);   (* what the os.WriteFile calls have
                                           put on disk, in order *)
  stdout : list string
}.

Record State : Type := mkState {
  client : TorrentClient;
  world : World
}.

Definition set_Peers (ps : list string) (s : State) : State :=
  let c := client s in
  {| client := {| File := File c; Peers := ps; InfoHash := InfoHash c; PeerID := PeerID c |};
     world := world s |}.

Definition set_conn (c : Conn) (s : State) : State :=
  let w := world s in
  {| client := client s;
     world := {| tracker := tracker w; spare := spare w; dial_ok := dial_ok w; conn := c;
                 write_result := write_result w; files := files w;
                 stdout := stdout w |} |}.

Definition set_files (fs : list (string * list ascii)) (s : State) : State :=
  let w := world s in
  {| client := client s;
     world := {| tracker := tracker w; spare := spare w; dial_ok := dial_ok w;
                 conn := conn w; write_result := write_result w; files := fs;
                 stdout := stdout w |} |}.

Definition set_stdout (out : list string) (s : State) : State :=
  let w := world s in
  {| client := client s;
     world := {| tracker := tracker w; spare := spare w; dial_ok := dial_ok w;
                 conn := conn w; write_result := write_result w; files := files w;
                 stdout := out |} |}.

(** *** The monad of the methods: state passing with early exit *)

Definition M (A : Type) : Type := State -> outcome A * State.

Definition ret {A} (a : A) : M A := fun s => (Ok a, s).

Definition bind {A B} (m : M A) (k : A -> M B) : M B :=
  fun s =>
    match m s with
    | (Ok a, s') => k a s'
    | (Err e, s') => (Err e, s')
    | (Panic msg, s') => (Panic msg, s')
    end.

Notation "x <- m ;; k" := (bind m (fun x => k))
  (at level 100, m at next level, right associativity).
Notation "m ;;; k" := (bind m (fun _ => k))
  (at level 100, right associativity).

(** [if err != nil { return fmt.Errorf(msg + ": %v", err) }] *)
Definition wrap {A} (msg : string) (m : M A) : M A :=
  fun s =>
    match m s with
    | (Err e, s') => (Err (Wrapf msg e), s')
    | r => r
    end.

(** A call whose returned error is dropped. *)
Definition discard {A} (m : M A) : M unit :=
  fun s =>
    match m s with
    | (Panic msg, s') => (Panic msg, s')
    | (_, s') => (Ok tt, s')
    end.

Definition panic {A} (msg : string) : M A := fun s => (Panic msg, s).
Definition fail {A} (e : error) : M A := fun s => (Err e, s).

(** *** net.Conn *)

(** One [Read] into a buffer of [n] bytes against the script: the bytes
    delivered and the script left.  A read into an empty buffer returns at
    once. *)
Definition read_once (n : nat) (inc : list event) : outcome (list ascii) * list event :=
  match n with
  | O => (Ok [], inc)
  | _ =>
      match inc with
      | [] => (Err EOF, [])
      | Fail :: tl => (Err ErrTransport, tl)
      | Data chunk :: tl =>
          (Ok (take n chunk),
           if (n <? length chunk)%nat then Data (drop n chunk) :: tl else tl)
      end
  end.

Definition with_incoming (inc : list event) (c : Conn) : Conn :=
  {| incoming := inc; wscript := wscript c; sent := sent c; closed := closed c |}.

(** [buf := make([]byte, n); _, err := conn.Read(buf)]: the buffer after
    the call. *)
Definition conn_Read (n : nat) : M (list ascii) :=
  fun s =>
    let c := conn (world s) in
    match read_once n (incoming c) with
    | (Ok got, inc) => (Ok (fill_buffer n got), set_conn (with_incoming inc c) s)
    | (Err e, inc) => (Err e, set_conn (with_incoming inc c) s)
    | (Panic msg, inc) => (Panic msg, set_conn (with_incoming inc c) s)
    end.

(** [io.ReadAtLeast]: read until [need] more bytes have arrived. *)
Fixpoint ReadAtLeast (inc : list event) (need : nat) (got : list ascii)
  : outcome (list ascii) * list event :=
  match need with
  | O => (Ok got, inc)
  | _ =>
      match inc with
      | [] => (Err (match got with [] => EOF | _ => ErrUnexpectedEOF end), [])
      | Fail :: tl => (Err ErrTransport, tl)
      | Data chunk :: tl =>
          if (need <? length chunk)%nat then
            (Ok (got ++ take need chunk), Data (drop need chunk) :: tl)
          else ReadAtLeast tl (need - length chunk) (got ++ chunk)
      end
  end.

(** [buf := make([]byte, n); _, err := io.ReadFull(conn, buf)] *)
Definition io_ReadFull (n : nat) : M (list ascii) :=
  fun s =>
    let c := conn (world s) in
    match ReadAtLeast (incoming c) n [] with
    | (r, inc) => (r, set_conn (with_incoming inc c) s)
    end.

Definition conn_Write (msg : list ascii) : M unit :=
  fun s =>
    let c := conn (world s) in
    match wscript c with
    | false :: tl =>
        (Err ErrTransport,
         set_conn {| incoming := incoming c; wscript := tl; sent := sent c; closed := closed c |} s)
    | ok =>
        (Ok tt,
         set_conn {| incoming := incoming c; wscript := tail ok;
                     sent := sent c ++ [msg]; closed := closed c |} s)
    end.

Definition conn_Close : M unit :=
  fun s =>
    let c := conn (world s) in
    (Ok tt, set_conn {| incoming := incoming c; wscript := wscript c;
                        sent := sent c; closed := true |} s).

(** [defer f()] around the rest of a function: [f] runs however the rest
    ends, a panic included. *)
Definition defer {A} (f : M unit) (m : M A) : M A :=
  fun s =>
    match m s with
    | (r, s') => (r, snd (f s'))
    end.

Definition Printf (line : string) : M unit :=
  fun s => (Ok tt, set_stdout (stdout (world s) ++ [line]) s).

(** [os.WriteFile(name, data, 0644)] *)
Definition os_WriteFile (name : string) (data : list ascii) : M unit :=
  fun s =>
    match write_result (world s) with
    | Written => (Ok tt, set_files (files (world s) ++ [(name, data)]) s)
    | OpenFails => (Err ErrTransport, s)
    | WriteFails n =>
        (Err ErrTransport, set_files (files (world s) ++ [(name, take n data)]) s)
    end.

(** *** The client *)

(** The text [Sprintf("%d.%d.%d.%d:%d", a, b, c, d, port)]. *)
Definition peer_address (a b c d : ascii) (port : Z) : string :=
  itoa (Z_of_byte a) +:+ "." +:+ itoa (Z_of_byte b) +:+ "." +:+
  itoa (Z_of_byte c) +:+ "." +:+ itoa (Z_of_byte d) +:+ ":" +:+ itoa port.

(** The loop of [parsePeers] from index [i] on: [peersBytes] are the bytes
    from [i] to the length of the slice, [spare] the bytes of its capacity
    behind the length.  The slice expression [peersBytes[i+4 : i+6]] is
    checked against the capacity, the index expressions
    [peersBytes[i] .. peersBytes[i+3]] against the length, in this
    order. *)
Fixpoint parsePeers (peersBytes spare : list ascii) : outcome (list string) :=
  match peersBytes with
  | [] => Ok []
  | a :: b :: c :: d :: p0 :: p1 :: tl =>
      let port := Uint16 p0 p1 in
      let peer := peer_address a b c d port in
      match parsePeers tl spare with
      | Ok peers => Ok (peer :: peers)
      | r => r
      end
  | _ =>
      match peersBytes ++ spare with
      | a :: b :: c :: d :: p0 :: p1 :: _ =>
          let port := Uint16 p0 p1 in
          if (length peersBytes <? 4)%nat then Panic "index out of range"
          else Ok [peer_address a b c d port]
      | _ => Panic "slice bounds out of range"
      end
  end.

Definition ConnectTracker : M unit :=
  fun s =>
    match tracker (world s) with
    | GetFails => (Err (Wrapf "failed to get peers data" ErrTransport), s)
    | UnmarshalFails => (Err (Wrapf "failed to decode tracker response" ErrTransport), s)
    | PeersField peers =>
        match parsePeers peers (spare (world s)) with
        | Ok ps => (Ok tt, set_Peers ps s)
        | Err e => (Err e, s)
        | Panic msg => (Panic msg, s)
        end
    end.

Definition handshake_msg (c : TorrentClient) : list ascii :=
  [byte_of_Z 19] ++ list_ascii_of_string "BitTorrent protocol" ++ make 8
    ++ vec_to_list (InfoHash c) ++ vec_to_list (PeerID c).

(** The slice [buf[48:]] of the reply buffer. *)
Definition handshake_peerID (buf : list ascii) : list ascii := drop 48 buf.

Definition Handshake : M unit :=
  fun s =>
    match Peers (client s) with
    | [] => (Panic "index out of range [0] with length 0", s)
    | peerAddr :: _ =>
        if dial_ok (world s) then
          (wrap "failed to send handshake" (conn_Write (handshake_msg (client s))) ;;;
           buf <- wrap "failed to read handshake" (conn_Read 68) ;;
           let peerID := handshake_peerID buf in
           Printf ("Connected to peer: " +:+ peerAddr +:+ ", Peer ID: " +:+ hex peerID
                     +:+ newline)) s
        else (Err (Wrapf "failed to connect to peer" ErrTransport), s)
    end.

Definition waitForMessage (messageId : Z) : M unit :=
  lengthBuf <- wrap "failed to read from a peer" (conn_Read 4) ;;
  let prefixLength := Uint32 lengthBuf in
  message <- wrap "failed to read from a peer" (conn_Read (Z.to_nat prefixLength)) ;;
  match message with
  | [] => panic "index out of range [0] with length 0"
  | m0 :: _ =>
      if bool_decide (m0 = byte_of_Z messageId) then ret tt
      else fail (Errorf ("wanted to recieve " +:+ itoa messageId +:+
                         " message id, but got " +:+ itoa (Z_of_byte m0)))
  end.

Definition interested : M unit :=
  wrap "failed to write to a peer"
    (conn_Write (map byte_of_Z [0; 0; 0; 1; Interested])).

(** The struct that [binary.Write] serialises, field after field. *)
Definition request_msg (Index Begin Length : Z) : list ascii :=
  be32 13 ++ [byte_of_Z Request] ++ be32 Index ++ be32 Begin ++ be32 Length.

(** The variable [blockLength] of the loop of [requestPiece] at turn [i]. *)
Definition blockLength (pieceSize blockSize blockCount i : Z) : Z :=
  if i =? blockCount - 1 then pieceSize - (blockCount - 1) * blockSize
  else blockSize.

(** One turn of the loop of [requestPiece]: the bytes appended to [data]. *)
Definition requestPiece_block (pieceIndex pieceSize blockSize blockCount i : Z)
  : M (list ascii) :=
  wrap "failed to send piece request"
    (conn_Write (request_msg pieceIndex (i * blockSize)
                   (blockLength pieceSize blockSize blockCount i))) ;;;
  lengthBuf <- wrap "failed to read from peer" (conn_Read 4) ;;
  let prefixLength := Uint32 lengthBuf in
  result <- wrap "failed to read from peer" (io_ReadFull (Z.to_nat prefixLength)) ;;
  if (length result <? 9)%nat then panic "slice bounds out of range [9:]"
  else ret (drop 9 result).

Fixpoint requestPiece_loop (n : nat) (pieceIndex pieceSize blockSize blockCount i : Z)
    (data : list ascii) : M (list ascii) :=
  match n with
  | O => ret data
  | S n' =>
      block <- requestPiece_block pieceIndex pieceSize blockSize blockCount i ;;
      requestPiece_loop n' pieceIndex pieceSize blockSize blockCount (i + 1) (data ++ block)
  end.

Definition requestPiece (pieceIndex pieceSize blockSize blockCount : Z) : M (list ascii) :=
  requestPiece_loop (Z.to_nat blockCount) pieceIndex pieceSize blockSize blockCount 0 [].

(** The loop over the pieces of [Download]; [pieceSize] is the variable the
    last turn overwrites. *)
Fixpoint Download_loop (n : nat) (info : MetaInfo) (pieceCount blockSize i pieceSize : Z)
    (data : list ascii) : M (list ascii) :=
  match n with
  | O => ret data
  | S n' =>
      if (i =? pieceCount - 1) && (PieceLength info =? 0) then
        panic "integer divide by zero"
      else
        let pieceSize :=
          if i =? pieceCount - 1 then Z.rem (Length info) (PieceLength info)
          else pieceSize in
        let blockCount := ceilDiv pieceSize blockSize in
        piece <- wrap "failed to download a piece"
                   (requestPiece i pieceSize blockSize blockCount) ;;
        Download_loop n' info pieceCount blockSize (i + 1) pieceSize (data ++ piece)
  end.

Definition Download_pieces (info : MetaInfo) : M (list ascii) :=
  let pieceSize := PieceLength info in
  let pieceCount := ceilDiv (Length info) pieceSize in
  let blockSize := 16 * 1024 in
  Download_loop (Z.to_nat pieceCount) info pieceCount blockSize 0 pieceSize [].

Definition Download (outputFileName : string) : M unit :=
  wrap "failed to connect to a tracker" ConnectTracker ;;;
  wrap "failed to do a handshake" Handshake ;;;
  defer conn_Close
    (discard (waitForMessage Bitfield) ;;;
     discard interested ;;;
     discard (waitForMessage Unchoke) ;;;
     info <- (fun s => (Ok (Info (File (client s))), s)) ;;
     data <- Download_pieces info ;;
     wrap "failed to write file" (os_WriteFile outputFileName data)).

End torrent.

Import decoder.
Import torrent.

(** * Definitions used by the statements *)

Definition is_string (v : value) : bool :=
  match v with VString _ => true | _ => false end.

(** The bytes a string of declared length [n] is given when only [got]
    could be read. *)
Definition padded (got : string) (n : nat) : string :=
  string_of_list_ascii (fill_buffer n (list_ascii_of_string got)).

(** A reader standing behind the [d] of the input [di1e3:fooe]. *)
Definition after_d : Decoder :=
  {| buffered := list_ascii_of_string "i1e3:fooe"; rest := []; lastByte := Some Dict |}.

(** All the bytes a reader has still to deliver. *)
Definition stream (b : Reader) : list ascii := buffered b ++ rest b.

(** A reader that holds all of its input in the buffer, as a reader made
    by [New] does after its first read when the input has at most
    [bufSize] bytes. *)
Definition buffered_reader (input : list ascii) (lb : option ascii) : Reader :=
  {| buffered := input; rest := []; lastByte := lb |}.

(** [strconv.Itoa]: the decimal text of an integer. *)
Definition dec (z : Z) : list ascii := list_ascii_of_string (itoa z).

(** The value of the digits of a [Decimal.uint] read from the left, with
    the accumulator of [digits_value]. *)
Fixpoint uint_acc (acc : Z) (d : Decimal.uint) : Z :=
  match d with
  | Decimal.Nil => acc
  | Decimal.D0 d' => uint_acc (10 * acc + 0) d'
  | Decimal.D1 d' => uint_acc (10 * acc + 1) d'
  | Decimal.D2 d' => uint_acc (10 * acc + 2) d'
  | Decimal.D3 d' => uint_acc (10 * acc + 3) d'
  | Decimal.D4 d' => uint_acc (10 * acc + 4) d'
  | Decimal.D5 d' => uint_acc (10 * acc + 5) d'
  | Decimal.D6 d' => uint_acc (10 * acc + 6) d'
  | Decimal.D7 d' => uint_acc (10 * acc + 7) d'
  | Decimal.D8 d' => uint_acc (10 * acc + 8) d'
  | Decimal.D9 d' => uint_acc (10 * acc + 9) d'
  end.

(** The loops of [decodeArray] and [decodeDict] entered with a list or a
    map already gathered, with the fuel that suffices. *)
Definition decodeArray_from (lst : list value) (d : Decoder)
  : option (outcome (list value) * Decoder) :=
  decodeArray_fuel (enough d) lst d.

Definition decodeDict_from (m : gmap string value) (d : Decoder)
  : option (outcome (gmap string value) * Decoder) :=
  decodeDict_fuel (enough d) m d.

(** Bencoded texts, as the grammar of well-formed inputs: an integer, a
    string, a list of texts, a dictionary as a sequence of keys and
    texts. *)
Inductive tree : Type :=
| TInt (z : Z)
| TStr (s : list ascii)
| TList (ts : list tree)
| TDict (kvs : list (list ascii * tree)).

Definition enc_str (s : list ascii) : list ascii :=
  dec (Z.of_nat (length s)) ++ ":"%char :: s.

Fixpoint enc (t : tree) : list ascii :=
  match t with
  | TInt z => Int :: dec z ++ [End]
  | TStr s => enc_str s
  | TList ts => Array :: concat (map enc ts) ++ [End]
  | TDict kvs =>
      Dict :: concat (map (fun kv => match kv with (k, t') => enc_str k ++ enc t' end) kvs)
        ++ [End]
  end.

(** The Go value a text stands for; in a dictionary a later entry
    replaces an earlier one with the same key, as [m[key] = v] does. *)
Fixpoint val (t : tree) : value :=
  match t with
  | TInt z => VInt z
  | TStr s => VString (string_of_list_ascii s)
  | TList ts => VList (map val ts)
  | TDict kvs =>
      VDict (foldl (fun m kv => match kv with
                                | (k, t') => <[string_of_list_ascii k := val t']> m
                                end) ∅ kvs)
  end.

(** Integers fit 64 bits, lengths too. *)
Fixpoint wf (t : tree) : bool :=
  match t with
  | TInt z => (- 2 ^ 63 <=? z) && (z <? 2 ^ 63)
  | TStr s => Z.of_nat (length s) <? 2 ^ 63
  | TList ts => forallb wf ts
  | TDict kvs =>
      forallb (fun kv => match kv with
                         | (k, t') => (Z.of_nat (length k) <? 2 ^ 63) && wf t'
                         end) kvs
  end.

(** Reader [d'] is reader [d] with a non-empty run of bytes taken from
    the front of its stream. *)
Definition consumes (d d' : Reader) : Prop :=
  ∃ c, c ≠ [] ∧ stream d = c ++ stream d'.

(** The requests the loop of [requestPiece] writes in [n] turns from turn
    [i] on, when nothing fails. *)
Fixpoint requests_from (n : nat) (pieceIndex pieceSize blockSize blockCount i : Z)
  : list (list ascii) :=
  match n with
  | O => []
  | S n' =>
      request_msg pieceIndex (i * blockSize) (blockLength pieceSize blockSize blockCount i)
        :: requests_from n' pieceIndex pieceSize blockSize blockCount (i + 1)
  end.

(** The arguments [(i, pieceSize, blockCount)] of the successive calls of
    [requestPiece] in the loop of [Download]: the loop with the calls left
    out. *)
Fixpoint Download_schedule (n : nat) (fileLength pieceLength pieceCount blockSize i pieceSize : Z)
  : list (Z * Z * Z) :=
  match n with
  | O => []
  | S n' =>
      let pieceSize :=
        if i =? pieceCount - 1 then Z.rem fileLength pieceLength
        else pieceSize in
      let blockCount := ceilDiv pieceSize blockSize in
      (i, pieceSize, blockCount)
        :: Download_schedule n' fileLength pieceLength pieceCount blockSize (i + 1) pieceSize
  end.

Definition schedule (fileLength pieceLength : Z) : list (Z * Z * Z) :=
  let pieceCount := ceilDiv fileLength pieceLength in
  Download_schedule (Z.to_nat pieceCount) fileLength pieceLength pieceCount (16 * 1024)
    0 pieceLength.

(** The piece lengths of a schedule. *)
Definition piece_lengths (sched : list (Z * Z * Z)) : list Z :=
  map (fun c => snd (fst c)) sched.

(** The calls of [requestPiece] of a schedule, one after the other. *)
Fixpoint requestPieces (sched : list (Z * Z * Z)) (blockSize : Z) (data : list ascii)
  : M (list ascii) :=
  match sched with
  | [] => ret data
  | (i, pieceSize, blockCount) :: sched' =>
      piece <- wrap "failed to download a piece"
                 (requestPiece i pieceSize blockSize blockCount) ;;
      requestPieces sched' blockSize (data ++ piece)
  end.

(** All the requests of a schedule. *)
Definition schedule_requests (blockSize : Z) (sched : list (Z * Z * Z)) : list (list ascii) :=
  flat_map (fun c => let '(i, pieceSize, blockCount) := c in
                     requests_from (Z.to_nat blockCount) i pieceSize blockSize blockCount 0)
           sched.

(** The piece lengths in the words of the specification: [pieceLength],
    except the last piece, which has [fileLength mod pieceLength], or
    [pieceLength] when that remainder is zero. *)
Definition spec_piece_length (fileLength pieceLength i : Z) : Z :=
  let pieceCount := ceilDiv fileLength pieceLength in
  if i =? pieceCount - 1 then
    (if fileLength mod pieceLength =? 0 then pieceLength else fileLength mod pieceLength)
  else pieceLength.

Definition spec_piece_lengths (fileLength pieceLength : Z) : list Z :=
  map (spec_piece_length fileLength pieceLength) (seqZ 0 (ceilDiv fileLength pieceLength)).

(** The block lengths in the words of the specification. *)
Definition spec_block_length (L i : Z) : Z :=
  let blockCount := ceilDiv L 16384 in
  if i =? blockCount - 1 then L - (blockCount - 1) * 16384 else 16384.

(** A compact peer entry: four address bytes and two port bytes. *)
Definition entry : Type := ascii * ascii * ascii * ascii * ascii * ascii.

Definition entry_bytes (e : entry) : list ascii :=
  match e with (a, b, c, d, p0, p1) => [a; b; c; d; p0; p1] end.

(** The text [Sprintf("%d.%d.%d.%d:%d", ...)] gives for an entry. *)
Definition peer_text (e : entry) : string :=
  match e with
  | (a, b, c, d, p0, p1) =>
      itoa (Z_of_byte a) +:+ "." +:+ itoa (Z_of_byte b) +:+ "." +:+
      itoa (Z_of_byte c) +:+ "." +:+ itoa (Z_of_byte d) +:+ ":" +:+ itoa (Uint16 p0 p1)
  end.

Definition Zsum (l : list Z) : Z := foldr Z.add 0 l.

(** The five bytes [interested] writes. *)
Definition interested_msg : list ascii := map byte_of_Z [0; 0; 0; 1; Interested].

(** The connection after a read that left [inc] and, when [msgs] is not
    empty, writes that succeeded. *)
Definition conn_after (inc : list event) (msgs : list (list ascii)) (c : Conn) : Conn :=
  {| incoming := inc; wscript := wscript c; sent := sent c ++ msgs; closed := closed c |}.

(** The next write on the connection succeeds. *)
Definition writable (s : State) : Prop :=
  head (wscript (conn (world s))) ≠ Some false.

(** A computation that writes no file and leaves the metadata alone. *)
Definition keeps {A} (m : M A) : Prop :=
  ∀ s, files (world (snd (m s))) = files (world s) ∧
       File (client (snd (m s))) = File (client s).

(** ** Scripted peers *)

Definition frame (body : list ascii) : event :=
  Data (be32 (Z.of_nat (length body)) ++ body).

(** A Piece message (id 7) carrying [n] bytes [c]. *)
Definition piece_frame (index begin : Z) (n : nat) (c : ascii) : event :=
  frame ([byte_of_Z 7] ++ be32 index ++ be32 begin ++ replicate n c).

Definition handshake_reply : event :=
  Data (replicate 48 "x"%char ++ replicate 20 "R"%char).

Definition a_client (fileLength pieceLength : Z) : TorrentClient :=
  {| File := {| Announce := "http://tracker/announce";
                Info := {| Name := "file"; Pieces := "";
                           Length := fileLength; PieceLength := pieceLength |} |};
     Peers := [];
     InfoHash := Vector.const "h"%char 20;
     PeerID := Vector.const "p"%char 20 |}.

Definition a_world (inc : list event) (ws : list bool) : World :=
  {| tracker := PeersField (map byte_of_Z [192; 168; 1; 1; 26; 225]);
     spare := [];
     dial_ok := true;
     conn := {| incoming := inc; wscript := ws; sent := []; closed := false |};
     write_result := Written; files := []; stdout := [] |}.

Definition a_state (fileLength pieceLength : Z) (inc : list event) (ws : list bool) : State :=
  {| client := a_client fileLength pieceLength; world := a_world inc ws |}.





(** * The decoder: consumption, fuel and totality *)

Section reader_facts.

Lemma fill_buffer_full n got : length got = n → fill_buffer n got = got.
Proof.
  intros <-. unfold fill_buffer. rewrite Nat.sub_diag. cbn. apply app_nil_r.
Qed.

Lemma length_fill_buffer n got : (length got ≤ n)%nat → length (fill_buffer n got) = n.
Proof.
  intros H. unfold fill_buffer, make. rewrite length_app, length_replicate. lia.
Qed.

Lemma remaining_set_lastByte line b :
  remaining (set_lastByte line b) = remaining b.
Proof. unfold set_lastByte. by destruct (last line). Qed.

Lemma fill_remaining b b' : fill b = Some b' → remaining b' = remaining b.
Proof.
  unfold fill, remaining. destruct (rest b) as [|c tl] eqn:E; [done|].
  intros [= <-]. cbn [buffered rest].
  rewrite length_app, length_take, length_drop. lia.
Qed.

Lemma fill_grows b b' :
  fill b = Some b' → (length (buffered b) < bufSize)%nat →
  (length (rest b') < length (rest b))%nat.
Proof.
  unfold fill. destruct (rest b) as [|c tl] eqn:E; [done|].
  intros [= <-] Hlt. cbn [rest]. rewrite length_drop. cbn [length]. lia.
Qed.

Lemma fill_empty_buffered b b' :
  fill b = Some b' → buffered b = [] → buffered b' ≠ [].
Proof.
  unfold fill. destruct (rest b) as [|c tl] eqn:E; [done|].
  intros [= <-] ->. cbn [buffered length]. unfold bufSize.
  destruct ((4096 - 0) `min` S (length tl))%nat eqn:Hk; [lia|done].
Qed.

Lemma ReadByte_Ok b c b1 :
  ReadByte b = (Ok c, b1) →
  S (remaining b1) = remaining b ∧ lastByte b1 = Some c.
Proof.
  unfold ReadByte. destruct (buffered b) as [|x tl] eqn:Eb.
  - destruct (fill b) as [b'|] eqn:Ef; [|done].
    pose proof (fill_remaining _ _ Ef) as Hr.
    destruct (buffered b') as [|y tl'] eqn:Eb'; [done|].
    intros [= <- <-]. split; [|done].
    unfold remaining in *. rewrite Eb, Eb' in *. cbn in *. lia.
  - intros [= <- <-]. split; [|done].
    unfold remaining. rewrite Eb. cbn. lia.
Qed.

Lemma ReadByte_eof b : remaining b = O → ReadByte b = (Err EOF, b).
Proof.
  unfold remaining, ReadByte, fill. intros H.
  destruct (buffered b); [|cbn in H; lia].
  destruct (rest b); [done|cbn in H; lia].
Qed.

Lemma ReadByte_not_Panic b msg b1 : ReadByte b ≠ (Panic msg, b1).
Proof.
  unfold ReadByte. destruct (buffered b).
  - destruct (fill b) as [b'|]; [|done]. by destruct (buffered b').
  - done.
Qed.

Lemma UnreadByte_after b c :
  lastByte b = Some c →
  ∃ b', UnreadByte b = (Ok tt, b') ∧ remaining b' = S (remaining b).
Proof.
  intros H. unfold UnreadByte. rewrite H. eexists. split; [done|].
  unfold remaining. cbn. lia.
Qed.

Lemma Read_remaining n b r b' :
  Read n b = (r, b') → (remaining b' ≤ remaining b)%nat.
Proof.
  unfold Read. destruct n as [|n]; [by intros [= <- <-]|].
  destruct (buffered b) as [|x tl] eqn:Eb.
  - destruct (rest b) as [|y tl'] eqn:Er; [by intros [= <- <-]|].
    destruct (bufSize <=? S n)%nat.
    + intros [= <- <-]. unfold remaining. rewrite Eb, Er. cbn [buffered rest].
      rewrite length_drop. cbn [length]. lia.
    + destruct (fill b) as [b1|] eqn:Ef; [|by intros [= <- <-]].
      intros [= <- <-]. rewrite <- (fill_remaining _ _ Ef).
      unfold remaining. cbn [buffered rest]. rewrite length_drop. lia.
  - intros [= <- <-]. unfold remaining. cbn [buffered rest].
    rewrite ?length_drop, Eb. cbn [length]. lia.
Qed.

Lemma IndexByte_lt delim s i : IndexByte delim s = Some i → (i < length s)%nat.
Proof.
  revert i. induction s as [|c s IH]; intros i; cbn; [done|].
  destruct (Ascii.eqb c delim).
  - intros [= <-]. lia.
  - destruct (IndexByte delim s) as [j|]; [|done].
    intros [= <-]. specialize (IH j eq_refl). lia.
Qed.

Lemma ReadSlice_loop_remaining fuel delim b line err b' :
  ReadSlice_loop fuel delim b = ((line, err), b') →
  (remaining b' + length line = remaining b)%nat ∧ (err = None → line ≠ []).
Proof.
  revert b. induction fuel as [|fuel IH]; intros b; cbn [ReadSlice_loop].
  all: destruct (IndexByte delim (buffered b)) as [i|] eqn:Ei.
  all: try (apply IndexByte_lt in Ei; intros [= <- <- <-];
            rewrite remaining_set_lastByte; unfold remaining; cbn [buffered rest];
            rewrite length_drop, length_take; split; [lia|];
            intros _; destruct (buffered b); [cbn in Ei; lia|done]).
  all: destruct (bufSize <=? length (buffered b))%nat;
       [intros [= <- <- <-]; rewrite remaining_set_lastByte;
        unfold remaining; cbn [buffered rest length]; split; [lia|done] |].
  all: destruct (fill b) as [b1|] eqn:Ef;
       [|intros [= <- <- <-]; rewrite remaining_set_lastByte;
         unfold remaining; cbn [buffered rest length]; split; [lia|done] ].
  - intros [= <- <- <-]. rewrite remaining_set_lastByte.
    unfold remaining; cbn [buffered rest length]; split; [lia|done].
  - intros H. apply IH in H. rewrite (fill_remaining _ _ Ef) in H. done.
Qed.

Lemma ReadSlice_remaining delim b line err b' :
  ReadSlice delim b = ((line, err), b') →
  (remaining b' + length line = remaining b)%nat ∧ (err = None → line ≠ []).
Proof. apply ReadSlice_loop_remaining. Qed.

Lemma collectFragments_remaining fuel delim full b out err b' :
  collectFragments fuel delim full b = ((out, err), b') →
  (remaining b' ≤ remaining b)%nat ∧ (err = None → (remaining b' < remaining b)%nat).
Proof.
  revert full b. induction fuel as [|fuel IH]; intros full b; cbn [collectFragments].
  all: destruct (ReadSlice delim b) as [[frag e] b1] eqn:Es;
       apply ReadSlice_remaining in Es as [Hrem Hne].
  all: destruct e as [e|];
       [|intros [= <- <- <-]; split; [lia|]; intros _;
         specialize (Hne eq_refl); destruct frag; [done|cbn in Hrem; lia] ].
  all: destruct e; try (intros [= <- <- <-]; split; [lia|done]).
  intros H. apply IH in H as [H1 H2]. split; [lia|]. intros He. specialize (H2 He). lia.
Qed.

Lemma ReadBytes_remaining delim b out err b' :
  ReadBytes delim b = ((out, err), b') →
  (remaining b' ≤ remaining b)%nat ∧ (err = None → (remaining b' < remaining b)%nat).
Proof. apply collectFragments_remaining. Qed.

(** *** The reader as a stream of bytes *)

Lemma stream_set_lastByte line b : stream (set_lastByte line b) = stream b.
Proof. unfold set_lastByte. by destruct (last line). Qed.

Lemma fill_stream b b' : fill b = Some b' → stream b' = stream b.
Proof.
  unfold fill, stream. destruct (rest b) as [|c tl] eqn:E; [done|].
  intros [= <-]. cbn [buffered rest]. by rewrite <- app_assoc, take_drop.
Qed.

Lemma IndexByte_Some delim s i :
  IndexByte delim s = Some i →
  ∃ body tl, s = body ++ delim :: tl ∧ length body = i ∧ delim ∉ body.
Proof.
  revert i. induction s as [|c s IH]; intros i; cbn; [done|].
  destruct (Ascii.eqb_spec c delim) as [->|Hne].
  - intros [= <-]. exists [], s. split_and!; [done..|]. apply not_elem_of_nil.
  - destruct (IndexByte delim s) as [j|]; [|done].
    intros [= <-]. destruct (IH j eq_refl) as (body & tl & -> & <- & Hnot).
    exists (c :: body), tl. split_and!; [done..|].
    apply not_elem_of_cons. split; [congruence|done].
Qed.

Lemma IndexByte_None delim s : IndexByte delim s = None → delim ∉ s.
Proof.
  induction s as [|c s IH]; cbn; [intros _; apply not_elem_of_nil|].
  destruct (Ascii.eqb_spec c delim) as [->|Hne]; [done|].
  destruct (IndexByte delim s); [done|].
  intros _. apply not_elem_of_cons. split; [congruence|by apply IH].
Qed.

(** [ReadSlice] cuts the stream behind the first [delim]; without one it
    hands out a full buffer, or all that is left at the end of the input.
    The fuel is never the reason to stop. *)
Lemma ReadSlice_loop_stream fuel delim b line err b' :
  (length (rest b) ≤ fuel)%nat →
  ReadSlice_loop fuel delim b = ((line, err), b') →
  stream b = line ++ stream b' ∧
  match err with
  | None => ∃ body, line = body ++ [delim] ∧ delim ∉ body
  | Some e =>
      (delim ∉ line) ∧ ((e = ErrBufferFull ∧ line ≠ []) ∨ (e = EOF ∧ stream b' = []))
  end.
Proof.
  revert b. induction fuel as [|fuel IH]; intros b Hfuel; cbn [ReadSlice_loop].
  all: destruct (IndexByte delim (buffered b)) as [i|] eqn:Ei.
  1,3: apply IndexByte_Some in Ei as (body & tl & Hb & <- & Hnot);
       intros [= <- <- <-]; rewrite stream_set_lastByte; unfold stream;
       cbn [buffered rest]; rewrite Hb;
       rewrite (take_app_length' body (delim :: tl) (length body)) ||
         (replace (S (length body)) with (length (body ++ [delim]))
            by (rewrite length_app; cbn; lia));
       rewrite (cons_middle delim body tl), !app_assoc;
       rewrite take_app_length, drop_app_length;
       split; [by rewrite <- !app_assoc|by exists body].
  all: apply IndexByte_None in Ei.
  all: destruct (bufSize <=? length (buffered b))%nat eqn:Efull;
       [intros [= <- <- <-]; rewrite stream_set_lastByte; unfold stream;
        cbn [buffered rest app]; split; [done|]; split; [done|]; left; split; [done|];
        apply Nat.leb_le in Efull; unfold bufSize in Efull;
        destruct (buffered b); [cbn in Efull; lia|done] |].
  all: apply Nat.leb_gt in Efull.
  all: destruct (fill b) as [b1|] eqn:Ef;
       [|intros [= <- <- <-]; rewrite stream_set_lastByte; unfold stream;
         cbn [buffered rest app]; unfold fill in Ef;
         destruct (rest b) eqn:Er; [|done];
         split; [by rewrite app_nil_r|]; split; [done|]; by right ].
  - apply fill_grows in Ef; [lia|done].
  - intros H. pose proof (fill_grows _ _ Ef Efull).
    apply IH in H; [|lia]. by rewrite (fill_stream _ _ Ef) in H.
Qed.

Lemma collectFragments_stream fuel delim full b out err b' :
  (remaining b ≤ fuel)%nat →
  delim ∉ full →
  collectFragments fuel delim full b = ((out, err), b') →
  full ++ stream b = out ++ stream b' ∧
  match err with
  | None => ∃ body, out = body ++ [delim] ∧ delim ∉ body
  | Some e => (delim ∉ out) ∧ (e = EOF ∧ stream b' = [])
  end.
Proof.
  revert full b. induction fuel as [|fuel IH]; intros full b Hfuel Hfull;
    cbn [collectFragments].
  all: destruct (ReadSlice delim b) as [[frag e] b1] eqn:Es.
  all: pose proof (ReadSlice_remaining _ _ _ _ _ Es) as [Hrem _].
  all: apply ReadSlice_loop_stream in Es as [Hst He]; [|done].
  all: destruct e as [e|];
       [|destruct He as (body & -> & Hnot); intros [= <- <- <-];
         split; [by rewrite Hst, !app_assoc|];
         exists (full ++ body); split; [by rewrite app_assoc|];
         rewrite elem_of_app; tauto ].
  all: destruct He as [Hnot [[-> Hne]|[-> Hend]]].
  2,4: intros [= <- <- <-]; split; [by rewrite Hst, app_assoc|];
       split; [rewrite elem_of_app; tauto|done].
  - destruct frag; [done|]. cbn [length] in Hrem. lia.
  - intros H. apply IH in H as [H1 H2].
    + split; [|done]. by rewrite <- H1, Hst, app_assoc.
    + destruct frag; [done|]. cbn [length] in Hrem. lia.
    + rewrite elem_of_app. tauto.
Qed.

(** [ReadBytes] returns the bytes up to the first [delim], [delim]
    included, and leaves what follows. *)
Lemma ReadBytes_found delim b body tl :
  stream b = body ++ delim :: tl → delim ∉ body →
  ∃ b', ReadBytes delim b = ((body ++ [delim], None), b') ∧ stream b' = tl.
Proof.
  intros Hst Hnot. unfold ReadBytes.
  destruct (collectFragments (remaining b) delim [] b) as [[out err] b'] eqn:E.
  apply collectFragments_stream in E as [H1 H2]; [|done|apply not_elem_of_nil].
  cbn [app] in H1. exists b'. destruct err as [e|].
  - destruct H2 as (Hout & _ & Hend). rewrite Hend, app_nil_r in H1.
    exfalso. apply Hout. rewrite <- H1, Hst. rewrite elem_of_app, elem_of_cons. tauto.
  - destruct H2 as (body' & -> & Hnot').
    rewrite Hst, <- app_assoc in H1. cbn [app] in H1.
    apply not_elem_of_app_cons_inv_l in H1 as (-> & _ & ->); done.
Qed.

(** Without a [delim] in the input, [ReadBytes] returns all of it and
    [io.EOF]. *)
Lemma ReadBytes_missing delim b :
  delim ∉ stream b →
  ∃ b', ReadBytes delim b = ((stream b, Some EOF), b') ∧ stream b' = [].
Proof.
  intros Hnot. unfold ReadBytes.
  destruct (collectFragments (remaining b) delim [] b) as [[out err] b'] eqn:E.
  apply collectFragments_stream in E as [H1 H2]; [|done|apply not_elem_of_nil].
  cbn [app] in H1. exists b'. destruct err as [e|].
  - destruct H2 as (_ & -> & Hend). rewrite Hend, app_nil_r in H1. by rewrite H1.
  - destruct H2 as (body & -> & _). exfalso. apply Hnot. rewrite H1.
    rewrite !elem_of_app, list_elem_of_singleton. tauto.
Qed.

(** [Read] into a buffer of at least one byte delivers at least one byte
    when the input is not at its end, and never more than is there. *)
Lemma Read_some n b :
  (0 < n)%nat → stream b ≠ [] →
  ∃ got b', Read n b = (Ok got, b') ∧ got ≠ [] ∧ (length got ≤ n)%nat ∧
            stream b = got ++ stream b'.
Proof.
  intros Hn Hst. unfold Read. destruct n as [|n]; [lia|].
  assert (∀ l : list ascii, l ≠ [] → take (S n) l ≠ []) as Htake.
  { intros [|x l] Hl; [done|]. by cbn. }
  assert (∀ b1, buffered b1 ≠ [] →
            take (S n) (buffered b1) ≠ [] ∧
            (length (take (S n) (buffered b1)) ≤ S n)%nat ∧
            stream b1 = take (S n) (buffered b1) ++
                        (drop (S n) (buffered b1) ++ rest b1)) as Hcopy.
  { intros b1 Hb1. split_and!; [by apply Htake|rewrite length_take; lia|].
    unfold stream. by rewrite app_assoc, take_drop. }
  destruct (buffered b) as [|x tl] eqn:Eb.
  - unfold stream in Hst. rewrite Eb in Hst. cbn [app] in Hst.
    destruct (rest b) as [|y tl'] eqn:Er; [done|].
    destruct (bufSize <=? S n)%nat.
    + eexists _, _. split; [done|]. split_and!; [done|rewrite length_take; lia|].
      unfold stream. rewrite Eb, Er. cbn [buffered rest app]. by rewrite take_drop.
    + destruct (fill b) as [b1|] eqn:Ef; [|unfold fill in Ef; by rewrite Er in Ef].
      pose proof (fill_empty_buffered _ _ Ef Eb) as Hne.
      destruct (Hcopy b1 Hne) as (H1 & H2 & H3).
      eexists _, _. split; [done|]. split_and!; [done..|].
      by rewrite <- (fill_stream _ _ Ef).
  - destruct (Hcopy b) as (H1 & H2 & H3); [by rewrite Eb|].
    rewrite Eb in H1, H2, H3. eexists _, _. split; [done|]. by split_and!.
Qed.

End reader_facts.

Section decode_fuel.

Lemma UnreadByte_Ok b u b' :
  UnreadByte b = (Ok u, b') → remaining b' = S (remaining b).
Proof.
  unfold UnreadByte. destruct (lastByte b); [|done].
  intros [= <- <-]. unfold remaining. cbn. lia.
Qed.

Lemma decodeInt_consumes d n d' :
  decodeInt d = (Ok n, d') → (remaining d' < remaining d)%nat.
Proof.
  unfold decodeInt.
  destruct (ReadBytes End d) as [[intBytes [e|]] d1] eqn:E; [done|].
  apply ReadBytes_remaining in E as [_ E]. specialize (E eq_refl).
  repeat case_match; intros; simplify_eq; done.
Qed.

Lemma decodeString_consumes asBytes d v d' :
  decodeString asBytes d = (Ok v, d') → (remaining d' < remaining d)%nat.
Proof.
  unfold decodeString.
  destruct (ReadBytes ":"%char d) as [[lenBytes [e|]] d1] eqn:E; [done|].
  apply ReadBytes_remaining in E as [_ E]. specialize (E eq_refl).
  destruct (Atoi _) as [len|]; [|done].
  destruct (len <? 0); [done|].
  destruct (Read (Z.to_nat len) d1) as [[got|e|msg] d2] eqn:ER; [|done..].
  apply Read_remaining in ER.
  destruct asBytes; intros; simplify_eq; lia.
Qed.

Ltac reader_facts :=
  repeat match goal with
    | H : ReadByte _ = (Ok _, _) |- _ => apply ReadByte_Ok in H as [? ?]
    | H : UnreadByte _ = (Ok _, _) |- _ => apply UnreadByte_Ok in H
    | H : decodeInt _ = (Ok _, _) |- _ => apply decodeInt_consumes in H
    | H : decodeString _ _ = (Ok _, _) |- _ => apply decodeString_consumes in H
    end.

(** A successful call consumes at least one byte. *)
Lemma Decode_fuel_consumes fuel :
  (∀ d v d', Decode_fuel fuel d = Some (Ok v, d') → (remaining d' < remaining d)%nat) ∧
  (∀ l d l' d', decodeArray_fuel fuel l d = Some (Ok l', d') →
                (remaining d' < remaining d)%nat) ∧
  (∀ m d m' d', decodeDict_fuel fuel m d = Some (Ok m', d') →
                (remaining d' < remaining d)%nat).
Proof.
  induction fuel as [|fuel (IHD & IHA & IHM)]; [by split_and!|].
  split_and!.
  - intros d v d' H. cbn [Decode_fuel] in H.
    repeat case_match; simplify_eq; reader_facts;
      repeat match goal with
        | H : decodeArray_fuel _ _ _ = Some (Ok _, _) |- _ => apply IHA in H
        | H : decodeDict_fuel _ _ _ = Some (Ok _, _) |- _ => apply IHM in H
        end; lia.
  - intros l d l' d' H. cbn [decodeArray_fuel] in H.
    repeat case_match; simplify_eq; reader_facts;
      repeat match goal with
        | H : Decode_fuel _ _ = Some (Ok _, _) |- _ => apply IHD in H
        | H : decodeArray_fuel _ _ _ = Some (Ok _, _) |- _ => apply IHA in H
        end; lia.
  - intros m d m' d' H. cbn [decodeDict_fuel] in H.
    repeat case_match; simplify_eq; reader_facts;
      repeat match goal with
        | H : Decode_fuel _ _ = Some (Ok _, _) |- _ => apply IHD in H
        | H : decodeDict_fuel _ _ _ = Some (Ok _, _) |- _ => apply IHM in H
        end; lia.
Qed.

(** More fuel does not change a result. *)
Lemma Decode_fuel_mono fuel :
  (∀ fuel' d r, (fuel ≤ fuel')%nat →
     Decode_fuel fuel d = Some r → Decode_fuel fuel' d = Some r) ∧
  (∀ fuel' l d r, (fuel ≤ fuel')%nat →
     decodeArray_fuel fuel l d = Some r → decodeArray_fuel fuel' l d = Some r) ∧
  (∀ fuel' m d r, (fuel ≤ fuel')%nat →
     decodeDict_fuel fuel m d = Some r → decodeDict_fuel fuel' m d = Some r).
Proof.
  induction fuel as [|fuel (IHD & IHA & IHM)]; [by split_and!|].
  assert (∀ fuel' d, (fuel ≤ fuel')%nat → is_Some (Decode_fuel fuel d) →
            Decode_fuel fuel' d = Decode_fuel fuel d) as HD.
  { intros fuel' d Hle [r Hr]. rewrite Hr. by apply IHD. }
  assert (∀ fuel' l d, (fuel ≤ fuel')%nat → is_Some (decodeArray_fuel fuel l d) →
            decodeArray_fuel fuel' l d = decodeArray_fuel fuel l d) as HA.
  { intros fuel' l d Hle [r Hr]. rewrite Hr. by apply IHA. }
  assert (∀ fuel' m d, (fuel ≤ fuel')%nat → is_Some (decodeDict_fuel fuel m d) →
            decodeDict_fuel fuel' m d = decodeDict_fuel fuel m d) as HM.
  { intros fuel' m d Hle [r Hr]. rewrite Hr. by apply IHM. }
  split_and!.
  - intros [|fuel'] d r Hle H; [lia|]. cbn [Decode_fuel] in *.
    repeat case_match; simplify_eq; try done.
    all: try (rewrite HA in * by (first [lia | by eapply mk_is_Some]));
         try (rewrite HM in * by (first [lia | by eapply mk_is_Some]));
         simplify_eq; done.
  - intros [|fuel'] l d r Hle H; [lia|]. cbn [decodeArray_fuel] in *.
    destruct (ReadByte d) as [[b|e|msg] d1]; [|done..].
    destruct (Ascii.eqb b End); [done|].
    destruct (UnreadByte d1) as [[u|e|msg] d2]; [|done..].
    destruct (Decode_fuel fuel d2) as [[[v|e|msg] d3]|] eqn:E; [..|done].
    all: rewrite (HD fuel' d2) by (first [lia | by eapply mk_is_Some]); rewrite E; try done.
    by apply IHA; [lia|].
  - intros [|fuel'] m d r Hle H; [lia|]. cbn [decodeDict_fuel] in *.
    destruct (ReadByte d) as [[b|e|msg] d1]; [|done..].
    destruct (Ascii.eqb b End); [done|].
    destruct (UnreadByte d1) as [[u|e|msg] d2]; [|done..].
    destruct (Decode_fuel fuel d2) as [[[k|e|msg] d3]|] eqn:E; [..|done].
    all: rewrite (HD fuel' d2) by (first [lia | by eapply mk_is_Some]); rewrite E; try done.
    destruct k; try done.
    destruct (Decode_fuel fuel d3) as [[[v|e|msg] d4]|] eqn:E'; [..|done].
    all: rewrite (HD fuel' d3) by (first [lia | by eapply mk_is_Some]); rewrite E'; try done.
    by apply IHM; [lia|].
Qed.

(** [2 * n + 1] units of fuel decide [Decode] on [n] bytes, one more the
    two loops. *)
Lemma Decode_fuel_enough n :
  (∀ d, (remaining d ≤ n)%nat → is_Some (Decode_fuel (2 * n + 1) d)) ∧
  (∀ l d, (remaining d ≤ n)%nat → is_Some (decodeArray_fuel (2 * n + 2) l d)) ∧
  (∀ m d, (remaining d ≤ n)%nat → is_Some (decodeDict_fuel (2 * n + 2) m d)).
Proof.
  induction n as [|n (IHD & IHA & IHM)].
  - split_and!; intros; cbn; rewrite ReadByte_eof by lia; done.
  - assert (∀ d, (remaining d ≤ S n)%nat → is_Some (Decode_fuel (2 * S n + 1) d)) as HD.
    { intros d Hd. replace (2 * S n + 1)%nat with (S (2 * n + 2)) by lia.
      cbn [Decode_fuel].
      destruct (ReadByte d) as [[b|e|msg] d1] eqn:ER; [|done..].
      apply ReadByte_Ok in ER as [Hrem Hlast].
      destruct (IsDigit b).
      { destruct (UnreadByte d1) as [[u|e|msg] d2]; done. }
      destruct (Ascii.eqb b Int).
      { destruct (decodeInt d1) as [[k|e|msg] d2]; done. }
      destruct (Ascii.eqb b Array).
      { destruct (IHA [] d1) as [[[l|e|msg] d2] ->]; [lia|done..]. }
      destruct (Ascii.eqb b Dict); [|done].
      destruct (IHM ∅ d1) as [[[m|e|msg] d2] ->]; [lia|done..]. }
    split_and!; [done|..].
    + intros l d Hd. replace (2 * S n + 2)%nat with (S (2 * S n + 1)) by lia.
      cbn [decodeArray_fuel].
      destruct (ReadByte d) as [[b|e|msg] d1] eqn:ER; [|done..].
      apply ReadByte_Ok in ER as [Hrem Hlast].
      destruct (Ascii.eqb b End); [done|].
      destruct (UnreadByte_after _ _ Hlast) as (d2 & -> & Hrem2).
      destruct (HD d2) as [[[v|e|msg] d3] Hv]; [lia|rewrite Hv..]; [|done..].
      apply (Decode_fuel_consumes _) in Hv as Hlt.
      destruct (IHA (l ++ [v]) d3) as [r Hr]; [lia|].
      exists r. eapply (Decode_fuel_mono _); [|done]. lia.
    + intros m d Hd. replace (2 * S n + 2)%nat with (S (2 * S n + 1)) by lia.
      cbn [decodeDict_fuel].
      destruct (ReadByte d) as [[b|e|msg] d1] eqn:ER; [|done..].
      apply ReadByte_Ok in ER as [Hrem Hlast].
      destruct (Ascii.eqb b End); [done|].
      destruct (UnreadByte_after _ _ Hlast) as (d2 & -> & Hrem2).
      destruct (HD d2) as [[[k|e|msg] d3] Hk]; [lia|rewrite Hk..]; [|done..].
      apply (Decode_fuel_consumes _) in Hk as Hlt.
      destruct k; try done.
      destruct (IHD d3) as [[[v|e|msg] d4] Hv]; [lia|..].
      all: eapply (Decode_fuel_mono _) in Hv as Hv'; [rewrite Hv'|lia]; try done.
      apply (Decode_fuel_consumes _) in Hv as Hlt'.
      destruct (IHM (<[s:=v]> m) d4) as [r Hr]; [lia|].
      exists r. eapply (Decode_fuel_mono _); [|done]. lia.
Qed.

End decode_fuel.

(** [Decode] never runs out of fuel: every input is decided one way or
    the other. *)
Lemma Decode_total d : is_Some (Decode d).
Proof.
  unfold Decode, enough.
  destruct (proj1 (Decode_fuel_enough (remaining d)) d) as [r Hr]; [done|].
  exists r. eapply (Decode_fuel_mono _); [|done]. lia.
Qed.

Lemma decodeDict_total d : is_Some (decodeDict d).
Proof. apply (Decode_fuel_enough (remaining d)). done. Qed.

Lemma decodeArray_total d : is_Some (decodeArray d).
Proof. apply (Decode_fuel_enough (remaining d)). done. Qed.

(** With the fuel of [Decode] or more, the result is that of [Decode]. *)
Lemma Decode_fuel_Decode fuel d :
  (enough d ≤ fuel)%nat → Decode_fuel fuel d = Decode d.
Proof.
  intros Hle. destruct (Decode_total d) as [r Hr]. rewrite Hr.
  eapply (Decode_fuel_mono _); [|done]. done.
Qed.

(** * The decoder: integers, strings and dictionary keys *)

(** What [decodeInt] makes of the bytes before the terminator. *)
Lemma decodeInt_after_ReadBytes d numStr d1 :
  ReadBytes End d = ((numStr ++ [End], None), d1) →
  decodeInt d =
    (if (1 <? length numStr)%nat && bool_decide (head numStr = Some "0"%char)
     then Err (Errorf "invalid int format")
     else match Atoi numStr with
          | Some n => Ok n
          | None => Err (Errorf "invalid int format")
          end, d1).
Proof.
  intros H. unfold decodeInt. rewrite H.
  rewrite length_app. cbn [length].
  replace (length numStr + 1 - 1)%nat with (length numStr) by lia.
  rewrite take_app_length.
  repeat case_match; done.
Qed.

(** A ['0'] followed by anything is refused, whatever follows. *)
Lemma decodeInt_leading_zero d c tl d1 :
  ReadBytes End d = (("0"%char :: c :: tl ++ [End], None), d1) →
  decodeInt d = (Err (Errorf "invalid int format"), d1).
Proof.
  intros H. by rewrite (decodeInt_after_ReadBytes d ("0"%char :: c :: tl) d1).
Qed.

(** A ['-'] followed by zeros passes the test on the first byte and is
    left to [Atoi], which returns [0]. *)
Lemma decodeInt_minus_zeros d k d1 :
  ReadBytes End d = (("-"%char :: replicate (S k) "0"%char ++ [End], None), d1) →
  decodeInt d = (Ok 0, d1).
Proof.
  intros H.
  rewrite (decodeInt_after_ReadBytes d ("-"%char :: replicate (S k) "0"%char) d1) by done.
  cbn [head bool_decide]. rewrite bool_decide_eq_false_2 by done.
  rewrite andb_false_r. unfold Atoi.
  assert (∀ j, digits_value 0 (replicate j "0"%char) = Some 0) as Hz.
  { induction j as [|j IH]; [done|]. cbn [replicate digits_value]. exact IH. }
  rewrite (Hz (S k)). cbn [replicate]. done.
Qed.

(** The integer between [i] and the first [e] decides; what follows the
    [e] is left in the reader. *)
Lemma decodeInt_stream d numStr tl :
  stream d = numStr ++ End :: tl → End ∉ numStr →
  ∃ d1, stream d1 = tl ∧
        decodeInt d =
          (if (1 <? length numStr)%nat && bool_decide (head numStr = Some "0"%char)
           then Err (Errorf "invalid int format")
           else match Atoi numStr with
                | Some n => Ok n
                | None => Err (Errorf "invalid int format")
                end, d1).
Proof.
  intros Hst Hnot. destruct (ReadBytes_found End d numStr tl Hst Hnot) as (d1 & HR & Hd1).
  exists d1. split; [done|]. by apply decodeInt_after_ReadBytes.
Qed.

(** Without a terminator there is no integer. *)
Lemma decodeInt_unterminated d :
  End ∉ stream d → fst (decodeInt d) = Err (Errorf "invalid int format").
Proof.
  intros Hnot. destruct (ReadBytes_missing End d Hnot) as (d1 & HR & _).
  unfold decodeInt. by rewrite HR.
Qed.

Lemma Decode_int_examples :
  Decode_bytes "i03e" = Some (Err (Errorf "invalid int format")) ∧
  Decode_bytes "iXe" = Some (Err (Errorf "invalid int format")) ∧
  Decode_bytes "i0e" = Some (Ok (VInt 0)) ∧
  Decode_bytes "i-5e" = Some (Ok (VInt (-5))) ∧
  Decode_bytes "i42e" = Some (Ok (VInt 42)).
Proof. split_and!; vm_compute; reflexivity. Qed.

(** C3, on the code: the input [i-0e] is not refused; [Decode] returns the
    integer 0 for it, and for [i-03e] the integer -3. *)
Theorem Decode_int_minus_zero :
  Decode_bytes "i-0e" = Some (Ok (VInt 0)) ∧
  Decode_bytes "i-03e" = Some (Ok (VInt (-3))).
Proof. split; vm_compute; reflexivity. Qed.

(** What [decodeString] makes of a length prefix that [Atoi] refuses. *)
Lemma decodeString_bad_length asBytes d lenBytes d1 :
  ReadBytes ":"%char d = ((lenBytes ++ [":"%char], None), d1) →
  Atoi lenBytes = None →
  decodeString asBytes d = (Err (Errorf "invalid string format"), d1).
Proof.
  intros H Ha. unfold decodeString. rewrite H.
  rewrite length_app. cbn [length].
  replace (length lenBytes + 1 - 1)%nat with (length lenBytes) by lia.
  rewrite take_app_length, Ha. done.
Qed.

(** A declared length with nothing at all behind it is an error. *)
Lemma decodeString_nothing_left asBytes d lenBytes d1 len :
  ReadBytes ":"%char d = ((lenBytes ++ [":"%char], None), d1) →
  Atoi lenBytes = Some len → 0 < len → remaining d1 = O →
  decodeString asBytes d = (Err (Wrapf "failed to read string" EOF), d1).
Proof.
  intros H Ha Hlen Hrem. unfold decodeString. rewrite H.
  rewrite length_app. cbn [length].
  replace (length lenBytes + 1 - 1)%nat with (length lenBytes) by lia.
  rewrite take_app_length, Ha.
  destruct (len <? 0) eqn:E; [lia|].
  unfold Read. destruct (Z.to_nat len) eqn:En; [lia|].
  unfold remaining in Hrem.
  destruct (buffered d1); [|cbn in Hrem; lia].
  destruct (rest d1); [done|cbn in Hrem; lia].
Qed.

(** On every input [<lenBytes>:<body>] such that [Atoi] refuses
    [lenBytes], [decodeString] fails. *)
Lemma decodeString_stream_bad_length asBytes d lenBytes tl :
  stream d = lenBytes ++ ":"%char :: tl → ":"%char ∉ lenBytes →
  Atoi lenBytes = None →
  fst (decodeString asBytes d) = Err (Errorf "invalid string format").
Proof.
  intros Hst Hnot Ha.
  destruct (ReadBytes_found ":"%char d lenBytes tl Hst Hnot) as (d1 & HR & _).
  by rewrite (decodeString_bad_length asBytes d lenBytes d1 HR Ha).
Qed.

(** On every input [<len>:] with [len > 0] and nothing behind the colon,
    [decodeString] fails. *)
Lemma decodeString_stream_nothing_left asBytes d lenBytes len :
  stream d = lenBytes ++ [":"%char] → ":"%char ∉ lenBytes →
  Atoi lenBytes = Some len → 0 < len →
  fst (decodeString asBytes d) = Err (Wrapf "failed to read string" EOF).
Proof.
  intros Hst Hnot Ha Hlen.
  destruct (ReadBytes_found ":"%char d lenBytes [] Hst Hnot) as (d1 & HR & Hd1).
  rewrite (decodeString_nothing_left asBytes d lenBytes d1 len HR Ha Hlen); [done|].
  unfold stream in Hd1. apply app_eq_nil in Hd1 as [H1 H2].
  unfold remaining. by rewrite H1, H2.
Qed.

(** On every input [<len>:<body>] with at least one byte of [body] but
    fewer than [len], [decodeString] does not fail: it returns a string
    of [len] bytes, some first bytes of [body] and zero bytes behind
    them. *)
Lemma decodeString_short_read d lenBytes body len :
  stream d = lenBytes ++ ":"%char :: body → ":"%char ∉ lenBytes →
  Atoi lenBytes = Some len →
  body ≠ [] → Z.of_nat (length body) < len →
  ∃ got,
    fst (decodeString false d) =
      Ok (VString (string_of_list_ascii (fill_buffer (Z.to_nat len) got))) ∧
    got ≠ [] ∧ got `prefix_of` body ∧
    length (fill_buffer (Z.to_nat len) got) = Z.to_nat len.
Proof.
  intros Hst Hnot Ha Hbody Hlen.
  destruct (ReadBytes_found ":"%char d lenBytes body Hst Hnot) as (d1 & HR & Hd1).
  unfold decodeString. rewrite HR.
  rewrite length_app. cbn [length].
  replace (length lenBytes + 1 - 1)%nat with (length lenBytes) by lia.
  rewrite take_app_length, Ha.
  destruct (len <? 0) eqn:E; [lia|].
  destruct (Read_some (Z.to_nat len) d1) as (got & d2 & -> & Hgot & Hle & Hsplit);
    [lia|by rewrite Hd1|].
  exists got. cbn [fst]. split_and!; [done|done| |by apply length_fill_buffer].
  rewrite <- Hd1, Hsplit. by apply prefix_app_r.
Qed.

Lemma Decode_string_examples :
  Decode_bytes "4:spam" = Some (Ok (VString "spam")) ∧
  Decode_bytes "0:" = Some (Ok (VString "")) ∧
  Decode_bytes "3:" = Some (Err (Wrapf "failed to read string" EOF)) ∧
  Decode_bytes "1x:a" = Some (Err (Errorf "invalid string format")) ∧
  Decode_bytes "12" = Some (Err EOF).
Proof. split_and!; vm_compute; reflexivity. Qed.

(** C4, on the code: a declared length of 5 with only 2 bytes behind it
    is not an error; [Decode] returns a string of 5 bytes, the 2 read and
    3 zero bytes. *)
Theorem Decode_string_short_input :
  Decode_bytes "5:ab" = Some (Ok (VString (padded "ab" 5))) ∧
  String.length (padded "ab" 5) = 5%nat.
Proof. split_and!; vm_compute; reflexivity. Qed.

(** C5: in a dictionary, at a place where a key is expected (the next byte
    is not the terminator), if the key decodes to a value that is not a
    string, [decodeDict] returns the error "dict key must be a string" at
    once, whatever entries [m] it has collected; nothing is added to [m]. *)
Theorem decodeDict_key_must_be_string fuel m d b d1 d2 k d3 :
  ReadByte d = (Ok b, d1) →
  b ≠ End →
  UnreadByte d1 = (Ok tt, d2) →
  Decode d2 = Some (Ok k, d3) →
  is_string k = false →
  (enough d ≤ fuel)%nat →
  decodeDict_fuel fuel m d =
    Some (Err (Errorf "dict key must be a string (got string instead)"), d3).
Proof.
  intros HR Hb HU HD Hk Hfuel.
  destruct fuel as [|fuel]; [unfold enough in Hfuel; lia|].
  cbn [decodeDict_fuel]. rewrite HR.
  destruct (Ascii.eqb_spec b End) as [->|_]; [done|].
  rewrite HU.
  apply ReadByte_Ok in HR as [Hrem _]. apply UnreadByte_Ok in HU.
  assert (Decode_fuel fuel d2 = Some (Ok k, d3)) as ->.
  { destruct (proj1 (Decode_fuel_enough (remaining d2)) d2) as [r Hr]; [done|].
    assert (Decode d2 = Some r) as Hr'.
    { eapply (Decode_fuel_mono _); [|done]. unfold enough. lia. }
    rewrite HD in Hr'. simplify_eq.
    eapply (Decode_fuel_mono _); [|done]. unfold enough in Hfuel. lia. }
  by destruct k.
Qed.

Lemma decodeDict_key_must_be_string_witness :
  decodeDict after_d =
    Some (Err (Errorf "dict key must be a string (got string instead)"),
          {| buffered := list_ascii_of_string "3:fooe"; rest := []; lastByte := Some End |}).
Proof.
  unfold decodeDict.
  eapply (decodeDict_key_must_be_string _ ∅ after_d "i"%char _ _ (VInt 1)).
  - vm_compute; reflexivity.
  - discriminate.
  - vm_compute; reflexivity.
  - vm_compute; reflexivity.
  - reflexivity.
  - lia.
Defined.

Lemma Decode_dict_examples :
  Decode_bytes "di1e3:fooe" =
    Some (Err (Errorf "dict key must be a string (got string instead)")) ∧
  Decode_bytes "dl3:keye3:fooe" =
    Some (Err (Errorf "dict key must be a string (got string instead)")) ∧
  Decode_bytes "dde3:fooe" =
    Some (Err (Errorf "dict key must be a string (got string instead)")) ∧
  Decode_bytes "d3:cow3:mooe" = Some (Ok (VDict {[ "cow" := VString "moo" ]})) ∧
  Decode_bytes "de" = Some (Ok (VDict ∅)).
Proof. split_and!; vm_compute; reflexivity. Qed.

(** * The peer-wire session *)

Section session.

Implicit Types (s : State) (msg body : list ascii).

Lemma conn_Write_Ok msg s :
  writable s →
  conn_Write msg s =
    (Ok tt,
     set_conn {| incoming := incoming (conn (world s));
                 wscript := tail (wscript (conn (world s)));
                 sent := sent (conn (world s)) ++ [msg];
                 closed := closed (conn (world s)) |} s).
Proof.
  unfold writable, conn_Write. by destruct (wscript (conn (world s))) as [|[] tl].
Qed.

Lemma conn_Write_sent msg s :
  sent (conn (world (snd (conn_Write msg s)))) =
    sent (conn (world s)) ++ (if is_Ok (fst (conn_Write msg s)) then [msg] else []).
Proof.
  unfold conn_Write. destruct (wscript (conn (world s))) as [|[] tl]; cbn; try done.
  by rewrite app_nil_r.
Qed.

Lemma read_once_length n inc got inc' :
  read_once n inc = (Ok got, inc') → (length got ≤ n)%nat.
Proof.
  unfold read_once. destruct n as [|n]; [intros [= <- <-]; cbn; lia|].
  destruct inc as [|[|chunk] tl]; [done..|].
  intros [= <- <-]. rewrite length_take. lia.
Qed.

(** A successful [conn.Read] leaves a buffer of the length asked for. *)
Lemma conn_Read_length n s buf s' :
  conn_Read n s = (Ok buf, s') → length buf = n.
Proof.
  unfold conn_Read.
  destruct (read_once n (incoming (conn (world s)))) as [[got|e|m] inc] eqn:E; [|done..].
  intros [= <- <-]. apply length_fill_buffer. by eapply read_once_length.
Qed.

Lemma length_be32 x : length (be32 x) = 4%nat.
Proof. reflexivity. Qed.

Lemma length_request_msg Index Begin Len : length (request_msg Index Begin Len) = 17%nat.
Proof. reflexivity. Qed.

Lemma length_handshake_msg c : length (handshake_msg c) = 68%nat.
Proof.
  unfold handshake_msg, make.
  rewrite !length_app, !length_vec_to_list, length_replicate. reflexivity.
Qed.


(** ** Big-endian words *)

Lemma Z_of_byte_of_Z z : Z_of_byte (byte_of_Z z) = z mod 256.
Proof.
  unfold Z_of_byte, byte_of_Z.
  pose proof (Z.mod_pos_bound z 256 eq_refl) as Hb.
  rewrite N_ascii_embedding by lia. lia.
Qed.

Lemma Z_of_byte_range b : 0 ≤ Z_of_byte b < 256.
Proof.
  unfold Z_of_byte. pose proof (N_ascii_bounded b). lia.
Qed.

Lemma Uint32_nonneg b : 0 ≤ Uint32 b.
Proof.
  unfold Uint32. destruct b as [|b0 [|b1 [|b2 [|b3 [|? ?]]]]]; try done.
  pose proof (Z_of_byte_range b0). pose proof (Z_of_byte_range b1).
  pose proof (Z_of_byte_range b2). pose proof (Z_of_byte_range b3).
  repeat first [apply Z.lor_nonneg; split | apply Z.shiftl_nonneg]; lia.
Qed.

Lemma Uint32_be32 x : Uint32 (be32 x) = x mod 2 ^ 32.
Proof.
  unfold be32, Uint32. rewrite !Z_of_byte_of_Z.
  pose proof (Z.mod_pos_bound x (2 ^ 32) eq_refl) as Hv.
  set (v := x mod 2 ^ 32) in *. change 256 with (2 ^ 8).
  assert (∀ n, 32 ≤ n → Z.testbit v n = false) as Hhigh.
  { intros n Hn. rewrite <- (Z.mod_small v (2 ^ 32)) by lia.
    apply Z.mod_pow2_bits_high. lia. }
  apply Z.bits_inj'. intros n Hn.
  rewrite !Z.lor_spec, !Z.shiftl_spec by lia.
  destruct (Z.lt_ge_cases n 8); [|destruct (Z.lt_ge_cases n 16);
    [|destruct (Z.lt_ge_cases n 24); [|destruct (Z.lt_ge_cases n 32)]]].
  all: repeat first [ rewrite Z.testbit_neg_r by lia
                    | rewrite Z.mod_pow2_bits_high by lia
                    | rewrite Z.mod_pow2_bits_low by lia
                    | rewrite Z.shiftr_spec by lia
                    | rewrite Hhigh by lia ].
  all: rewrite ?orb_false_r, ?orb_false_l; try reflexivity.
  all: f_equal; lia.
Qed.

Lemma Uint32_be32_small x : 0 ≤ x < 2 ^ 32 → Uint32 (be32 x) = x.
Proof. intros H. rewrite Uint32_be32. by apply Z.mod_small. Qed.

(** ** Reads *)

Lemma conn_Read_not_Panic n s m s' : conn_Read n s ≠ (Panic m, s').
Proof.
  unfold conn_Read, read_once. destruct n; [done|].
  by destruct (incoming (conn (world s))) as [|[|chunk] tl].
Qed.

(** The prefix of a frame, read from the chunk that starts with it. *)
Lemma conn_Read_prefix L first tl s :
  incoming (conn (world s)) = Data (be32 L ++ first) :: tl →
  conn_Read 4 s =
    (Ok (be32 L),
     set_conn (with_incoming (match first with [] => tl | _ => Data first :: tl end)
                 (conn (world s))) s).
Proof.
  intros H. unfold conn_Read. rewrite H. cbn [read_once].
  change (take 4 (be32 L ++ first)) with (be32 L).
  rewrite fill_buffer_full by reflexivity.
  change (drop 4 (be32 L ++ first)) with first.
  rewrite length_app, length_be32.
  destruct first as [|c first]; cbn [length].
  - replace (4 <? 4 + 0)%nat with false by (symmetry; apply Nat.ltb_ge; lia). done.
  - replace (4 <? 4 + S (length first))%nat with true by (symmetry; apply Nat.ltb_lt; lia).
    done.
Qed.

(** [io.ReadFull] gathers a body that arrives in any number of chunks. *)
Lemma ReadAtLeast_chunks chunks tl got :
  ∃ inc', ReadAtLeast (map Data chunks ++ tl) (length (concat chunks)) got
            = (Ok (got ++ concat chunks), inc').
Proof.
  revert got. induction chunks as [|c cs IH]; intros got.
  - cbn. rewrite app_nil_r. destruct tl; eauto.
  - cbn [map app concat]. rewrite length_app.
    destruct (length c + length (concat cs))%nat as [|k] eqn:Ek.
    + assert (c = []) as -> by (apply nil_length_inv; lia).
      assert (concat cs = []) as -> by (apply nil_length_inv; cbn in Ek; lia).
      cbn. rewrite app_nil_r. eauto.
    + cbn [ReadAtLeast].
      replace (S k <? length c)%nat with false by (symmetry; apply Nat.ltb_ge; lia).
      replace (S k - length c)%nat with (length (concat cs)) by lia.
      destruct (IH (got ++ c)) as [inc' ->]. rewrite <- app_assoc. eauto.
Qed.

Lemma io_ReadFull_chunks first chunks tl s :
  incoming (conn (world s)) = match first with [] => tl | _ => Data first :: tl end →
  ∀ rest', tl = map Data chunks ++ rest' →
  fst (io_ReadFull (length (first ++ concat chunks)) s) = Ok (first ++ concat chunks).
Proof.
  intros H rest' ->. unfold io_ReadFull. rewrite H.
  destruct first as [|c first].
  - cbn [app]. destruct (ReadAtLeast_chunks chunks rest' []) as [inc' ->]. done.
  - destruct (ReadAtLeast_chunks ((c :: first) :: chunks) rest' []) as [inc' E].
    cbn [map concat] in E. cbn [app] in E |- *. rewrite E. done.
Qed.

(** C6: with a peer address at hand, a dial and a write that succeed, the
    one buffer [Handshake] writes is 68 bytes long: the byte 19, the 19
    bytes of "BitTorrent protocol", 8 zero bytes, the 20 bytes of the info
    hash and the 20 bytes of the local peer id, in this order.  When the
    peer's 68-byte reply arrives, the remote peer id that is reported is
    made of the bytes 48 to 67 of the reply. *)
Theorem Handshake_wire s peerAddr others :
  Peers (client s) = peerAddr :: others →
  dial_ok (world s) = true →
  writable s →
  let msg := handshake_msg (client s) in
  length msg = 68%nat ∧
  msg = [byte_of_Z 19] ++ list_ascii_of_string "BitTorrent protocol"
          ++ replicate 8 (byte_of_Z 0)
          ++ vec_to_list (InfoHash (client s)) ++ vec_to_list (PeerID (client s)) ∧
  length (list_ascii_of_string "BitTorrent protocol") = 19%nat ∧
  length (vec_to_list (InfoHash (client s))) = 20%nat ∧
  length (vec_to_list (PeerID (client s))) = 20%nat ∧
  sent (conn (world (snd (Handshake s)))) = sent (conn (world s)) ++ [msg] ∧
  ∀ reply tl,
    length reply = 68%nat →
    incoming (conn (world s)) = Data reply :: tl →
    fst (Handshake s) = Ok tt ∧
    handshake_peerID reply = take 20 (drop 48 reply) ∧
    length (handshake_peerID reply) = 20%nat ∧
    stdout (world (snd (Handshake s))) =
      stdout (world s) ++
        ["Connected to peer: " +:+ peerAddr +:+ ", Peer ID: "
           +:+ hex (handshake_peerID reply) +:+ newline].
Proof.
  intros HP Hdial Hw msg.
  split_and!; [apply length_handshake_msg|reflexivity|reflexivity
              |apply length_vec_to_list|apply length_vec_to_list|..].
  - unfold Handshake. rewrite HP, Hdial.
    unfold bind, wrap. rewrite conn_Write_Ok by done.
    destruct (conn_Read 68 _) as [[buf|e|m] s1] eqn:ER.
    all: unfold conn_Read in ER; cbn in ER.
    all: destruct (incoming (conn (world s))) as [|[|chunk] tl]; cbn in ER; by simplify_eq.
  - intros reply tl Hlen Hinc.
    assert (handshake_peerID reply = take 20 (drop 48 reply)) as Hid.
    { unfold handshake_peerID. symmetry. apply take_ge. rewrite length_drop. lia. }
    split_and!; [|done|unfold handshake_peerID; rewrite length_drop; lia|].
    all: unfold Handshake; rewrite HP, Hdial.
    all: unfold bind, wrap; rewrite conn_Write_Ok by done.
    all: unfold conn_Read; cbn; rewrite Hinc; cbn.
    all: rewrite ?(take_ge reply) by lia.
    all: rewrite ?fill_buffer_full by done; reflexivity.
Qed.

Lemma Handshake_wire_witness :
  let s := snd (ConnectTracker (a_state 8 4 [handshake_reply] [])) in
  sent (conn (world (snd (Handshake s)))) = [handshake_msg (client s)] ∧
  fst (Handshake s) = Ok tt ∧
  stdout (world (snd (Handshake s))) =
    ["Connected to peer: 192.168.1.1:6881, Peer ID: "
       +:+ "5252525252525252525252525252525252525252" +:+ newline].
Proof.
  pose proof (Handshake_wire (snd (ConnectTracker (a_state 8 4 [handshake_reply] [])))
                "192.168.1.1:6881" [] eq_refl eq_refl) as H.
  cbv zeta in H.
  destruct H as (_ & _ & _ & _ & _ & Hsent & Hreply).
  { vm_compute. discriminate. }
  destruct (Hreply (replicate 48 "x"%char ++ replicate 20 "R"%char) [] eq_refl eq_refl)
    as (Hok & _ & _ & Hout).
  split_and!; [exact Hsent|exact Hok|exact Hout].
Defined.

(** ** Awaiting a message *)

Lemma waitForMessage_zero_prefix messageId s lengthBuf s1 :
  conn_Read 4 s = (Ok lengthBuf, s1) →
  Uint32 lengthBuf = 0 →
  fst (waitForMessage messageId s) = Panic "index out of range [0] with length 0".
Proof.
  intros HR H0. unfold waitForMessage, bind, wrap. rewrite HR, H0. reflexivity.
Qed.

Lemma waitForMessage_Panic messageId s m :
  fst (waitForMessage messageId s) = Panic m →
  ∃ lengthBuf s1, conn_Read 4 s = (Ok lengthBuf, s1) ∧ Uint32 lengthBuf = 0.
Proof.
  unfold waitForMessage, bind, wrap.
  destruct (conn_Read 4 s) as [[lengthBuf|e|m'] s1] eqn:HR; [|done|].
  2: by apply conn_Read_not_Panic in HR.
  destruct (conn_Read (Z.to_nat (Uint32 lengthBuf)) s1) as [[message|e|m'] s2] eqn:HM;
    [|done|].
  2: by apply conn_Read_not_Panic in HM.
  apply conn_Read_length in HM.
  destruct message as [|m0 message].
  - intros _. exists lengthBuf, s1. split; [done|].
    pose proof (Uint32_nonneg lengthBuf). cbn in HM. lia.
  - by destruct (bool_decide _).
Qed.

(** C10: [waitForMessage] takes the first byte of the body without looking
    at its length.  On a frame whose length prefix is zero (a keep-alive)
    it panics on that access for every expected id; it returns neither
    success nor an error there.  It panics in no other case: when the
    prefix read is at least 1, the call returns success or an error. *)
Theorem waitForMessage_keep_alive messageId s :
  (∀ more tl,
     incoming (conn (world s)) = Data (be32 0 ++ more) :: tl →
     fst (waitForMessage messageId s) = Panic "index out of range [0] with length 0") ∧
  (is_Panic (fst (waitForMessage messageId s)) = true ↔
     ∃ lengthBuf s1, conn_Read 4 s = (Ok lengthBuf, s1) ∧ Uint32 lengthBuf = 0) ∧
  ((∀ lengthBuf s1, conn_Read 4 s = (Ok lengthBuf, s1) → 1 ≤ Uint32 lengthBuf) →
   is_Ok (fst (waitForMessage messageId s)) || is_Err (fst (waitForMessage messageId s))
     = true).
Proof.
  split_and!.
  - intros more tl Hinc.
    eapply waitForMessage_zero_prefix; [by apply conn_Read_prefix|]. reflexivity.
  - split.
    + destruct (fst (waitForMessage messageId s)) as [u|e|m] eqn:E; [done..|].
      intros _. by eapply waitForMessage_Panic.
    + intros (lengthBuf & s1 & HR & H0).
      by rewrite (waitForMessage_zero_prefix _ _ _ _ HR H0).
  - intros Hpre.
    destruct (fst (waitForMessage messageId s)) as [u|e|m] eqn:E; [done..|].
    apply waitForMessage_Panic in E as (lengthBuf & s1 & HR & H0).
    specialize (Hpre _ _ HR). lia.
Qed.

Lemma waitForMessage_keep_alive_witness :
  let s := a_state 8 4 [frame []; frame [byte_of_Z Unchoke]] [] in
  let s' := a_state 8 4 [frame [byte_of_Z Unchoke]] [] in
  fst (waitForMessage Unchoke s) = Panic "index out of range [0] with length 0" ∧
  is_Ok (fst (waitForMessage Unchoke s')) || is_Err (fst (waitForMessage Unchoke s')) = true.
Proof.
  split.
  - apply (proj1 (waitForMessage_keep_alive Unchoke
                    (a_state 8 4 [frame []; frame [byte_of_Z Unchoke]] []))
             [] [frame [byte_of_Z Unchoke]]).
    reflexivity.
  - apply (proj2 (proj2 (waitForMessage_keep_alive Unchoke
                           (a_state 8 4 [frame [byte_of_Z Unchoke]] [])))).
    intros lengthBuf s1 H. vm_compute in H. injection H as <- <-. vm_compute. discriminate.
Defined.

(** ** One block request *)

Lemma requestPiece_block_sent pieceIndex pieceSize blockSize blockCount i s :
  let r := requestPiece_block pieceIndex pieceSize blockSize blockCount i s in
  let req := request_msg pieceIndex (i * blockSize)
               (blockLength pieceSize blockSize blockCount i) in
  (sent (conn (world (snd r))) = sent (conn (world s)) ++ [req] ∨
   sent (conn (world (snd r))) = sent (conn (world s)) ∧ is_Ok (fst r) = false) ∧
  (writable s → sent (conn (world (snd r))) = sent (conn (world s)) ++ [req]).
Proof.
  cbv zeta. unfold requestPiece_block, bind, wrap.
  pose proof (conn_Write_sent
                (request_msg pieceIndex (i * blockSize)
                   (blockLength pieceSize blockSize blockCount i)) s) as Hs.
  pose proof (conn_Write_Ok
                (request_msg pieceIndex (i * blockSize)
                   (blockLength pieceSize blockSize blockCount i)) s) as Hw.
  destruct (conn_Write _ s) as [[u|e|m] s1] eqn:EW; cbn [fst snd is_Ok] in Hs.
  2,3: rewrite app_nil_r in Hs; split; [right; done|];
       intros W; specialize (Hw W); done.
  assert (∀ (r : outcome (list ascii) * State),
            sent (conn (world (snd r))) = sent (conn (world s1)) →
            (sent (conn (world (snd r))) =
               sent (conn (world s)) ++
                 [request_msg pieceIndex (i * blockSize)
                    (blockLength pieceSize blockSize blockCount i)] ∨
             sent (conn (world (snd r))) = sent (conn (world s)) ∧ is_Ok (fst r) = false) ∧
            (writable s →
             sent (conn (world (snd r))) =
               sent (conn (world s)) ++
                 [request_msg pieceIndex (i * blockSize)
                    (blockLength pieceSize blockSize blockCount i)])) as Hfin.
  { intros r Hr. rewrite Hr, Hs. split; [by left|done]. }
  destruct (conn_Read 4 s1) as [[lengthBuf|e|m] s2] eqn:ER.
  all: assert (sent (conn (world s2)) = sent (conn (world s1))) as H2
      by (unfold conn_Read in ER;
          destruct (read_once 4 (incoming (conn (world s1)))) as [[?|?|?] ?];
          by simplify_eq).
  2,3: by apply Hfin.
  unfold io_ReadFull.
  destruct (ReadAtLeast (incoming (conn (world s2))) (Z.to_nat (Uint32 lengthBuf)) [])
    as [[result|e|m] inc] eqn:EF.
  2,3: by apply Hfin.
  destruct (length result <? 9)%nat; by apply Hfin.
Qed.

(** C7: the buffer a block request writes is 17 bytes long: the length
    prefix 13 and the four-byte big-endian piece index, offset and length
    around the id 6.  When the reply frame arrives, whatever its type byte
    [typ] and its 8-byte header [header] are (no comparison with the
    request is made), the bytes returned are the body without its first 9
    bytes. *)
Theorem requestPiece_block_wire pieceIndex pieceSize blockSize blockCount i s :
  writable s →
  let n := blockLength pieceSize blockSize blockCount i in
  let o := i * blockSize in
  let r := requestPiece_block pieceIndex pieceSize blockSize blockCount i s in
  length (request_msg pieceIndex o n) = 17%nat ∧
  request_msg pieceIndex o n =
    be32 13 ++ [byte_of_Z 6] ++ be32 pieceIndex ++ be32 o ++ be32 n ∧
  Uint32 (be32 13) = 13 ∧
  Uint32 (be32 pieceIndex) = pieceIndex mod 2 ^ 32 ∧
  Uint32 (be32 o) = o mod 2 ^ 32 ∧
  Uint32 (be32 n) = n mod 2 ^ 32 ∧
  sent (conn (world (snd r))) = sent (conn (world s)) ++ [request_msg pieceIndex o n] ∧
  ∀ typ header block first chunks tl,
    length header = 8%nat →
    typ :: header ++ block = first ++ concat chunks →
    Z.of_nat (length (typ :: header ++ block)) < 2 ^ 32 →
    incoming (conn (world s)) =
      Data (be32 (Z.of_nat (length (typ :: header ++ block))) ++ first)
        :: map Data chunks ++ tl →
    fst r = Ok block.
Proof.
  intros W n o r.
  split_and!; [reflexivity|reflexivity|reflexivity|apply Uint32_be32..| |].
  - by apply requestPiece_block_sent.
  - intros typ header block first chunks tl Hh Hbody Hlen Hinc.
    subst r. unfold requestPiece_block, bind, wrap.
    rewrite conn_Write_Ok by done.
    erewrite conn_Read_prefix; [|cbn; exact Hinc].
    rewrite Uint32_be32_small by lia. rewrite Nat2Z.id.
    match goal with
    | |- context [io_ReadFull ?k ?st] =>
        pose proof (io_ReadFull_chunks first chunks (map Data chunks ++ tl) st eq_refl tl eq_refl)
          as HF; destruct (io_ReadFull k st) as [res st'] eqn:E
    end.
    rewrite <- Hbody in HF. rewrite E in HF. cbn [fst] in HF. subst res.
    cbn [length]. rewrite length_app, Hh.
    replace (S (8 + length block) <? 9)%nat with false
      by (symmetry; apply Nat.ltb_ge; lia).
    cbn [fst]. f_equal. cbn [drop].
    rewrite drop_app_length'; done.
Qed.

Lemma requestPiece_block_wire_witness :
  let s := a_state 8 4 [piece_frame 5 77 4 "a"%char] [] in
  fst (requestPiece_block 0 4 16384 1 0 s) = Ok (replicate 4 "a"%char) ∧
  sent (conn (world (snd (requestPiece_block 0 4 16384 1 0 s)))) = [request_msg 0 0 4].
Proof.
  pose proof (requestPiece_block_wire 0 4 16384 1 0
                (a_state 8 4 [piece_frame 5 77 4 "a"%char] [])) as H.
  cbv zeta in H.
  destruct H as (_ & _ & _ & _ & _ & _ & Hsent & Hreply).
  { vm_compute. discriminate. }
  split; [|exact Hsent].
  apply (Hreply (byte_of_Z 7) (be32 5 ++ be32 77) (replicate 4 "a"%char)
           (byte_of_Z 7 :: be32 5 ++ be32 77 ++ replicate 4 "a"%char) [] []).
  - reflexivity.
  - vm_compute. reflexivity.
  - vm_compute. reflexivity.
  - vm_compute. reflexivity.
Defined.

End session.

(** * Pieces and blocks *)

Section sizing.

Implicit Types (s : State).

Lemma ceilDiv_bounds a b :
  0 < b → (ceilDiv a b - 1) * b < a ≤ ceilDiv a b * b.
Proof.
  intros Hb. unfold ceilDiv.
  pose proof (Z.mul_div_le (- a) b Hb). pose proof (Z.mul_succ_div_gt (- a) b Hb).
  nia.
Qed.

Lemma ceilDiv_pos a b : 0 < b → 0 < a → 1 ≤ ceilDiv a b.
Proof. intros Hb Ha. pose proof (ceilDiv_bounds a b Hb). nia. Qed.

Lemma ceilDiv_nonneg a b : 0 < b → 0 ≤ a → 0 ≤ ceilDiv a b.
Proof. intros Hb Ha. pose proof (ceilDiv_bounds a b Hb). nia. Qed.



(** The requests on the wire after the loop of [requestPiece]: the first
    [k] of the turns, all of them when the loop returns a result. *)
Lemma requestPiece_loop_sent n pieceIndex pieceSize blockSize blockCount i data s :
  let r := requestPiece_loop n pieceIndex pieceSize blockSize blockCount i data s in
  ∃ k, (k ≤ n)%nat ∧
       sent (conn (world (snd r))) =
         sent (conn (world s)) ++ requests_from k pieceIndex pieceSize blockSize blockCount i ∧
       (is_Ok (fst r) = true → k = n).
Proof.
  cbv zeta. revert i data s. induction n as [|n IH]; intros i data s.
  - exists O. cbn. by rewrite app_nil_r.
  - cbn [requestPiece_loop]. unfold bind.
    pose proof (requestPiece_block_sent pieceIndex pieceSize blockSize blockCount i s) as [Hs _].
    cbv zeta in Hs.
    destruct (requestPiece_block pieceIndex pieceSize blockSize blockCount i s)
      as [[block|e|m] s1] eqn:EB; cbn [fst snd is_Ok] in Hs |- *.
    + destruct Hs as [Hs|[_ ?]]; [|done].
      destruct (IH (i + 1) (data ++ block) s1) as (k & Hk & Hsent & Hok).
      exists (S k). split; [lia|]. split.
      * rewrite Hsent, Hs. cbn [requests_from]. by rewrite <- app_assoc.
      * intros H. f_equal. by apply Hok.
    + destruct Hs as [Hs|[Hs _]].
      * exists 1%nat. split; [lia|]. by split.
      * exists O. split; [lia|]. cbn. by rewrite app_nil_r.
    + destruct Hs as [Hs|[Hs _]].
      * exists 1%nat. split; [lia|]. by split.
      * exists O. split; [lia|]. cbn. by rewrite app_nil_r.
Qed.

Lemma blockLength_spec L j :
  blockLength L 16384 (ceilDiv L 16384) j = spec_block_length L j.
Proof. reflexivity. Qed.


(** The loop of [Download] computes the block count it passes on with the
    block size [16 * 1024]. *)
Lemma Download_schedule_blockCount n fileLength pieceLength pieceCount i pieceSize :
  Forall (fun c => snd c = ceilDiv (snd (fst c)) 16384)
         (Download_schedule n fileLength pieceLength pieceCount (16 * 1024) i pieceSize).
Proof.
  revert i pieceSize. induction n as [|n IH]; intros i pieceSize; cbn [Download_schedule].
  - constructor.
  - constructor; [reflexivity|apply IH].
Qed.






End sizing.

(** * The download *)

Section download.

Implicit Types (s : State).

(** The loop of [Download] is its schedule, run. *)
Lemma Download_loop_schedule n info pieceCount blockSize i pieceSize data s :
  PieceLength info ≠ 0 →
  Download_loop n info pieceCount blockSize i pieceSize data s =
    requestPieces
      (Download_schedule n (Length info) (PieceLength info) pieceCount blockSize i pieceSize)
      blockSize data s.
Proof.
  intros Hp. revert i pieceSize data s.
  induction n as [|n IH]; intros i pieceSize data s; [done|].
  cbn [Download_loop Download_schedule requestPieces].
  replace (PieceLength info =? 0) with false by (symmetry; by apply Z.eqb_neq).
  rewrite andb_false_r. unfold bind.
  destruct (wrap _ _ s) as [[piece|e|m] s1]; [|done..].
  apply IH.
Qed.

Lemma Download_pieces_schedule info s :
  Download_pieces info s =
    requestPieces (schedule (Length info) (PieceLength info)) (16 * 1024) [] s.
Proof.
  unfold Download_pieces, schedule.
  destruct (Z.eq_dec (PieceLength info) 0) as [E|E].
  - rewrite E. unfold ceilDiv. rewrite Z.div_0_r. reflexivity.
  - by apply Download_loop_schedule.
Qed.

(** What the loop computes as piece lengths: the remainder for the last
    piece, [pieceLength] for the others. *)
Lemma Download_schedule_lengths n fileLength pieceLength pieceCount blockSize i pieceSize :
  i + Z.of_nat n ≤ pieceCount →
  piece_lengths
    (Download_schedule n fileLength pieceLength pieceCount blockSize i pieceSize) =
  map (fun j => if j =? pieceCount - 1 then Z.rem fileLength pieceLength else pieceSize)
      (seqZ i (Z.of_nat n)).
Proof.
  revert i. induction n as [|n IH]; intros i Hle; [done|].
  rewrite seqZ_cons by lia. cbn [Download_schedule piece_lengths map fst snd].
  f_equal. fold (piece_lengths
    (Download_schedule n fileLength pieceLength pieceCount blockSize (i + 1)
       (if i =? pieceCount - 1 then Z.rem fileLength pieceLength else pieceSize))).
  destruct (Z.eqb_spec i (pieceCount - 1)) as [E|E].
  - assert (n = O) as -> by lia. done.
  - rewrite IH by lia. do 2 f_equal; lia.
Qed.

Lemma schedule_lengths fileLength pieceLength :
  0 ≤ fileLength → 0 < pieceLength →
  piece_lengths (schedule fileLength pieceLength) =
  map (fun j => if j =? ceilDiv fileLength pieceLength - 1
                then fileLength mod pieceLength else pieceLength)
      (seqZ 0 (ceilDiv fileLength pieceLength)).
Proof.
  intros Hf Hp. unfold schedule.
  pose proof (ceilDiv_nonneg fileLength pieceLength Hp Hf).
  rewrite Download_schedule_lengths by lia.
  rewrite Z2Nat.id by done. rewrite Z.rem_mod_nonneg by lia. done.
Qed.

(** Where the file length is not a multiple of the piece length, the piece
    lengths of the loop are those of the specification. *)
Lemma schedule_lengths_uneven fileLength pieceLength :
  0 ≤ fileLength → 0 < pieceLength → fileLength mod pieceLength ≠ 0 →
  piece_lengths (schedule fileLength pieceLength) =
    spec_piece_lengths fileLength pieceLength.
Proof.
  intros Hf Hp Hr. rewrite schedule_lengths by done.
  unfold spec_piece_lengths, spec_piece_length.
  replace (fileLength mod pieceLength =? 0) with false
    by (symmetry; by apply Z.eqb_neq).
  done.
Qed.

(** Where it is a multiple, the last piece gets the length 0. *)
Lemma schedule_lengths_even fileLength pieceLength :
  0 < fileLength → 0 < pieceLength → fileLength mod pieceLength = 0 →
  last (piece_lengths (schedule fileLength pieceLength)) = Some 0 ∧
  last (spec_piece_lengths fileLength pieceLength) = Some pieceLength.
Proof.
  intros Hf Hp Hr.
  pose proof (ceilDiv_pos fileLength pieceLength Hp Hf) as Hc.
  rewrite schedule_lengths by lia. unfold spec_piece_lengths, spec_piece_length.
  rewrite Hr. cbn [Z.eqb].
  set (c := ceilDiv fileLength pieceLength) in *.
  replace (seqZ 0 c) with (seqZ 0 (Z.of_nat (S (Z.to_nat (c - 1))))) by (f_equal; lia).
  rewrite seqZ_S, !map_app. cbn [map]. rewrite !last_snoc.
  replace (0 + Z.of_nat (Z.to_nat (c - 1))) with (c - 1) by lia.
  by rewrite Z.eqb_refl.
Qed.

(** C1, on the code: for [fileLength = 1048576] and [pieceLength = 262144]
    the loop of [Download] gives the fourth piece the length 0, not
    262144, and asks for no block of it; for [fileLength = 1000000] the
    last piece has the length 213568, as specified.  In a whole run with
    [fileLength = 8] and [pieceLength = 4] one request is sent and 4 bytes
    are written. *)
Theorem Download_last_piece_length :
  piece_lengths (schedule 1048576 262144) = [262144; 262144; 262144; 0] ∧
  spec_piece_lengths 1048576 262144 = [262144; 262144; 262144; 262144] ∧
  (∀ s,
     Download_pieces
       {| Name := "file"; Pieces := ""; Length := 1048576; PieceLength := 262144 |} s =
     requestPieces [(0, 262144, 16); (1, 262144, 16); (2, 262144, 16); (3, 0, 0)]
       (16 * 1024) [] s) ∧
  (∀ s, requestPiece 3 0 (16 * 1024) 0 s = (Ok [], s)) ∧
  piece_lengths (schedule 1000000 262144) = [262144; 262144; 262144; 213568] ∧
  spec_piece_lengths 1000000 262144 = [262144; 262144; 262144; 213568] ∧
  (let s := a_state 8 4
              [handshake_reply; frame [byte_of_Z Bitfield]; frame [byte_of_Z Unchoke];
               piece_frame 0 0 4 "a"%char; piece_frame 1 0 4 "b"%char] [] in
   let r := Download "out" s in
   fst r = Ok tt ∧
   files (world (snd r)) = [("out", replicate 4 "a"%char)] ∧
   sent (conn (world (snd r))) =
     [handshake_msg (client s); map byte_of_Z [0; 0; 0; 1; 2]; request_msg 0 0 4]).
Proof.
  split_and!.
  1,2,5,6: vm_compute; reflexivity.
  - intros s. rewrite Download_pieces_schedule. cbn [Length PieceLength].
    replace (schedule 1048576 262144)
      with [(0, 262144, 16); (1, 262144, 16); (2, 262144, 16); (3, 0, 0)]
      by (vm_compute; reflexivity).
    reflexivity.
  - reflexivity.
  - cbv zeta. split_and!; vm_compute; reflexivity.
Qed.

(** A dropped error never stops the caller. *)
Lemma discard_not_Err {A} (m : M A) s : is_Err (fst (discard m s)) = false.
Proof. unfold discard. by destruct (m s) as [[a|e|msg] s']. Qed.

Lemma discard_Err {A} (m : M A) s e s' :
  m s = (Err e, s') → discard m s = (Ok tt, s').
Proof. unfold discard. by intros ->. Qed.

(** C2, on the code: in this run the wait for Bitfield fails (the read
    fails), sending Interested fails (the write fails) and the wait for
    Unchoke fails (the read fails); [Download] goes on to the block
    requests all the same, writes the file and returns success. *)
Theorem Download_drops_session_errors :
  let s := a_state 6 4
             [handshake_reply; Fail; Fail;
              piece_frame 0 0 4 "a"%char; piece_frame 1 0 2 "b"%char]
             [true; false] in
  let s1 := snd (Handshake (snd (ConnectTracker s))) in
  let s2 := snd (waitForMessage Bitfield s1) in
  let s3 := snd (interested s2) in
  let s4 := snd (waitForMessage Unchoke s3) in
  fst (Handshake (snd (ConnectTracker s))) = Ok tt ∧
  fst (waitForMessage Bitfield s1) = Err (Wrapf "failed to read from a peer" ErrTransport) ∧
  fst (interested s2) = Err (Wrapf "failed to write to a peer" ErrTransport) ∧
  fst (waitForMessage Unchoke s3) = Err (Wrapf "failed to read from a peer" ErrTransport) ∧
  fst (Download "out" s) = Ok tt ∧
  sent (conn (world (snd (Download "out" s)))) =
    [handshake_msg (client s); request_msg 0 0 4; request_msg 1 0 2] ∧
  files (world (snd (Download "out" s))) =
    [("out", replicate 4 "a"%char ++ replicate 2 "b"%char)].
Proof. cbv zeta. split_and!; vm_compute; reflexivity. Qed.

(** The same with a peer that answers the wait for Bitfield with another
    message: the error "wanted to recieve 5 message id, but got 0" is
    dropped. *)
Lemma Download_drops_wrong_message :
  let s := a_state 6 4
             [handshake_reply; frame [byte_of_Z 0]; frame [byte_of_Z Unchoke];
              piece_frame 0 0 4 "a"%char; piece_frame 1 0 2 "b"%char] [] in
  let s1 := snd (Handshake (snd (ConnectTracker s))) in
  fst (waitForMessage Bitfield s1) =
    Err (Errorf "wanted to recieve 5 message id, but got 0") ∧
  fst (Download "out" s) = Ok tt.
Proof. cbv zeta. split; vm_compute; reflexivity. Qed.

(** ** The output file *)







Lemma keeps_defer {A} f (m : M A) : keeps f → keeps m → keeps (defer f m).
Proof.
  intros Hf Hm s. unfold defer. specialize (Hm s).
  destruct (m s) as [r s1]. cbn [fst snd] in *.
  destruct (Hf s1) as [-> ->]. done.
Qed.




Lemma keeps_conn_Close : keeps conn_Close.
Proof. by intros s. Qed.











(** A schedule that runs to its end has put all its requests on the wire. *)
Lemma requestPieces_sent sched blockSize data s :
  is_Ok (fst (requestPieces sched blockSize data s)) = true →
  sent (conn (world (snd (requestPieces sched blockSize data s)))) =
    sent (conn (world s)) ++ schedule_requests blockSize sched.
Proof.
  revert data s. induction sched as [|[[i pieceSize] blockCount] sched IH]; intros data s.
  - intros _. cbn. by rewrite app_nil_r.
  - cbn [requestPieces schedule_requests flat_map]. unfold bind, wrap.
    pose proof (requestPiece_loop_sent (Z.to_nat blockCount) i pieceSize blockSize
                  blockCount 0 [] s) as (k & _ & Hsent & Hok).
    fold (requestPiece i pieceSize blockSize blockCount) in Hsent, Hok.
    destruct (requestPiece i pieceSize blockSize blockCount s) as [[piece|e|m] s1];
      [|done..].
    cbn [fst snd is_Ok] in *. intros H.
    rewrite (IH _ _ H), Hsent, (Hok eq_refl), <- app_assoc. done.
Qed.




End download.

(** * More on the decoder *)

Section reader_streams.

Lemma ReadByte_stream b c tl :
  stream b = c :: tl →
  ∃ b1, ReadByte b = (Ok c, b1) ∧ stream b1 = tl ∧ lastByte b1 = Some c ∧
        (rest b = [] → rest b1 = []).
Proof.
  unfold stream, ReadByte. destruct (buffered b) as [|x xs] eqn:Eb.
  - cbn [app]. intros Hr. unfold fill. rewrite Hr, Eb. cbn [length buffered rest app].
    unfold bufSize.
    destruct ((4096 - 0) `min` S (length tl))%nat as [|k] eqn:Ek; [lia|].
    cbn [take drop]. eexists. split; [done|]. cbn [buffered rest].
    split_and!; [by rewrite take_drop|done|done].
  - cbn [app]. intros [= -> <-]. eexists. split; [done|]. by split_and!.
Qed.

Lemma ReadByte_empty b : stream b = [] → ReadByte b = (Err EOF, b).
Proof.
  intros H. apply ReadByte_eof. unfold stream in H. unfold remaining.
  apply app_eq_nil in H as [-> ->]. done.
Qed.

(** Pushing back the byte just read restores the stream. *)
Lemma ReadByte_UnreadByte b c b1 :
  ReadByte b = (Ok c, b1) →
  ∃ b2, UnreadByte b1 = (Ok tt, b2) ∧ stream b2 = stream b ∧
        (rest b = [] → rest b2 = []).
Proof.
  intros HR. destruct (stream b) as [|x tl] eqn:Es.
  - rewrite (ReadByte_empty b Es) in HR. done.
  - destruct (ReadByte_stream b x tl Es) as (b1' & HR' & Hst & Hlast & Hrest).
    rewrite HR in HR'. injection HR' as <- <-.
    unfold UnreadByte. rewrite Hlast. eexists. split; [done|].
    unfold stream in *. cbn [buffered rest app]. split; [by rewrite Hst|done].
Qed.

Lemma rest_set_lastByte line b : rest (set_lastByte line b) = rest b.
Proof. unfold set_lastByte. by destruct (last line). Qed.

Lemma ReadSlice_loop_rest_nil fuel delim b :
  rest b = [] → rest (snd (ReadSlice_loop fuel delim b)) = [].
Proof.
  intros Hr. destruct fuel; cbn [ReadSlice_loop].
  all: destruct (IndexByte delim (buffered b)); cbn [snd];
       [by rewrite rest_set_lastByte|].
  all: destruct (bufSize <=? length (buffered b))%nat; cbn [snd];
       [by rewrite rest_set_lastByte|].
  all: unfold fill; rewrite Hr; cbn [snd]; by rewrite rest_set_lastByte.
Qed.

Lemma collectFragments_rest_nil fuel delim full b :
  rest b = [] → rest (snd (collectFragments fuel delim full b)) = [].
Proof.
  revert full b. induction fuel as [|fuel IH]; intros full b Hr; cbn [collectFragments].
  all: pose proof (ReadSlice_loop_rest_nil (length (rest b)) delim b Hr) as H.
  all: fold (ReadSlice delim b) in H.
  all: destruct (ReadSlice delim b) as [[frag [e|]] b1]; cbn [snd] in H |- *; [|done].
  all: destruct e; cbn [snd]; try done.
  by apply IH.
Qed.

(** On a reader with all its input in the buffer, [ReadBytes] leaves the
    bytes behind the first [delim] in the buffer. *)
Lemma ReadBytes_buffered delim body tl lb :
  delim ∉ body →
  ∃ lb', ReadBytes delim (buffered_reader (body ++ delim :: tl) lb) =
           ((body ++ [delim], None), buffered_reader tl lb').
Proof.
  intros Hnot.
  destruct (ReadBytes_found delim (buffered_reader (body ++ delim :: tl) lb) body tl)
    as (b' & HR & Hst); [unfold stream; cbn; by rewrite app_nil_r|done|].
  pose proof (collectFragments_rest_nil
                (remaining (buffered_reader (body ++ delim :: tl) lb)) delim []
                (buffered_reader (body ++ delim :: tl) lb) eq_refl) as Hrest.
  fold (ReadBytes delim (buffered_reader (body ++ delim :: tl) lb)) in Hrest.
  rewrite HR in Hrest. cbn [snd] in Hrest.
  exists (lastByte b'). rewrite HR. f_equal.
  destruct b' as [bf rs lb']. unfold stream in Hst. cbn in *. subst rs.
  rewrite app_nil_r in Hst. by subst bf.
Qed.

(** On such a reader [Read] takes the first [n] bytes of the buffer. *)
Lemma Read_buffered n input lb :
  ∃ lb', Read n (buffered_reader input lb) =
           (Ok (take n input), buffered_reader (drop n input) lb') ∨
         (input = [] ∧ 0 < n)%nat.
Proof.
  unfold Read, buffered_reader. destruct n as [|n].
  - exists lb. left. by rewrite take_0, drop_0.
  - destruct input as [|x xs]; cbn [buffered rest].
    + exists lb. right. split; [done|lia].
    + eexists. left. reflexivity.
Qed.

End reader_streams.

(** ** Decimal texts *)

Section decimal.

Local Abbreviation chars d := (list_ascii_of_string (NilEmpty.string_of_uint d)).

Lemma digits_value_uint acc d : digits_value acc (chars d) = Some (uint_acc acc d).
Proof.
  revert acc. induction d as [|d IH|d IH|d IH|d IH|d IH|d IH|d IH|d IH|d IH|d IH];
    intros acc;
    cbn [NilEmpty.string_of_uint list_ascii_of_string digits_value uint_acc]; [done|..].
  all: lazymatch goal with
       | |- context [IsDigit ?c] => change (IsDigit c) with true
       end; cbv iota; rewrite IH; reflexivity.
Qed.

Lemma uint_acc_pos d acc : uint_acc (Z.pos acc) d = Z.pos (Pos.of_uint_acc d acc).
Proof.
  revert acc. induction d as [|d IH|d IH|d IH|d IH|d IH|d IH|d IH|d IH|d IH|d IH];
    intros acc; cbn [uint_acc Pos.of_uint_acc]; [done|..].
  all: rewrite <- IH; f_equal; lia.
Qed.

Lemma uint_acc_zero d : uint_acc 0 d = Z.of_N (Pos.of_uint d).
Proof.
  induction d as [|d IH|d IH|d IH|d IH|d IH|d IH|d IH|d IH|d IH|d IH];
    cbn [uint_acc Pos.of_uint]; [done|exact IH|..].
  all: cbn [Z.of_N]; rewrite <- uint_acc_pos; reflexivity.
Qed.

Lemma chars_digits d : Forall (fun c => IsDigit c = true) (chars d).
Proof.
  induction d as [|d IH|d IH|d IH|d IH|d IH|d IH|d IH|d IH|d IH|d IH];
    cbn [NilEmpty.string_of_uint list_ascii_of_string]; constructor; done.
Qed.

Lemma to_uint_head p :
  ∃ c tl, chars (Pos.to_uint p) = c :: tl ∧ IsDigit c = true ∧ c ≠ "0"%char ∧
          NilZero.string_of_uint (Pos.to_uint p) = NilEmpty.string_of_uint (Pos.to_uint p).
Proof.
  pose proof (DecimalPos.Unsigned.to_uint_nonzero p) as Hnz.
  pose proof (DecimalPos.Unsigned.to_of (Pos.to_uint p)) as Hn.
  rewrite DecimalPos.Unsigned.of_to in Hn. cbn [N.to_uint] in Hn.
  destruct (Pos.to_uint p) as [|d|d|d|d|d|d|d|d|d|d] eqn:E.
  1: { cbn in Hn. discriminate. }
  1: { rewrite DecimalFacts.unorm_D0 in Hn. unfold Decimal.unorm in Hn.
       destruct (Decimal.nzhead d) eqn:En; try discriminate Hn.
       - injection Hn as ->. done.
       - exfalso. by eapply DecimalFacts.nzhead_nonzero. }
  all: cbn [NilEmpty.string_of_uint list_ascii_of_string];
       eexists _, _; split; [reflexivity|]; split_and!; done.
Qed.

(** [Atoi] reads back what [Itoa] writes. *)
Lemma Atoi_dec z : - 2 ^ 63 ≤ z < 2 ^ 63 → Atoi (dec z) = Some z.
Proof.
  intros Hz. unfold dec, itoa. destruct z as [|p|p]; [reflexivity|..];
    cbn [Z.to_int NilZero.string_of_int].
  all: destruct (to_uint_head p) as (c & tl & Hc & Hd & Hn0 & ->).
  all: pose proof (digits_value_uint 0 (Pos.to_uint p)) as Hv.
  all: rewrite uint_acc_zero, DecimalPos.Unsigned.of_to in Hv; cbn [Z.of_N] in Hv.
  - unfold Atoi. rewrite Hc in Hv |- *.
    assert (c ≠ "-"%char ∧ c ≠ "+"%char) as [H1 H2]
      by (split; intros ->; discriminate Hd).
    destruct c as [[] [] [] [] [] [] [] []]; try done.
    all: rewrite Hv; destruct (Z.ltb_spec (Z.pos p) (2 ^ 63)); [done|lia].
  - cbn [list_ascii_of_string]. unfold Atoi. rewrite Hc in Hv |- *. rewrite Hv.
    destruct (Z.leb_spec (Z.pos p) (2 ^ 63)); [done|lia].
Qed.

(** A decimal text holds digits behind an optional sign, and starts with
    ['0'] only when it is ["0"]. *)
Lemma dec_chars z c : c ∈ dec z → IsDigit c = true ∨ c = "-"%char.
Proof.
  unfold dec, itoa. destruct z as [|p|p]; cbn [Z.to_int NilZero.string_of_int].
  - cbn. rewrite list_elem_of_singleton. intros ->. by left.
  - destruct (to_uint_head p) as (_ & _ & _ & _ & _ & ->).
    intros H. left. by apply (proj1 (Forall_forall _ _) (chars_digits (Pos.to_uint p))).
  - destruct (to_uint_head p) as (_ & _ & _ & _ & _ & ->).
    cbn [list_ascii_of_string]. rewrite elem_of_cons. intros [->|H]; [by right|].
    left. by apply (proj1 (Forall_forall _ _) (chars_digits (Pos.to_uint p))).
Qed.

Lemma dec_canonical z :
  (1 <? length (dec z))%nat && bool_decide (head (dec z) = Some "0"%char) = false.
Proof.
  unfold dec, itoa. destruct z as [|p|p]; [reflexivity|..];
    cbn [Z.to_int NilZero.string_of_int].
  - destruct (to_uint_head p) as (c & tl & Hc & _ & Hn0 & ->). rewrite Hc.
    cbn [head]. rewrite bool_decide_eq_false_2 by congruence. apply andb_false_r.
  - cbn [list_ascii_of_string head].
    rewrite bool_decide_eq_false_2 by discriminate. apply andb_false_r.
Qed.

Lemma dec_no_End z : End ∉ dec z.
Proof. intros H. by apply dec_chars in H as [H| H]. Qed.

Lemma dec_no_colon z : ":"%char ∉ dec z.
Proof. intros H. by apply dec_chars in H as [H| H]. Qed.

Lemma dec_nonempty z : dec z ≠ [].
Proof.
  unfold dec, itoa. destruct z as [|p|p]; [done|..];
    cbn [Z.to_int NilZero.string_of_int].
  - destruct (to_uint_head p) as (c & tl & Hc & _ & _ & ->). by rewrite Hc.
  - done.
Qed.

Lemma dec_head z : ∃ c tl, dec z = c :: tl ∧ (IsDigit c = true ∨ c = "-"%char).
Proof.
  pose proof (dec_nonempty z) as Hne. pose proof (dec_chars z) as Hc.
  destruct (dec z) as [|c tl]; [done|]. exists c, tl. split; [done|].
  apply Hc. apply elem_of_cons. by left.
Qed.

End decimal.

(** ** The recursion of the decoder without fuel *)

Section decode_equations.

Lemma Decode_fuel_above fuel d :
  (2 * remaining d + 1 ≤ fuel)%nat → Decode_fuel fuel d = Decode d.
Proof.
  intros Hle.
  destruct (proj1 (Decode_fuel_enough (remaining d)) d) as [r Hr]; [done|].
  rewrite (proj1 (Decode_fuel_mono (2 * remaining d + 1)) fuel d r Hle Hr).
  symmetry.
  apply (proj1 (Decode_fuel_mono (2 * remaining d + 1)) (enough d) d r);
    [unfold enough; lia|done].
Qed.

Lemma decodeArray_fuel_above fuel lst d :
  (enough d ≤ fuel)%nat → decodeArray_fuel fuel lst d = decodeArray_from lst d.
Proof.
  intros Hle. unfold decodeArray_from.
  destruct (proj1 (proj2 (Decode_fuel_enough (remaining d))) lst d) as [r Hr]; [done|].
  fold (enough d) in Hr. rewrite Hr.
  by apply (proj1 (proj2 (Decode_fuel_mono (enough d))) fuel lst d r).
Qed.

Lemma decodeDict_fuel_above fuel m d :
  (enough d ≤ fuel)%nat → decodeDict_fuel fuel m d = decodeDict_from m d.
Proof.
  intros Hle. unfold decodeDict_from.
  destruct (proj2 (proj2 (Decode_fuel_enough (remaining d))) m d) as [r Hr]; [done|].
  fold (enough d) in Hr. rewrite Hr.
  by apply (proj2 (proj2 (Decode_fuel_mono (enough d))) fuel m d r).
Qed.

Lemma enough_S d : enough d = S (2 * remaining d + 1).
Proof. unfold enough. lia. Qed.

(** [Decode] on a first byte [i]. *)
Lemma Decode_Int d d1 :
  ReadByte d = (Ok Int, d1) →
  Decode d = Some match decodeInt d1 with
                  | (Ok n, d2) => (Ok (VInt n), d2)
                  | (Err e, d2) => (Err e, d2)
                  | (Panic msg, d2) => (Panic msg, d2)
                  end.
Proof.
  intros HR. unfold Decode. rewrite enough_S. cbn [Decode_fuel]. rewrite HR.
  change (IsDigit Int) with false. cbv iota. change (Ascii.eqb Int Int) with true.
  cbv iota. by destruct (decodeInt d1) as [[n|e|msg] d2].
Qed.

(** [Decode] on a first byte that is a digit. *)
Lemma Decode_digit d c d1 d2 :
  ReadByte d = (Ok c, d1) → IsDigit c = true → UnreadByte d1 = (Ok tt, d2) →
  Decode d = Some (decodeString false d2).
Proof.
  intros HR Hc HU. unfold Decode. rewrite enough_S. cbn [Decode_fuel].
  by rewrite HR, Hc, HU.
Qed.

(** [Decode] on a first byte [l]. *)
Lemma Decode_Array d d1 :
  ReadByte d = (Ok Array, d1) →
  Decode d = match decodeArray d1 with
             | Some (Ok l, d2) => Some (Ok (VList l), d2)
             | Some (Err e, d2) => Some (Err e, d2)
             | Some (Panic msg, d2) => Some (Panic msg, d2)
             | None => None
             end.
Proof.
  intros HR. unfold Decode. rewrite enough_S. cbn [Decode_fuel]. rewrite HR.
  change (IsDigit Array) with false. cbv iota.
  change (Ascii.eqb Array Int) with false. cbv iota.
  change (Ascii.eqb Array Array) with true. cbv iota.
  apply ReadByte_Ok in HR as [Hrem _].
  rewrite decodeArray_fuel_above by (unfold enough; lia). done.
Qed.

(** [Decode] on a first byte [d]. *)
Lemma Decode_Dict d d1 :
  ReadByte d = (Ok Dict, d1) →
  Decode d = match decodeDict d1 with
             | Some (Ok m, d2) => Some (Ok (VDict m), d2)
             | Some (Err e, d2) => Some (Err e, d2)
             | Some (Panic msg, d2) => Some (Panic msg, d2)
             | None => None
             end.
Proof.
  intros HR. unfold Decode. rewrite enough_S. cbn [Decode_fuel]. rewrite HR.
  change (IsDigit Dict) with false. cbv iota.
  change (Ascii.eqb Dict Int) with false. cbv iota.
  change (Ascii.eqb Dict Array) with false. cbv iota.
  change (Ascii.eqb Dict Dict) with true. cbv iota.
  apply ReadByte_Ok in HR as [Hrem _].
  rewrite decodeDict_fuel_above by (unfold enough; lia). done.
Qed.

(** The loop of [decodeArray] at the terminator. *)
Lemma decodeArray_End lst d d1 :
  ReadByte d = (Ok End, d1) → decodeArray_from lst d = Some (Ok lst, d1).
Proof.
  intros HR. unfold decodeArray_from. rewrite enough_S. cbn [decodeArray_fuel].
  by rewrite HR.
Qed.

(** One turn of the loop of [decodeArray]: the element is decoded from
    the place of the byte looked at, and appended. *)
Lemma decodeArray_turn lst d b d1 d2 :
  ReadByte d = (Ok b, d1) → b ≠ End → UnreadByte d1 = (Ok tt, d2) →
  decodeArray_from lst d =
    match Decode d2 with
    | None => None
    | Some (Err e, d3) => Some (Err (Wrapf "failed to decode" e), d3)
    | Some (Panic msg, d3) => Some (Panic msg, d3)
    | Some (Ok v, d3) => decodeArray_from (lst ++ [v]) d3
    end.
Proof.
  intros HR Hb HU. unfold decodeArray_from at 1. rewrite enough_S.
  cbn [decodeArray_fuel]. rewrite HR.
  destruct (Ascii.eqb_spec b End) as [->|_]; [done|]. rewrite HU.
  apply ReadByte_Ok in HR as [Hrem _]. apply UnreadByte_Ok in HU.
  rewrite Decode_fuel_above by lia.
  destruct (Decode d2) as [[[v|e|msg] d3]|] eqn:ED; [|done..].
  apply (proj1 (Decode_fuel_consumes _)) in ED.
  apply decodeArray_fuel_above. unfold enough. lia.
Qed.

(** The loop of [decodeDict] at the terminator. *)
Lemma decodeDict_End m d d1 :
  ReadByte d = (Ok End, d1) → decodeDict_from m d = Some (Ok m, d1).
Proof.
  intros HR. unfold decodeDict_from. rewrite enough_S. cbn [decodeDict_fuel].
  by rewrite HR.
Qed.

(** One turn of the loop of [decodeDict] with a key that is a string. *)
Lemma decodeDict_turn m d b d1 d2 key d3 :
  ReadByte d = (Ok b, d1) → b ≠ End → UnreadByte d1 = (Ok tt, d2) →
  Decode d2 = Some (Ok (VString key), d3) →
  decodeDict_from m d =
    match Decode d3 with
    | None => None
    | Some (Err e, d4) => Some (Err (Wrapf "failed to decode dict value" e), d4)
    | Some (Panic msg, d4) => Some (Panic msg, d4)
    | Some (Ok v, d4) => decodeDict_from (<[key := v]> m) d4
    end.
Proof.
  intros HR Hb HU HK. unfold decodeDict_from at 1. rewrite enough_S.
  cbn [decodeDict_fuel]. rewrite HR.
  destruct (Ascii.eqb_spec b End) as [->|_]; [done|]. rewrite HU.
  apply ReadByte_Ok in HR as [Hrem _]. apply UnreadByte_Ok in HU.
  rewrite Decode_fuel_above by lia. rewrite HK.
  apply (proj1 (Decode_fuel_consumes _)) in HK.
  rewrite Decode_fuel_above by lia.
  destruct (Decode d3) as [[[v|e|msg] d4]|] eqn:ED; [|done..].
  apply (proj1 (Decode_fuel_consumes _)) in ED.
  apply decodeDict_fuel_above. unfold enough. lia.
Qed.

End decode_equations.

(** ** Integers and the dispatch of [Decode] *)

Section decode_integers.

(** Every 64-bit integer written in decimal between [i] and [e] decodes to
    itself, from any reader, and the reader is left right behind the
    [e]. *)
Theorem Decode_int_roundtrip d z tl :
  - 2 ^ 63 ≤ z < 2 ^ 63 →
  stream d = Int :: dec z ++ End :: tl →
  ∃ d', Decode d = Some (Ok (VInt z), d') ∧ stream d' = tl.
Proof.
  intros Hz Hst.
  destruct (ReadByte_stream d _ _ Hst) as (d1 & HR & Hst1 & _ & _).
  destruct (decodeInt_stream d1 (dec z) tl Hst1 (dec_no_End z)) as (d2 & Hst2 & HD).
  exists d2. split; [|done].
  rewrite (Decode_Int d d1 HR), HD, dec_canonical, (Atoi_dec z Hz). done.
Qed.

Lemma Decode_int_roundtrip_witness :
  ∃ d', Decode (New (list_ascii_of_string "i-9223372036854775808e4:spam")) =
          Some (Ok (VInt (- 9223372036854775808)), d') ∧
        stream d' = list_ascii_of_string "4:spam".
Proof.
  apply (Decode_int_roundtrip
           (New (list_ascii_of_string "i-9223372036854775808e4:spam"))
           (- 9223372036854775808) (list_ascii_of_string "4:spam")).
  - lia.
  - vm_compute. reflexivity.
Defined.

(** An integer outside 64 bits is refused, whatever its sign. *)
Theorem Decode_int_out_of_range d z tl :
  z < - 2 ^ 63 ∨ 2 ^ 63 ≤ z →
  stream d = Int :: dec z ++ End :: tl →
  ∃ d', Decode d = Some (Err (Errorf "invalid int format"), d') ∧ stream d' = tl.
Proof.
  intros Hz Hst.
  destruct (ReadByte_stream d _ _ Hst) as (d1 & HR & Hst1 & _ & _).
  destruct (decodeInt_stream d1 (dec z) tl Hst1 (dec_no_End z)) as (d2 & Hst2 & HD).
  exists d2. split; [|done].
  rewrite (Decode_Int d d1 HR), HD, dec_canonical.
  assert (Atoi (dec z) = None) as ->; [|done].
  unfold dec, itoa. destruct z as [|p|p]; [lia|..];
    cbn [Z.to_int NilZero.string_of_int].
  all: destruct (to_uint_head p) as (c & tl' & Hc & Hd & Hn0 & ->).
  all: pose proof (digits_value_uint 0 (Pos.to_uint p)) as Hv.
  all: rewrite uint_acc_zero, DecimalPos.Unsigned.of_to in Hv; cbn [Z.of_N] in Hv.
  - unfold Atoi. rewrite Hc in Hv |- *.
    assert (c ≠ "-"%char ∧ c ≠ "+"%char) as [H1 H2]
      by (split; intros ->; discriminate Hd).
    destruct c as [[] [] [] [] [] [] [] []]; try done.
    all: rewrite Hv; destruct (Z.ltb_spec (Z.pos p) (2 ^ 63)); [lia|done].
  - cbn [list_ascii_of_string]. unfold Atoi. rewrite Hc in Hv |- *. rewrite Hv.
    destruct (Z.leb_spec (Z.pos p) (2 ^ 63)); [lia|done].
Qed.

Lemma Decode_int_out_of_range_witness :
  ∃ d', Decode (New (list_ascii_of_string "i9223372036854775808e")) =
          Some (Err (Errorf "invalid int format"), d') ∧
        stream d' = [].
Proof.
  apply (Decode_int_out_of_range
           (New (list_ascii_of_string "i9223372036854775808e"))
           9223372036854775808 []).
  - right. lia.
  - vm_compute. reflexivity.
Defined.

(** An [i] with no [e] anywhere behind it is refused, and the whole input
    has been consumed by then. *)
Theorem Decode_int_unterminated d tl :
  stream d = Int :: tl → End ∉ tl →
  ∃ d', Decode d = Some (Err (Errorf "invalid int format"), d') ∧ stream d' = [].
Proof.
  intros Hst Hnot.
  destruct (ReadByte_stream d _ _ Hst) as (d1 & HR & Hst1 & _ & _).
  rewrite <- Hst1 in Hnot.
  destruct (ReadBytes_missing End d1 Hnot) as (d2 & HB & Hst2).
  exists d2. split; [|done].
  rewrite (Decode_Int d d1 HR). unfold decodeInt. by rewrite HB.
Qed.

Lemma Decode_int_unterminated_witness :
  ∃ d', Decode (New (list_ascii_of_string "i42")) =
          Some (Err (Errorf "invalid int format"), d') ∧ stream d' = [].
Proof.
  apply (Decode_int_unterminated (New (list_ascii_of_string "i42"))
           (list_ascii_of_string "42")).
  - reflexivity.
  - vm_compute. intros H. repeat (apply elem_of_cons in H as [H|H]; [discriminate H|]).
    by apply not_elem_of_nil in H.
Defined.

(** A first byte that is no digit and none of [i], [l], [d] is refused as
    an unknown format, with that one byte consumed; an empty input is a
    read error. *)
Theorem Decode_unknown_format d c tl :
  stream d = c :: tl →
  IsDigit c = false → c ≠ Int → c ≠ Array → c ≠ Dict →
  (∃ d', Decode d = Some (Err (Errorf "unknown format"), d') ∧ stream d' = tl) ∧
  (∀ d0, stream d0 = [] → Decode d0 = Some (Err (Wrapf "failed to read byte" EOF), d0)).
Proof.
  intros Hst Hc Hi Hl Hd. split.
  - destruct (ReadByte_stream d _ _ Hst) as (d1 & HR & Hst1 & _ & _).
    exists d1. split; [|done].
    unfold Decode. rewrite enough_S. cbn [Decode_fuel]. rewrite HR, Hc.
    destruct (Ascii.eqb_spec c Int); [done|].
    destruct (Ascii.eqb_spec c Array); [done|].
    destruct (Ascii.eqb_spec c Dict); done.
  - intros d0 H0. unfold Decode. rewrite enough_S. cbn [Decode_fuel].
    by rewrite (ReadByte_empty d0 H0).
Qed.

Lemma Decode_unknown_format_witness :
  ∃ d', Decode (New (list_ascii_of_string "e4:spam")) =
          Some (Err (Errorf "unknown format"), d') ∧
        stream d' = list_ascii_of_string "4:spam".
Proof.
  apply (Decode_unknown_format (New (list_ascii_of_string "e4:spam")) End
           (list_ascii_of_string "4:spam")); [reflexivity|reflexivity|discriminate..].
Defined.

End decode_integers.

(** ** Texts that lie in the buffer *)

Section decode_buffered.

Lemma IndexByte_app delim body bt :
  delim ∉ body → IndexByte delim (body ++ delim :: bt) = Some (length body).
Proof.
  induction body as [|c body IH]; intros Hnot; cbn [app IndexByte length].
  - by rewrite Ascii.eqb_refl.
  - apply not_elem_of_cons in Hnot as [Hne Hnot].
    destruct (Ascii.eqb_spec c delim) as [->|_]; [done|]. by rewrite IH.
Qed.

(** With the delimiter in the buffer, [ReadBytes] does not touch the
    underlying reader. *)
Lemma ReadBytes_in_buffer delim body bt rs lb :
  delim ∉ body →
  ReadBytes delim (mkReader (body ++ delim :: bt) rs lb) =
    ((body ++ [delim], None), mkReader bt rs (Some delim)).
Proof.
  intros Hnot.
  assert (∀ fuel, ReadSlice_loop fuel delim (mkReader (body ++ delim :: bt) rs lb) =
                    ((body ++ [delim], None), mkReader bt rs (Some delim))) as HS.
  { intros fuel. destruct fuel; cbn [ReadSlice_loop buffered rest lastByte].
    all: rewrite IndexByte_app by done.
    all: replace (S (length body)) with (length (body ++ [delim]))
           by (rewrite length_app; cbn; lia).
    all: rewrite (cons_middle delim body bt), app_assoc.
    all: rewrite take_app_length, drop_app_length.
    all: unfold set_lastByte; rewrite last_snoc; reflexivity. }
  unfold ReadBytes. generalize (remaining (mkReader (body ++ delim :: bt) rs lb)).
  intros fuel. destruct fuel; cbn [collectFragments]; unfold ReadSlice; by rewrite HS.
Qed.

Lemma dec_nonneg_head z :
  0 ≤ z → ∃ c tl, dec z = c :: tl ∧ IsDigit c = true.
Proof.
  intros Hz. unfold dec, itoa. destruct z as [|p|p]; [by eexists _, _|..|lia].
  cbn [Z.to_int NilZero.string_of_int].
  destruct (to_uint_head p) as (c & tl & Hc & Hd & _ & ->). by exists c, tl.
Qed.

(** A string whose text lies in the buffer is decoded to its bytes, and
    the reader is left behind them. *)
Lemma Decode_string_in_buffer s bt rs lb :
  Z.of_nat (length s) < 2 ^ 63 →
  ∃ lb', Decode (mkReader (enc_str s ++ bt) rs lb) =
           Some (Ok (VString (string_of_list_ascii s)), mkReader bt rs lb').
Proof.
  intros Hlen. unfold enc_str.
  destruct (dec_nonneg_head (Z.of_nat (length s))) as (c & tl & Hc & Hd); [lia|].
  assert (ReadByte (mkReader ((dec (Z.of_nat (length s)) ++ ":"%char :: s) ++ bt) rs lb)
          = (Ok c, mkReader ((tl ++ ":"%char :: s) ++ bt) rs (Some c))) as HR
    by (rewrite Hc; reflexivity).
  rewrite (Decode_digit _ c _ (mkReader ((c :: tl ++ ":"%char :: s) ++ bt) rs None) HR Hd)
    by reflexivity.
  replace ((c :: tl ++ ":"%char :: s) ++ bt)
    with (dec (Z.of_nat (length s)) ++ ":"%char :: s ++ bt)
    by (rewrite Hc; cbn [app]; by rewrite <- app_assoc).
  unfold decodeString. rewrite ReadBytes_in_buffer by apply dec_no_colon.
  rewrite length_app. cbn [length].
  replace (length (dec (Z.of_nat (length s))) + 1 - 1)%nat
    with (length (dec (Z.of_nat (length s)))) by lia.
  rewrite take_app_length, Atoi_dec by lia.
  destruct (Z.ltb_spec (Z.of_nat (length s)) 0); [lia|].
  rewrite Nat2Z.id. destruct s as [|x s].
  - cbn. by eexists.
  - cbn [length Read app buffered rest lastByte take drop].
    rewrite take_app_length, drop_app_length.
    eexists. rewrite fill_buffer_full by reflexivity. reflexivity.
Qed.

(** What is in the buffer of a string cut short by the end of the buffer
    is all that [decodeString] takes: the string is filled up with zero
    bytes, whatever the underlying reader still holds. *)
Lemma Decode_string_cut n part rs lb :
  part ≠ [] → Z.of_nat (length part) < n < 2 ^ 63 →
  ∃ lb', Decode (mkReader (dec n ++ ":"%char :: part) rs lb) =
           Some (Ok (VString (string_of_list_ascii (fill_buffer (Z.to_nat n) part))),
                 mkReader [] rs lb').
Proof.
  intros Hpart Hn.
  destruct (dec_nonneg_head n) as (c & tl & Hc & Hd); [lia|].
  assert (ReadByte (mkReader (dec n ++ ":"%char :: part) rs lb)
          = (Ok c, mkReader (tl ++ ":"%char :: part) rs (Some c))) as HR
    by (rewrite Hc; reflexivity).
  rewrite (Decode_digit _ c _ (mkReader (c :: tl ++ ":"%char :: part) rs None) HR Hd)
    by reflexivity.
  rewrite app_comm_cons, <- Hc.
  unfold decodeString. rewrite ReadBytes_in_buffer by apply dec_no_colon.
  rewrite length_app. cbn [length].
  replace (length (dec n) + 1 - 1)%nat with (length (dec n)) by lia.
  rewrite take_app_length, Atoi_dec by lia.
  destruct (Z.ltb_spec n 0); [lia|].
  destruct (Z.to_nat n) as [|k] eqn:Ek; [lia|].
  destruct part as [|x part]; [done|].
  cbn [Read buffered rest lastByte].
  rewrite take_ge, drop_ge by (cbn [length] in *; lia).
  by eexists.
Qed.

End decode_buffered.

(** ** Well-formed texts *)

Section decode_texts.

Lemma tree_ind' (P : tree → Prop) :
  (∀ z, P (TInt z)) →
  (∀ s, P (TStr s)) →
  (∀ ts, Forall P ts → P (TList ts)) →
  (∀ kvs, Forall (fun kv => P (snd kv)) kvs → P (TDict kvs)) →
  ∀ t, P t.
Proof.
  intros HI HS HL HD. fix IH 1. intros [z|s|ts|kvs].
  - apply HI.
  - apply HS.
  - apply HL. induction ts as [|t ts IHts]; constructor; [apply IH|exact IHts].
  - apply HD. induction kvs as [|[k t] kvs IHkvs]; constructor; [apply IH|exact IHkvs].
Qed.

Lemma enc_str_head s : ∃ c tl, enc_str s = c :: tl ∧ IsDigit c = true.
Proof.
  unfold enc_str.
  destruct (dec_nonneg_head (Z.of_nat (length s))) as (c & tl & -> & Hd); [lia|].
  by eexists _, _.
Qed.

(** No text starts with the terminator. *)
Lemma enc_head t : ∃ c tl, enc t = c :: tl ∧ c ≠ End.
Proof.
  destruct t as [z|s|ts|kvs]; cbn [enc]; try (eexists _, _; split; [done|discriminate]).
  destruct (enc_str_head s) as (c & tl & -> & Hd). exists c, tl. split; [done|].
  intros ->. discriminate Hd.
Qed.

Lemma ReadByte_in_buffer c bf rs lb :
  ReadByte (mkReader (c :: bf) rs lb) = (Ok c, mkReader bf rs (Some c)).
Proof. reflexivity. Qed.

Lemma UnreadByte_in_buffer c bf rs :
  UnreadByte (mkReader bf rs (Some c)) = (Ok tt, mkReader (c :: bf) rs None).
Proof. reflexivity. Qed.

(** An integer whose text lies in the buffer. *)
Lemma Decode_int_in_buffer z bt rs lb :
  - 2 ^ 63 ≤ z < 2 ^ 63 →
  Decode (mkReader (enc (TInt z) ++ bt) rs lb) =
    Some (Ok (VInt z), mkReader bt rs (Some End)).
Proof.
  intros Hz. cbn [enc app].
  rewrite (Decode_Int _ _ (ReadByte_in_buffer _ _ _ _)).
  rewrite <- app_assoc. cbn [app].
  rewrite (decodeInt_after_ReadBytes _ (dec z) (mkReader bt rs (Some End)))
    by (apply ReadBytes_in_buffer, dec_no_End).
  by rewrite dec_canonical, Atoi_dec.
Qed.

(** A text that lies in the buffer is decoded to the value it stands for,
    and the reader is left behind it. *)
Lemma Decode_enc_in_buffer t :
  wf t = true →
  ∀ bt rs lb, ∃ lb', Decode (mkReader (enc t ++ bt) rs lb) =
                       Some (Ok (val t), mkReader bt rs lb').
Proof.
  induction t as [z|s|ts IHts|kvs IHkvs] using tree_ind'; cbn [wf]; intros Hwf bt rs lb.
  - apply andb_true_iff in Hwf as [H1 H2].
    apply Z.leb_le in H1. apply Z.ltb_lt in H2.
    exists (Some End). by apply Decode_int_in_buffer.
  - apply Z.ltb_lt in Hwf. by apply Decode_string_in_buffer.
  - cbn [enc val app].
    rewrite (Decode_Array _ _ (ReadByte_in_buffer _ _ _ _)).
    change (decodeArray ?d) with (decodeArray_from [] d).
    rewrite <- app_assoc. cbn [app].
    assert (∀ lst lb0, ∃ lb',
              decodeArray_from lst (mkReader (concat (map enc ts) ++ End :: bt) rs lb0) =
                Some (Ok (lst ++ map val ts), mkReader bt rs lb')) as Hloop.
    { clear lb. induction ts as [|t ts IH]; intros lst lb0.
      - cbn [map concat app]. rewrite app_nil_r. exists (Some End).
        by apply decodeArray_End.
      - apply Forall_cons in IHts as [Ht IHts]. cbn [forallb] in Hwf.
        apply andb_true_iff in Hwf as [Hwt Hwf].
        cbn [map concat]. rewrite <- app_assoc.
        destruct (enc_head t) as (c & et & Hc & Hne).
        rewrite Hc. cbn [app].
        rewrite (decodeArray_turn lst _ c _ _ (ReadByte_in_buffer _ _ _ _) Hne
                   (UnreadByte_in_buffer _ _ _)).
        rewrite app_comm_cons, <- Hc.
        destruct (Ht Hwt (concat (map enc ts) ++ End :: bt) rs None) as [lb1 ->].
        destruct (IH IHts Hwf (lst ++ [val t]) lb1) as [lb' ->].
        exists lb'. by rewrite <- app_assoc. }
    destruct (Hloop [] (Some Array)) as [lb' ->]. by exists lb'.
  - cbn [enc val app].
    rewrite (Decode_Dict _ _ (ReadByte_in_buffer _ _ _ _)).
    change (decodeDict ?d) with (decodeDict_from ∅ d).
    rewrite <- app_assoc. cbn [app].
    set (ins := fun (m : gmap string value) (kv : list ascii * tree) =>
                  match kv with
                  | (k, t') => <[string_of_list_ascii k := val t']> m
                  end).
    set (item := fun kv : list ascii * tree =>
                   match kv with (k, t') => enc_str k ++ enc t' end).
    assert (∀ m lb0, ∃ lb',
              decodeDict_from m (mkReader (concat (map item kvs) ++ End :: bt) rs lb0) =
                Some (Ok (foldl ins m kvs), mkReader bt rs lb')) as Hloop.
    { clear lb. induction kvs as [|[k t] kvs IH]; intros m lb0.
      - cbn [map concat app foldl]. exists (Some End). by apply decodeDict_End.
      - apply Forall_cons in IHkvs as [Ht IHkvs]. cbn [snd] in Ht.
        cbn [forallb] in Hwf. apply andb_true_iff in Hwf as [Hwt Hwf].
        apply andb_true_iff in Hwt as [Hk Hwt]. apply Z.ltb_lt in Hk.
        cbn [map concat foldl]. unfold item at 1. rewrite <- !app_assoc.
        destruct (enc_str_head k) as (c & ek & Hc & Hd).
        assert (c ≠ End) as Hne by (intros ->; discriminate Hd).
        rewrite Hc. cbn [app].
        destruct (Decode_string_in_buffer k
                    (enc t ++ concat (map item kvs) ++ End :: bt) rs None Hk)
          as [lb1 HK].
        rewrite Hc in HK. cbn [app] in HK.
        rewrite (decodeDict_turn m _ c _ _ _ _ (ReadByte_in_buffer _ _ _ _) Hne
                   (UnreadByte_in_buffer _ _ _) HK).
        destruct (Ht Hwt (concat (map item kvs) ++ End :: bt) rs lb1) as [lb2 ->].
        destruct (IH IHkvs Hwf (ins m (k, t)) lb2) as [lb' Hl].
        exists lb'. exact Hl. }
    destruct (Hloop ∅ (Some Dict)) as [lb' ->]. by exists lb'.
Qed.

Lemma take_min {A} n (l : list A) : take (n `min` length l) l = take n l.
Proof.
  destruct (Nat.min_spec n (length l)) as [[_ ->]|[Hle ->]]; [done|].
  by rewrite !take_ge by lia.
Qed.

Lemma drop_min {A} n (l : list A) : drop (n `min` length l) l = drop n l.
Proof.
  destruct (Nat.min_spec n (length l)) as [[_ ->]|[Hle ->]]; [done|].
  by rewrite !drop_ge by lia.
Qed.

(** The first read of a reader made by [New] moves the first [bufSize]
    bytes of the input into the buffer. *)
Lemma Decode_New input :
  input ≠ [] →
  Decode (New input) =
    Decode (mkReader (take bufSize input) (drop bufSize input) None).
Proof.
  intros Hne. unfold Decode.
  assert (enough (New input) =
          enough (mkReader (take bufSize input) (drop bufSize input) None)) as <-.
  { unfold enough, remaining, New. cbn [buffered rest length].
    rewrite length_take, length_drop. lia. }
  rewrite enough_S. cbn [Decode_fuel].
  assert (ReadByte (New input) =
          ReadByte (mkReader (take bufSize input) (drop bufSize input) None)) as ->;
    [|done].
  unfold ReadByte, New, fill. cbn [buffered rest lastByte length app].
  destruct input as [|x xs] eqn:E; [done|]. rewrite <- E.
  rewrite Nat.sub_0_r, take_min, drop_min.
  destruct (take bufSize input) as [|c T] eqn:ET; [|done].
  exfalso. apply (f_equal length) in ET. rewrite length_take, E in ET.
  unfold bufSize in ET. cbn [length] in ET. lia.
Qed.

End decode_texts.

(** ** Decoding well-formed inputs *)

Section decode_roundtrip.

(** Round trip: a well-formed text of at most [bufSize] bytes, given to
    [New] with anything behind it, is decoded to the value it stands for,
    and the reader is left right behind the text. *)
Theorem Decode_roundtrip t tl :
  wf t = true →
  (length (enc t) ≤ bufSize)%nat →
  ∃ d', Decode (New (enc t ++ tl)) = Some (Ok (val t), d') ∧ stream d' = tl.
Proof.
  intros Hwf Hlen.
  destruct (enc_head t) as (c & et & Hc & _).
  rewrite Decode_New by (rewrite Hc; done).
  rewrite take_app, drop_app, (take_ge (enc t)), (drop_ge (enc t)) by done.
  cbn [app].
  destruct (Decode_enc_in_buffer t Hwf (take (bufSize - length (enc t)) tl)
              (drop (bufSize - length (enc t)) tl) None) as [lb' ->].
  eexists. split; [done|]. unfold stream. cbn [buffered rest]. apply take_drop.
Qed.

Lemma Decode_roundtrip_witness :
  ∃ d', Decode (New (list_ascii_of_string "d3:cowl3:mooi-7ee4:spam0:etrailer")) =
          Some (Ok (VDict (<["spam" := VString ""]>
                             (<["cow" := VList [VString "moo"; VInt (-7)]]> ∅))), d') ∧
        stream d' = list_ascii_of_string "trailer".
Proof.
  apply (Decode_roundtrip
           (TDict [(list_ascii_of_string "cow",
                    TList [TStr (list_ascii_of_string "moo"); TInt (-7)]);
                   (list_ascii_of_string "spam", TStr [])])
           (list_ascii_of_string "trailer")).
  - reflexivity.
  - vm_compute. lia.
Defined.

(** In a dictionary the entry read last for a key is the one kept; the
    keys may come in any order. *)
Theorem Decode_dict_last_wins kvs k t :
  wf (TDict (kvs ++ [(k, t)])) = true →
  (length (enc (TDict (kvs ++ [(k, t)]))) ≤ bufSize)%nat →
  ∃ m d', Decode (New (enc (TDict (kvs ++ [(k, t)])))) = Some (Ok (VDict m), d') ∧
          m !! string_of_list_ascii k = Some (val t) ∧
          stream d' = [].
Proof.
  intros Hwf Hlen.
  set (td := TDict (kvs ++ [(k, t)])) in *.
  assert (∃ d', Decode (New (enc td)) = Some (Ok (val td), d') ∧ stream d' = [])
    as (d' & HD & Hst).
  { destruct (enc_head td) as (c & et & Hc & _).
    rewrite Decode_New by (rewrite Hc; done).
    rewrite (take_ge (enc td)), (drop_ge (enc td)) by done.
    destruct (Decode_enc_in_buffer td Hwf [] [] None) as [lb' Hd].
    rewrite app_nil_r in Hd. rewrite Hd.
    eexists. split; [done|]. reflexivity. }
  subst td. cbn [val] in HD. rewrite foldl_app in HD. cbn [foldl] in HD.
  eexists _, d'. split; [exact HD|]. split; [apply lookup_insert_eq|done].
Qed.

Lemma Decode_dict_last_wins_witness :
  ∃ m d', Decode (New (list_ascii_of_string "d3:cow3:moo1:ai1e3:cow3:baae")) =
            Some (Ok (VDict m), d') ∧
          m !! "cow" = Some (VString "baa") ∧ stream d' = [].
Proof.
  apply (Decode_dict_last_wins
           [(list_ascii_of_string "cow", TStr (list_ascii_of_string "moo"));
            (list_ascii_of_string "a", TInt 1)]
           (list_ascii_of_string "cow") (TStr (list_ascii_of_string "baa"))).
  - reflexivity.
  - vm_compute. lia.
Defined.

(** A string that starts in the first [bufSize] bytes of the input and
    ends behind them is not read to its end: [Decode] returns the [k]
    bytes of it that the buffer holds, filled up to the declared length
    with zero bytes, and leaves the reader [k] bytes into the string,
    although the input contains the whole string. *)
Theorem Decode_string_beyond_buffer body tl :
  let n := length body in
  let k := (bufSize - S (length (dec (Z.of_nat n))))%nat in
  (0 < k < n)%nat →
  Z.of_nat n < 2 ^ 63 →
  ∃ d', Decode (New (enc_str body ++ tl)) =
          Some (Ok (VString (string_of_list_ascii
                               (take k body ++ replicate (n - k) zero_byte))), d') ∧
        stream d' = drop k body ++ tl.
Proof.
  intros n k Hk Hn.
  destruct (enc_str_head body) as (c & et & Hc & _).
  rewrite Decode_New by (rewrite Hc; done).
  unfold enc_str. fold n. rewrite <- app_assoc. cbn [app].
  assert (bufSize = length (dec (Z.of_nat n)) + S k)%nat as Hb by lia.
  rewrite take_app, drop_app, (take_ge (dec (Z.of_nat n))), (drop_ge (dec (Z.of_nat n)))
    by lia.
  replace (bufSize - length (dec (Z.of_nat n)))%nat with (S k) by lia.
  cbn [app take drop]. rewrite take_app, drop_app.
  replace (k - length body)%nat with O by (fold n; lia).
  rewrite take_0, drop_0, app_nil_r.
  destruct (Decode_string_cut (Z.of_nat n) (take k body) (drop k body ++ tl) None)
    as [lb' ->].
  - intros H. apply (f_equal length) in H. rewrite length_take in H.
    fold n in H. cbn [length] in H. lia.
  - rewrite length_take. fold n. lia.
  - exists (mkReader [] (drop k body ++ tl) lb'). split; [|reflexivity].
    unfold fill_buffer, make. rewrite Nat2Z.id, length_take. fold n.
    by replace (n - k `min` n)%nat with (n - k)%nat by lia.
Qed.

Lemma Decode_string_beyond_buffer_witness :
  ∃ d', Decode (New (enc_str (replicate 5000 "a"%char) ++ [End])) =
          Some (Ok (VString (string_of_list_ascii
                               (replicate 4091 "a"%char ++ replicate 909 zero_byte))), d') ∧
        stream d' = replicate 909 "a"%char ++ [End].
Proof.
  destruct (Decode_string_beyond_buffer (replicate 5000 "a"%char) [End]) as (d' & HD & Hst).
  - vm_compute. lia.
  - vm_compute. reflexivity.
  - exists d'. split.
    + rewrite HD. vm_compute. reflexivity.
    + rewrite Hst. vm_compute. reflexivity.
Defined.

End decode_roundtrip.


(** ** What a successful call consumes *)

Section decode_progress.

Lemma consumes_step d d1 d' c :
  stream d = c ++ stream d1 → consumes d1 d' → consumes d d'.
Proof.
  intros H (c' & Hne & H'). exists (c ++ c'). split.
  - intros E. apply app_eq_nil in E as [_ E]. done.
  - by rewrite H, H', app_assoc.
Qed.

Lemma consumes_trans d1 d2 d3 : consumes d1 d2 → consumes d2 d3 → consumes d1 d3.
Proof. intros (c & _ & H). by apply consumes_step with c. Qed.

Lemma ReadByte_Ok_stream b c b1 :
  ReadByte b = (Ok c, b1) → stream b = c :: stream b1.
Proof.
  intros HR. destruct (stream b) as [|x tl] eqn:Es.
  - by rewrite (ReadByte_empty b Es) in HR.
  - destruct (ReadByte_stream b x tl Es) as (b1' & HR' & Hst & _).
    rewrite HR in HR'. by simplify_eq.
Qed.

Lemma ReadByte_consumes b c b1 : ReadByte b = (Ok c, b1) → consumes b b1.
Proof. intros HR. exists [c]. split; [done|]. by apply ReadByte_Ok_stream. Qed.

Lemma peek_stream b c b1 u b2 :
  ReadByte b = (Ok c, b1) → UnreadByte b1 = (Ok u, b2) → stream b2 = stream b.
Proof.
  intros HR HU. destruct (ReadByte_UnreadByte b c b1 HR) as (b2' & HU' & Hst & _).
  rewrite HU in HU'. by simplify_eq.
Qed.

Lemma Read_stream n b got b' : Read n b = (Ok got, b') → stream b = got ++ stream b'.
Proof.
  unfold Read. destruct n as [|n]; [by intros [= <- <-]|].
  destruct (buffered b) as [|x xs] eqn:Eb.
  - destruct (rest b) as [|y ys] eqn:Er; [done|].
    destruct (bufSize <=? S n)%nat.
    + intros [= <- <-]. unfold stream. rewrite Eb, Er. cbn [buffered rest app].
      by rewrite take_drop.
    + destruct (fill b) as [b1|] eqn:Ef; [|done].
      intros [= <- <-]. rewrite <- (fill_stream _ _ Ef). unfold stream.
      cbn [buffered rest]. by rewrite app_assoc, take_drop.
  - intros [= <- <-]. unfold stream. rewrite Eb. cbn [buffered rest].
    rewrite app_assoc. f_equal. cbn [app]. by rewrite take_drop.
Qed.

Lemma ReadBytes_consumes delim b out b' :
  ReadBytes delim b = ((out, None), b') → out ≠ [] ∧ stream b = out ++ stream b'.
Proof.
  intros HR. unfold ReadBytes in HR.
  apply collectFragments_stream in HR as [H1 (body & -> & _)];
    [|done|apply not_elem_of_nil].
  split; [by destruct body|done].
Qed.

Lemma decodeInt_consumes_prefix d n d' : decodeInt d = (Ok n, d') → consumes d d'.
Proof.
  unfold decodeInt.
  destruct (ReadBytes End d) as [[intBytes [e|]] d1] eqn:E; [done|].
  apply ReadBytes_consumes in E as [Hne Hst].
  repeat case_match; intros; simplify_eq. by exists intBytes.
Qed.

Lemma decodeString_consumes_prefix asBytes d v d' :
  decodeString asBytes d = (Ok v, d') → consumes d d'.
Proof.
  unfold decodeString.
  destruct (ReadBytes ":"%char d) as [[lenBytes [e|]] d1] eqn:E; [done|].
  apply ReadBytes_consumes in E as [Hne Hst].
  destruct (Atoi _) as [len|]; [|done].
  destruct (len <? 0); [done|].
  destruct (Read (Z.to_nat len) d1) as [[got|e|msg] d2] eqn:ER; [|done..].
  apply Read_stream in ER.
  assert (consumes d d2) as Hc.
  { exists (lenBytes ++ got). split.
    - intros H. apply app_eq_nil in H as [H _]. done.
    - by rewrite Hst, ER, app_assoc. }
  destruct asBytes; intros; by simplify_eq.
Qed.

Lemma Decode_fuel_consumes_prefix fuel :
  (∀ d v d', Decode_fuel fuel d = Some (Ok v, d') → consumes d d') ∧
  (∀ l d l' d', decodeArray_fuel fuel l d = Some (Ok l', d') → consumes d d') ∧
  (∀ m d m' d', decodeDict_fuel fuel m d = Some (Ok m', d') → consumes d d').
Proof.
  induction fuel as [|fuel (IHD & IHA & IHM)]; [by split_and!|].
  split_and!.
  - intros d v d' H. cbn [Decode_fuel] in H.
    destruct (ReadByte d) as [[b|e|msg] d1] eqn:HR; [|done..].
    pose proof (ReadByte_Ok_stream _ _ _ HR) as Hst.
    destruct (IsDigit b).
    { destruct (UnreadByte d1) as [[u|e|msg] d2] eqn:HU; [|done..].
      injection H as H. apply decodeString_consumes_prefix in H.
      destruct H as (c & Hne & Hc). exists c. split; [done|].
      by rewrite <- (peek_stream _ _ _ _ _ HR HU). }
    destruct (Ascii.eqb b Int).
    { destruct (decodeInt d1) as [[n|e|msg] d2] eqn:HI; [|done..].
      injection H as <- <-. apply decodeInt_consumes_prefix in HI.
      by apply consumes_step with d1 [b]. }
    destruct (Ascii.eqb b Array).
    { destruct (decodeArray_fuel fuel [] d1) as [[[l|e|msg] d2]|] eqn:HA; [|done..].
      injection H as <- <-. apply IHA in HA. by apply consumes_step with d1 [b]. }
    destruct (Ascii.eqb b Dict); [|done].
    destruct (decodeDict_fuel fuel ∅ d1) as [[[m|e|msg] d2]|] eqn:HM; [|done..].
    injection H as <- <-. apply IHM in HM. by apply consumes_step with d1 [b].
  - intros l d l' d' H. cbn [decodeArray_fuel] in H.
    destruct (ReadByte d) as [[b|e|msg] d1] eqn:HR; [|done..].
    destruct (Ascii.eqb b End).
    { injection H as <- <-. by eapply ReadByte_consumes. }
    destruct (UnreadByte d1) as [[u|e|msg] d2] eqn:HU; [|done..].
    pose proof (peek_stream _ _ _ _ _ HR HU) as Hpeek.
    destruct (Decode_fuel fuel d2) as [[[v|e|msg] d3]|] eqn:HD; [|done..].
    apply IHD in HD. apply IHA in H.
    destruct (consumes_trans _ _ _ HD H) as (c & Hne & Hc).
    exists c. split; [done|]. by rewrite <- Hpeek.
  - intros m d m' d' H. cbn [decodeDict_fuel] in H.
    destruct (ReadByte d) as [[b|e|msg] d1] eqn:HR; [|done..].
    destruct (Ascii.eqb b End).
    { injection H as <- <-. by eapply ReadByte_consumes. }
    destruct (UnreadByte d1) as [[u|e|msg] d2] eqn:HU; [|done..].
    pose proof (peek_stream _ _ _ _ _ HR HU) as Hpeek.
    destruct (Decode_fuel fuel d2) as [[[k|e|msg] d3]|] eqn:HD; [|done..].
    destruct k; try done.
    destruct (Decode_fuel fuel d3) as [[[v|e|msg] d4]|] eqn:HV; [|done..].
    apply IHD in HD, HV. apply IHM in H.
    destruct (consumes_trans _ _ _ HD (consumes_trans _ _ _ HV H)) as (c & Hne & Hc).
    exists c. split; [done|]. by rewrite <- Hpeek.
Qed.

(** [Decode] always returns, and a value it returns has been read from a
    non-empty run of bytes at the front of the input: the reader is left
    with the rest, untouched. *)
Theorem Decode_consumes_prefix d :
  is_Some (Decode d) ∧
  ∀ v d', Decode d = Some (Ok v, d') →
          ∃ c, c ≠ [] ∧ stream d = c ++ stream d' ∧
               (remaining d' < remaining d)%nat.
Proof.
  split; [apply Decode_total|]. intros v d' H.
  destruct (proj1 (Decode_fuel_consumes_prefix _) _ _ _ H) as (c & Hne & Hc).
  exists c. split_and!; [done..|]. by apply (proj1 (Decode_fuel_consumes _)) in H.
Qed.

Lemma Decode_consumes_prefix_witness :
  ∃ c, c ≠ [] ∧
       list_ascii_of_string "li1ei2eei3e" =
         c ++ list_ascii_of_string "i3e".
Proof.
  destruct (Decode_consumes_prefix (New (list_ascii_of_string "li1ei2eei3e")))
    as [_ H].
  destruct (H (VList [VInt 1; VInt 2])
              (mkReader (list_ascii_of_string "i3e") [] (Some End)))
    as (c & Hne & Hc & _).
  - vm_compute. reflexivity.
  - exists c. split; [done|]. exact Hc.
Defined.

End decode_progress.

(** * More on the client *)

Section peers.

Implicit Types (s : State).

Lemma Uint16_value p0 p1 : Uint16 p0 p1 = 256 * Z_of_byte p0 + Z_of_byte p1.
Proof.
  unfold Uint16. pose proof (Z_of_byte_range p0). pose proof (Z_of_byte_range p1).
  rewrite Z.shiftl_mul_pow2 by lia.
  assert (Z.land (Z_of_byte p0 * 2 ^ 8) (Z_of_byte p1) = 0) as Hland.
  { apply Z.bits_inj'. intros n Hn. rewrite Z.land_spec, Z.bits_0.
    destruct (Z.lt_ge_cases n 8).
    - by rewrite Z.mul_pow2_bits_low by lia.
    - rewrite <- (Z.mod_small (Z_of_byte p1) (2 ^ 8)) by lia.
      rewrite Z.mod_pow2_bits_high by lia. apply andb_false_r. }
  rewrite <- (Z.lxor_lor _ _ Hland), <- (Z.add_nocarry_lxor _ _ Hland). lia.
Qed.

(** [parsePeers] turns each run of six bytes into one address text, in
    order.  Fewer than six bytes at the end are no reason to stop: when
    the capacity of the slice holds six bytes from there on, one to three
    bytes make the index expressions panic, and four or five bytes give
    one more entry, whose port is read from behind the length of the
    slice; when the capacity does not reach, the slice expression
    panics. *)
Theorem parsePeers_entries (es : list entry) (extra spare : list ascii) :
  (length extra < 6)%nat →
  parsePeers (flat_map entry_bytes es ++ extra) spare =
    match extra with
    | [] => Ok (map peer_text es)
    | _ =>
        match extra ++ spare with
        | a :: b :: c :: d :: p0 :: p1 :: _ =>
            if (length extra <? 4)%nat then Panic "index out of range"
            else Ok (map peer_text es ++ [peer_text (a, b, c, d, p0, p1)])
        | _ => Panic "slice bounds out of range"
        end
    end.
Proof.
  intros Hx. induction es as [|[[[[[a b] c] d] p0] p1] es IH].
  - cbn [flat_map app map].
    destruct extra as [|x1 [|x2 [|x3 [|x4 [|x5 [|x6 extra]]]]]]; try reflexivity.
    cbn [length] in Hx. lia.
  - cbn [flat_map entry_bytes app map parsePeers]. rewrite IH.
    destruct extra as [|x extra]; [reflexivity|].
    destruct ((x :: extra) ++ spare) as [|a1 [|a2 [|a3 [|a4 [|a5 [|a6 l]]]]]];
      try reflexivity.
    destruct (length (x :: extra) <? 4)%nat; reflexivity.
Qed.

Lemma parsePeers_entries_witness :
  parsePeers (map byte_of_Z [192; 168; 1; 1; 26; 225; 10; 0; 0; 7; 0; 80]) [] =
    Ok ["192.168.1.1:6881"; "10.0.0.7:80"] ∧
  parsePeers (map byte_of_Z [192; 168; 1; 1; 26; 225; 10; 0; 0; 7]) (map byte_of_Z [0; 80; 0]) =
    Ok ["192.168.1.1:6881"; "10.0.0.7:80"] ∧
  parsePeers (map byte_of_Z [192; 168; 1; 1; 26; 225; 10; 0; 0]) (map byte_of_Z [0; 0; 0]) =
    Panic "index out of range" ∧
  parsePeers (map byte_of_Z [192; 168; 1; 1; 26; 225; 10; 0; 0; 7]) [] =
    Panic "slice bounds out of range".
Proof.
  split_and!.
  - apply (parsePeers_entries
             [(byte_of_Z 192, byte_of_Z 168, byte_of_Z 1, byte_of_Z 1, byte_of_Z 26, byte_of_Z 225);
              (byte_of_Z 10, byte_of_Z 0, byte_of_Z 0, byte_of_Z 7, byte_of_Z 0, byte_of_Z 80)]
             [] []). cbn. lia.
  - apply (parsePeers_entries
             [(byte_of_Z 192, byte_of_Z 168, byte_of_Z 1, byte_of_Z 1, byte_of_Z 26, byte_of_Z 225)]
             (map byte_of_Z [10; 0; 0; 7]) (map byte_of_Z [0; 80; 0])). cbn. lia.
  - apply (parsePeers_entries
             [(byte_of_Z 192, byte_of_Z 168, byte_of_Z 1, byte_of_Z 1, byte_of_Z 26, byte_of_Z 225)]
             (map byte_of_Z [10; 0; 0]) (map byte_of_Z [0; 0; 0])). cbn. lia.
  - apply (parsePeers_entries
             [(byte_of_Z 192, byte_of_Z 168, byte_of_Z 1, byte_of_Z 1, byte_of_Z 26, byte_of_Z 225)]
             (map byte_of_Z [10; 0; 0; 7]) []). cbn. lia.
Defined.

(** [parsePeers] never returns an error.  It returns a list exactly when
    the number of bytes is a multiple of six, or four or five bytes are
    left over and the capacity of the slice reaches six bytes from where
    they start; the list then has one entry for every six bytes begun.
    In every other case it panics. *)
Theorem parsePeers_length peersBytes spare :
  let left := (length peersBytes mod 6)%nat in
  match parsePeers peersBytes spare with
  | Ok peers =>
      (left = 0 ∨ 4 ≤ left ∧ 6 ≤ left + length spare)%nat ∧
      (length peers = (length peersBytes + 5) / 6)%nat
  | Err _ => False
  | Panic _ => (left ≠ 0 ∧ (left < 4 ∨ left + length spare < 6))%nat
  end.
Proof.
  cbv zeta.
  remember (length peersBytes) as n eqn:En. revert peersBytes En.
  induction n as [n IH] using lt_wf_ind. intros peersBytes En.
  destruct peersBytes as [|a [|b [|c [|d [|p0 [|p1 tl]]]]]].
  1: { subst n. cbn. split; [by left|reflexivity]. }
  1-5: subst n; cbn [parsePeers app length];
       change (1 mod 6)%nat with 1%nat; change (2 mod 6)%nat with 2%nat;
       change (3 mod 6)%nat with 3%nat; change (4 mod 6)%nat with 4%nat;
       change (5 mod 6)%nat with 5%nat;
       destruct spare as [|y1 [|y2 [|y3 [|y4 [|y5 spare]]]]]; cbn; (lia || (split; [lia|reflexivity])).
  cbn [length] in En. cbn [parsePeers].
  specialize (IH (length tl) ltac:(lia) tl eq_refl).
  assert (n mod 6 = length tl mod 6)%nat as Em.
  { subst n. replace (S (S (S (S (S (S (length tl)))))))%nat
      with (length tl + 1 * 6)%nat by lia.
    by rewrite Nat.Div0.mod_add. }
  rewrite Em.
  destruct (parsePeers tl spare) as [peers|e|msg]; [|done|done].
  destruct IH as [Hm Hl]. split; [done|]. cbn [length]. rewrite Hl. subst n.
  replace (S (S (S (S (S (S (length tl)))))) + 5)%nat
    with ((length tl + 5) + 1 * 6)%nat by lia.
  rewrite Nat.div_add by lia. lia.
Qed.

End peers.

Section session_more.

Implicit Types (s : State).

Lemma conn_Write_unscripted msg s :
  wscript (conn (world s)) = [] →
  conn_Write msg s = (Ok tt, set_conn (conn_after (incoming (conn (world s))) [msg]
                                         (conn (world s))) s).
Proof.
  intros H. unfold conn_Write, conn_after. rewrite H. reflexivity.
Qed.

(** A frame that arrives in one piece is read by two reads: the prefix,
    then the body. *)
Lemma conn_Read_frame body tl s :
  incoming (conn (world s)) = frame body :: tl →
  Z.of_nat (length body) < 2 ^ 32 →
  bind (conn_Read 4)
       (fun lengthBuf => conn_Read (Z.to_nat (Uint32 lengthBuf))) s =
    (Ok body, set_conn (conn_after tl [] (conn (world s))) s).
Proof.
  intros Hinc Hlen. unfold bind, frame in *.
  rewrite (conn_Read_prefix _ _ _ _ Hinc).
  rewrite Uint32_be32_small, Nat2Z.id by lia.
  unfold conn_Read, conn_after, set_conn, with_incoming. cbn.
  destruct body as [|x body].
  - cbn. rewrite app_nil_r. by destruct s as [c [t sp dl [i w sn cl] f fl o]].
  - cbn [read_once length]. rewrite Nat.ltb_irrefl.
    rewrite take_ge, fill_buffer_full by (cbn [length]; lia).
    rewrite app_nil_r. reflexivity.
Qed.

(** [waitForMessage] on a frame that arrives in one piece: the frame is
    consumed whole, and the call succeeds exactly when the first byte of
    the body is the low byte of the expected id; the rest of the body is
    not looked at. *)
Theorem waitForMessage_frame messageId m0 body tl s :
  incoming (conn (world s)) = frame (m0 :: body) :: tl →
  Z.of_nat (length (m0 :: body)) < 2 ^ 32 →
  waitForMessage messageId s =
    (if bool_decide (Z_of_byte m0 = messageId mod 256) then Ok tt
     else Err (Errorf ("wanted to recieve " +:+ itoa messageId +:+
                       " message id, but got " +:+ itoa (Z_of_byte m0))),
     set_conn (conn_after tl [] (conn (world s))) s).
Proof.
  intros Hinc Hlen.
  pose proof (conn_Read_frame _ _ _ Hinc Hlen) as HF.
  unfold waitForMessage, bind, wrap in *.
  destruct (conn_Read 4 s) as [[lengthBuf|e|m] s1]; [|done..].
  destruct (conn_Read (Z.to_nat (Uint32 lengthBuf)) s1) as [[message|e|m] s2]; [|done..].
  injection HF as -> ->.
  assert (bool_decide (m0 = byte_of_Z messageId) =
          bool_decide (Z_of_byte m0 = messageId mod 256)) as ->.
  { apply bool_decide_ext. split.
    - intros ->. apply Z_of_byte_of_Z.
    - intros H. unfold byte_of_Z. rewrite <- H. unfold Z_of_byte.
      rewrite N2Z.id. symmetry. apply ascii_N_embedding. }
  by destruct (bool_decide _).
Qed.

Lemma waitForMessage_frame_witness :
  let s := a_state 8 4 [frame (map byte_of_Z [5; 255; 0]); frame [byte_of_Z 1]] [] in
  fst (waitForMessage (Bitfield + 256) s) = Ok tt ∧
  incoming (conn (world (snd (waitForMessage (Bitfield + 256) s)))) = [frame [byte_of_Z 1]].
Proof.
  cbv zeta.
  rewrite (waitForMessage_frame (Bitfield + 256) (byte_of_Z 5) (map byte_of_Z [255; 0])
             [frame [byte_of_Z 1]]); [|reflexivity|vm_compute; reflexivity].
  split; reflexivity.
Defined.

(** [Handshake] takes whatever the first read delivers for the reply: no
    byte of it is compared with anything, fewer than 68 bytes are
    accepted as they come, and of a longer delivery the bytes behind the
    68th stay on the connection. *)
Theorem Handshake_any_reply s peerAddr others chunk tl :
  Peers (client s) = peerAddr :: others →
  dial_ok (world s) = true →
  wscript (conn (world s)) = [] →
  incoming (conn (world s)) = Data chunk :: tl →
  fst (Handshake s) = Ok tt ∧
  conn (world (snd (Handshake s))) =
    conn_after (if (68 <? length chunk)%nat then Data (drop 68 chunk) :: tl else tl)
      [handshake_msg (client s)] (conn (world s)) ∧
  stdout (world (snd (Handshake s))) =
    stdout (world s) ++
      ["Connected to peer: " +:+ peerAddr +:+ ", Peer ID: "
         +:+ hex (drop 48 (take 68 chunk ++ make (68 - length (take 68 chunk))))
         +:+ newline].
Proof.
  intros HP Hd Hw Hinc. unfold Handshake. rewrite HP, Hd.
  unfold bind, wrap. rewrite conn_Write_unscripted by done.
  unfold conn_Read. cbn. rewrite Hinc. cbn.
  split_and!; reflexivity.
Qed.

Lemma Handshake_any_reply_witness :
  let s := snd (ConnectTracker (a_state 8 4 [Data (list_ascii_of_string "no")] [])) in
  fst (Handshake s) = Ok tt ∧
  incoming (conn (world (snd (Handshake s)))) = [].
Proof.
  cbv zeta.
  destruct (Handshake_any_reply
              (snd (ConnectTracker (a_state 8 4 [Data (list_ascii_of_string "no")] [])))
              "192.168.1.1:6881" [] (list_ascii_of_string "no") [])
    as (H1 & H2 & _); [reflexivity..|].
  split; [exact H1|]. rewrite H2. reflexivity.
Defined.

(** With no peer address at hand ([Peers] is empty, as after a tracker
    reply with an empty peers field), [Handshake] panics on [Peers[0]]
    before it dials. *)
Theorem Download_no_peers outputFileName s :
  tracker (world s) = PeersField [] →
  fst (Download outputFileName s) = Panic "index out of range [0] with length 0" ∧
  world (snd (Download outputFileName s)) = world s ∧
  Peers (client (snd (Download outputFileName s))) = [].
Proof.
  intros H. unfold Download, bind, wrap, ConnectTracker, Handshake. rewrite H.
  cbn. split_and!; reflexivity.
Qed.

Lemma Download_no_peers_witness :
  let s := {| client := a_client 8 4;
              world := {| tracker := PeersField []; spare := []; dial_ok := true;
                          conn := mkConn [handshake_reply] [] [] false;
                          write_result := Written; files := []; stdout := [] |} |} in
  fst (Download "out" s) = Panic "index out of range [0] with length 0" ∧
  sent (conn (world (snd (Download "out" s)))) = [].
Proof.
  cbv zeta.
  destruct (Download_no_peers "out"
              {| client := a_client 8 4;
                 world := {| tracker := PeersField []; spare := []; dial_ok := true;
                             conn := mkConn [handshake_reply] [] [] false;
                             write_result := Written; files := []; stdout := [] |} |} eq_refl)
    as (H1 & H2 & _).
  split; [exact H1|]. rewrite H2. reflexivity.
Defined.

End session_more.

Section blocks_more.

Implicit Types (s : State).

Lemma set_conn_set_conn c1 c2 s : set_conn c2 (set_conn c1 s) = set_conn c2 s.
Proof. reflexivity. Qed.

Lemma conn_set_conn c s : conn (world (set_conn c s)) = c.
Proof. reflexivity. Qed.

Lemma ReadAtLeast_exact body tl :
  ReadAtLeast (match body with [] => tl | _ => Data body :: tl end) (length body) [] =
    (Ok body, tl).
Proof.
  destruct body as [|x body]; [by destruct tl|].
  cbn [ReadAtLeast length]. rewrite Nat.ltb_irrefl, Nat.sub_diag. by destruct tl.
Qed.

(** One turn of the loop of [requestPiece] against a reply that arrives
    in one piece: the state behind it. *)
Lemma requestPiece_block_frame pieceIndex pieceSize blockSize blockCount i body tl s :
  wscript (conn (world s)) = [] →
  incoming (conn (world s)) = frame body :: tl →
  Z.of_nat (length body) < 2 ^ 32 →
  requestPiece_block pieceIndex pieceSize blockSize blockCount i s =
    (if (length body <? 9)%nat then Panic "slice bounds out of range [9:]"
     else Ok (drop 9 body),
     set_conn (conn_after tl
                 [request_msg pieceIndex (i * blockSize)
                    (blockLength pieceSize blockSize blockCount i)]
                 (conn (world s))) s).
Proof.
  intros Hw Hinc Hlen. unfold requestPiece_block, bind, wrap.
  rewrite conn_Write_unscripted by done.
  erewrite conn_Read_prefix; [|rewrite conn_set_conn; cbn [conn_after incoming]; exact Hinc].
  rewrite Uint32_be32_small, Nat2Z.id by lia.
  unfold io_ReadFull. rewrite !conn_set_conn. cbn [with_incoming incoming conn_after].
  rewrite ReadAtLeast_exact. rewrite !set_conn_set_conn.
  unfold conn_after, with_incoming. cbn [incoming wscript sent closed].
  by destruct (length body <? 9)%nat.
Qed.

(** A reply whose body is shorter than nine bytes (a keep-alive, a choke,
    any short message) makes [requestPiece] panic on the slice
    [result[9:]]; it is no error the caller could handle. *)
Theorem requestPiece_short_reply pieceIndex pieceSize blockSize blockCount body tl s :
  0 < blockCount →
  wscript (conn (world s)) = [] →
  incoming (conn (world s)) = frame body :: tl →
  (length body < 9)%nat →
  fst (requestPiece pieceIndex pieceSize blockSize blockCount s) =
    Panic "slice bounds out of range [9:]" ∧
  fst (wrap "failed to download a piece"
         (requestPiece pieceIndex pieceSize blockSize blockCount) s) =
    Panic "slice bounds out of range [9:]".
Proof.
  intros Hbc Hw Hinc Hlen.
  assert (fst (requestPiece pieceIndex pieceSize blockSize blockCount s) =
          Panic "slice bounds out of range [9:]") as H.
  { unfold requestPiece. destruct (Z.to_nat blockCount) as [|n] eqn:En; [lia|].
    cbn [requestPiece_loop]. unfold bind.
    rewrite (requestPiece_block_frame _ _ _ _ _ body tl) by (done || lia).
    by replace (length body <? 9)%nat with true by (symmetry; by apply Nat.ltb_lt). }
  split; [done|]. unfold wrap.
  destruct (requestPiece pieceIndex pieceSize blockSize blockCount s) as [[?|?|?] ?];
    cbn [fst] in H |- *; congruence.
Qed.

Lemma requestPiece_short_reply_witness :
  fst (requestPiece 0 4 16384 1 (a_state 8 4 [frame [byte_of_Z 0]] [])) =
    Panic "slice bounds out of range [9:]".
Proof.
  apply (requestPiece_short_reply 0 4 16384 1 [byte_of_Z 0] []
           (a_state 8 4 [frame [byte_of_Z 0]] [])); [lia|reflexivity|reflexivity|cbn; lia].
Defined.

(** The loop of [requestPiece] against replies that arrive one frame per
    request. *)
Lemma requestPiece_loop_frames bodies pieceIndex pieceSize blockSize blockCount tl data i s :
  wscript (conn (world s)) = [] →
  incoming (conn (world s)) = map frame bodies ++ tl →
  Forall (fun body => (9 ≤ length body)%nat ∧ Z.of_nat (length body) < 2 ^ 32) bodies →
  requestPiece_loop (length bodies) pieceIndex pieceSize blockSize blockCount i data s =
    (Ok (data ++ concat (map (drop 9) bodies)),
     set_conn (conn_after tl
                 (requests_from (length bodies) pieceIndex pieceSize blockSize
                    blockCount i)
                 (conn (world s))) s).
Proof.
  revert data i s.
  induction bodies as [|body bodies IH]; intros data i s Hw Hinc Hall.
  - cbn [length requestPiece_loop map concat requests_from]. unfold ret.
    rewrite app_nil_r. f_equal. cbn [map app] in Hinc. unfold conn_after.
    rewrite app_nil_r, <- Hinc.
    by destruct s as [c [t sp dl [inc w sn cl] f fl o]].
  - apply Forall_cons in Hall as [[H9 H32] Hall].
    cbn [length requestPiece_loop map concat requests_from]. unfold bind.
    rewrite (requestPiece_block_frame _ _ _ _ _ body (map frame bodies ++ tl))
      by done.
    replace (length body <? 9)%nat with false by (symmetry; by apply Nat.ltb_ge).
    rewrite IH by done.
    rewrite set_conn_set_conn, conn_set_conn. unfold conn_after.
    cbn [incoming wscript sent closed]. by rewrite <- !app_assoc.
Qed.

(** Against replies that arrive one frame per request, [requestPiece]
    returns the payloads of the replies, each body without its first nine
    bytes, joined in the order of arrival.  The lengths of the payloads
    are not compared with the lengths asked for. *)
Theorem requestPiece_payloads bodies pieceIndex pieceSize blockSize blockCount tl s :
  Z.to_nat blockCount = length bodies →
  wscript (conn (world s)) = [] →
  incoming (conn (world s)) = map frame bodies ++ tl →
  Forall (fun body => (9 ≤ length body)%nat ∧ Z.of_nat (length body) < 2 ^ 32) bodies →
  requestPiece pieceIndex pieceSize blockSize blockCount s =
    (Ok (concat (map (drop 9) bodies)),
     set_conn (conn_after tl
                 (requests_from (length bodies) pieceIndex pieceSize blockSize
                    blockCount 0)
                 (conn (world s))) s).
Proof.
  intros Hbc Hw Hinc Hall. unfold requestPiece. rewrite Hbc.
  by rewrite (requestPiece_loop_frames bodies _ _ _ _ tl).
Qed.

Lemma requestPiece_payloads_witness :
  fst (requestPiece 3 20000 16384 2
         (a_state 8 4 [piece_frame 3 0 2 "a"%char; piece_frame 9 9 5 "b"%char] [])) =
    Ok (replicate 2 "a"%char ++ replicate 5 "b"%char).
Proof.
  assert (Forall (fun body => (9 ≤ length body)%nat ∧ Z.of_nat (length body) < 2 ^ 32)
            [[byte_of_Z 7] ++ be32 3 ++ be32 0 ++ replicate 2 "a"%char;
             [byte_of_Z 7] ++ be32 9 ++ be32 9 ++ replicate 5 "b"%char]) as Hall
    by (repeat constructor; cbn; lia).
  exact (f_equal fst
           (requestPiece_payloads
              [[byte_of_Z 7] ++ be32 3 ++ be32 0 ++ replicate 2 "a"%char;
               [byte_of_Z 7] ++ be32 9 ++ be32 9 ++ replicate 5 "b"%char]
              3 20000 16384 2 []
              (a_state 8 4 [piece_frame 3 0 2 "a"%char; piece_frame 9 9 5 "b"%char] [])
              eq_refl eq_refl eq_refl Hall)).
Defined.

End blocks_more.

(** * Sizes: the blocks of a piece and the pieces of a file *)

Section sizing_more.

Lemma Zsum_app l1 l2 : Zsum (l1 ++ l2) = Zsum l1 + Zsum l2.
Proof. unfold Zsum. induction l1 as [|x l1 IH]; cbn; lia. Qed.

Lemma Zsum_map_const (f : Z → Z) c i n :
  (∀ j, i ≤ j < i + Z.of_nat n → f j = c) →
  Zsum (map f (seqZ i (Z.of_nat n))) = Z.of_nat n * c.
Proof.
  revert i. induction n as [|n IH]; intros i H; [done|].
  rewrite seqZ_cons by lia. cbn [map Zsum foldr].
  replace (Z.pred (Z.of_nat (S n))) with (Z.of_nat n) by lia.
  fold (Zsum (map f (seqZ (Z.succ i) (Z.of_nat n)))).
  rewrite IH by (intros; apply H; lia). rewrite H by lia. lia.
Qed.

Lemma seqZ_snoc n : 0 < n → seqZ 0 n = seqZ 0 (n - 1) ++ [n - 1].
Proof.
  intros Hn.
  replace n with (Z.of_nat (S (Z.to_nat (n - 1)))) at 1 by lia.
  rewrite seqZ_S. do 2 f_equal; lia.
Qed.

(** The blocks [requestPiece] asks for tile the piece: for a piece of
    positive size, cut as [Download] does, every block has between 1 and
    [blockSize] bytes, block [j] starts where block [j - 1] ended, the
    last one ends at the end of the piece, and the lengths add up to the
    piece size.  (Sizes below [2 ^ 53], where the float computation of the
    block count is exact.) *)
Theorem blocks_tile_piece pieceSize blockSize :
  0 < blockSize < 2 ^ 53 → 0 < pieceSize < 2 ^ 53 →
  let blockCount := ceilDiv pieceSize blockSize in
  let len := blockLength pieceSize blockSize blockCount in
  Zsum (map len (seqZ 0 blockCount)) = pieceSize ∧
  ∀ j, 0 ≤ j < blockCount →
       0 < len j ≤ blockSize ∧
       j * blockSize = Zsum (map len (seqZ 0 j)) ∧
       j * blockSize + len j ≤ pieceSize.
Proof.
  intros [Hb _] [Hp _]. cbv zeta.
  pose proof (ceilDiv_bounds pieceSize blockSize Hb) as Hc.
  pose proof (ceilDiv_pos pieceSize blockSize Hb Hp) as H1.
  set (bc := ceilDiv pieceSize blockSize) in *.
  assert (∀ j, 0 ≤ j < bc →
               Zsum (map (blockLength pieceSize blockSize bc) (seqZ 0 j)) = j * blockSize)
    as Hfull.
  { intros j Hj. replace j with (Z.of_nat (Z.to_nat j)) at 1 by lia.
    rewrite (Zsum_map_const _ blockSize); [lia|].
    intros k Hk. unfold blockLength.
    replace (k =? bc - 1) with false by (symmetry; apply Z.eqb_neq; lia). done. }
  split.
  - rewrite seqZ_snoc, map_app, Zsum_app by lia. rewrite Hfull by lia.
    cbn [map Zsum foldr]. unfold blockLength. rewrite Z.eqb_refl. lia.
  - intros j Hj. rewrite Hfull by done. unfold blockLength.
    destruct (Z.eqb_spec j (bc - 1)) as [->|Hne]; nia.
Qed.

Lemma blocks_tile_piece_witness :
  Zsum (map (blockLength 40000 16384 3) (seqZ 0 3)) = 40000.
Proof.
  exact (proj1 (blocks_tile_piece 40000 16384 ltac:(lia) ltac:(lia))).
Defined.

End sizing_more.

(** * Whole runs of [Download] *)

Section download_more.

Implicit Types (s : State).

Lemma wrap_Ok {A} msg (m : M A) s a s' : wrap msg m s = (Ok a, s') → m s = (Ok a, s').
Proof. unfold wrap. by destruct (m s) as [[?|?|?] ?]. Qed.

Lemma discard_state {A} (m : M A) s : snd (discard m s) = snd (m s).
Proof. unfold discard. by destruct (m s) as [[?|?|?] ?]. Qed.

Lemma ConnectTracker_world s : world (snd (ConnectTracker s)) = world s.
Proof.
  unfold ConnectTracker. destruct (tracker (world s)); [done..|].
  by destruct (parsePeers peers).
Qed.

Lemma ConnectTracker_client s :
  File (client (snd (ConnectTracker s))) = File (client s) ∧
  handshake_msg (client (snd (ConnectTracker s))) = handshake_msg (client s).
Proof.
  unfold ConnectTracker. destruct (tracker (world s)); [done..|].
  by destruct (parsePeers peers).
Qed.

Lemma Handshake_closed s :
  closed (conn (world (snd (Handshake s)))) = closed (conn (world s)).
Proof.
  unfold Handshake. destruct (Peers (client s)); [done|].
  destruct (dial_ok (world s)); [|done].
  unfold bind, wrap, conn_Write, conn_Read, Printf.
  destruct (wscript (conn (world s))) as [|[] ?]; cbn;
    destruct (incoming (conn (world s))) as [|[|?] ?]; reflexivity.
Qed.

Lemma defer_Close_closed {A} (m : M A) s :
  closed (conn (world (snd (defer conn_Close m s)))) = true.
Proof. unfold defer. by destruct (m s). Qed.

(** [Download] closes the connection exactly when the handshake went
    through: from there on [conn.Close] runs on every way out, a panic of
    [waitForMessage] or [requestPiece] included.  When [Handshake] fails
    after [net.Dial] succeeded (the write or the read of the handshake
    fails), the connection dialed is left open. *)
Theorem Download_closes_connection outputFileName s :
  closed (conn (world (snd (Download outputFileName s)))) =
    if is_Ok (fst (ConnectTracker s)) && is_Ok (fst (Handshake (snd (ConnectTracker s))))
    then true
    else closed (conn (world s)).
Proof.
  unfold Download, bind, wrap.
  pose proof (ConnectTracker_world s) as Hw.
  destruct (ConnectTracker s) as [[[]|e|m] sa]; cbn [fst snd is_Ok andb] in *;
    [|by rewrite Hw..].
  pose proof (Handshake_closed sa) as Hc.
  destruct (Handshake sa) as [[[]|e|m] sb]; cbn [fst snd is_Ok andb] in *;
    [|by rewrite Hc, Hw..].
  apply defer_Close_closed.
Qed.

Lemma Handshake_Ok_sent s s' :
  wscript (conn (world s)) = [] →
  Handshake s = (Ok tt, s') →
  sent (conn (world s')) = sent (conn (world s)) ++ [handshake_msg (client s)] ∧
  wscript (conn (world s')) = [] ∧
  client s' = client s.
Proof.
  intros Hw. unfold Handshake. destruct (Peers (client s)); [done|].
  destruct (dial_ok (world s)); [|done].
  unfold bind, wrap. rewrite conn_Write_unscripted by done.
  unfold conn_Read, Printf. cbn.
  destruct (incoming (conn (world s))) as [|[|?] ?]; cbn; [done..|].
  intros [= <-]. cbn. by rewrite Hw.
Qed.

Lemma waitForMessage_reads messageId s :
  ∃ inc, snd (waitForMessage messageId s) = set_conn (with_incoming inc (conn (world s))) s.
Proof.
  unfold waitForMessage, bind, wrap, conn_Read.
  destruct (read_once 4 _) as [[b|e|m] inc1]; cbn [fst snd]; [|by eexists..].
  cbn [conn world set_conn with_incoming incoming].
  destruct (read_once _ inc1) as [[b2|e|m] inc2]; cbn [fst snd]; [|by eexists..].
  destruct (fill_buffer _ b2) as [|m0 ?]; [by eexists|].
  destruct (bool_decide _); by eexists.
Qed.

Lemma discard_interested s :
  wscript (conn (world s)) = [] →
  discard interested s =
    (Ok tt, set_conn (conn_after (incoming (conn (world s))) [interested_msg]
                        (conn (world s))) s).
Proof.
  intros Hw. unfold discard, interested, wrap. by rewrite conn_Write_unscripted.
Qed.

(** What a run of [Download] that returns success has written to the
    peer, when no write fails: the handshake, the Interested message, then
    the block requests of the loop, and nothing else.  (Lengths below
    [2 ^ 53], where the float computation of the counts is exact.) *)
Theorem Download_wire_trace outputFileName s :
  0 ≤ Length (Info (File (client s))) < 2 ^ 53 →
  0 < PieceLength (Info (File (client s))) < 2 ^ 53 →
  wscript (conn (world s)) = [] →
  fst (Download outputFileName s) = Ok tt →
  let info := Info (File (client s)) in
  sent (conn (world (snd (Download outputFileName s)))) =
    sent (conn (world s)) ++ [handshake_msg (client s); interested_msg] ++
      schedule_requests (16 * 1024) (schedule (Length info) (PieceLength info)).
Proof.
  intros _ _ Hw. cbv zeta. unfold Download, bind.
  pose proof (ConnectTracker_world s) as Wa.
  pose proof (ConnectTracker_client s) as [Fa Ma].
  destruct (wrap "failed to connect to a tracker" ConnectTracker s) as [[[]|e|m] sa] eqn:Ea;
    [|done..].
  apply wrap_Ok in Ea. rewrite Ea in Wa, Fa, Ma. cbn [snd] in Wa, Fa, Ma.
  destruct (wrap "failed to do a handshake" Handshake sa) as [[[]|e|m] sb] eqn:Eb;
    [|done..].
  apply wrap_Ok in Eb. apply Handshake_Ok_sent in Eb as (Sb & Wb & Cb);
    [|by rewrite Wa].
  unfold defer.
  pose proof (discard_state (waitForMessage Bitfield) sb) as Sc.
  destruct (waitForMessage_reads Bitfield sb) as [inc1 R1]. rewrite R1 in Sc.
  destruct (discard (waitForMessage Bitfield) sb) as [[[]|e|m] sc]; [|done..].
  cbn [snd] in Sc. subst sc.
  rewrite discard_interested by (cbn; done).
  set (sd := set_conn _ (set_conn _ sb)).
  pose proof (discard_state (waitForMessage Unchoke) sd) as Se.
  destruct (waitForMessage_reads Unchoke sd) as [inc2 R2]. rewrite R2 in Se.
  destruct (discard (waitForMessage Unchoke) sd) as [[[]|e|m] se]; [|done..].
  cbn [snd] in Se. subst se.
  set (se := set_conn _ sd).
  assert (File (client se) = File (client s)) as -> by (cbn; by rewrite Cb).
  pose proof (requestPieces_sent
                (schedule (Length (Info (File (client s))))
                          (PieceLength (Info (File (client s)))))
                (16 * 1024) [] se) as Hreq.
  rewrite <- Download_pieces_schedule in Hreq.
  destruct (Download_pieces (Info (File (client s))) se) as [[data|e|m] sp]; [|done..].
  cbn [fst snd is_Ok] in Hreq. specialize (Hreq eq_refl).
  unfold wrap, os_WriteFile, conn_Close.
  destruct (write_result (world sp)); [|done..]. intros _. cbn.
  rewrite Hreq. cbn. rewrite Sb, Wa, Ma, <- !app_assoc. reflexivity.
Qed.

Lemma Download_wire_trace_witness :
  let s := a_state 6 4
             [handshake_reply; frame [byte_of_Z Bitfield]; frame [byte_of_Z Unchoke];
              piece_frame 0 0 4 "a"%char; piece_frame 1 0 2 "b"%char]
             [] in
  sent (conn (world (snd (Download "out" s)))) =
    [handshake_msg (client s); interested_msg;
     request_msg 0 0 4; request_msg 1 0 2].
Proof.
  cbv zeta.
  rewrite (Download_wire_trace "out"
             (a_state 6 4
                [handshake_reply; frame [byte_of_Z Bitfield]; frame [byte_of_Z Unchoke];
                 piece_frame 0 0 4 "a"%char; piece_frame 1 0 2 "b"%char] []));
    [reflexivity|by vm_compute|by vm_compute|reflexivity|vm_compute; reflexivity].
Defined.

Lemma length_requests_from n pieceIndex pieceSize blockSize blockCount i :
  length (requests_from n pieceIndex pieceSize blockSize blockCount i) = n.
Proof. revert i. induction n as [|n IH]; intros i; cbn; [done|]. by rewrite IH. Qed.

(** The loop over the pieces against replies that arrive one frame per
    request. *)
Lemma requestPieces_frames sched blockSize bodies data tl s :
  wscript (conn (world s)) = [] →
  incoming (conn (world s)) = map frame bodies ++ tl →
  Forall (fun body => (9 ≤ length body)%nat ∧ Z.of_nat (length body) < 2 ^ 32) bodies →
  length bodies = length (schedule_requests blockSize sched) →
  requestPieces sched blockSize data s =
    (Ok (data ++ concat (map (drop 9) bodies)),
     set_conn (conn_after tl (schedule_requests blockSize sched) (conn (world s))) s).
Proof.
  revert bodies data s.
  induction sched as [|[[i ps] bc] sched IH]; intros bodies data s Hw Hinc Hall Hlen.
  - destruct bodies; [|done]. cbn [requestPieces schedule_requests flat_map map concat].
    unfold ret. rewrite app_nil_r. f_equal. unfold conn_after.
    rewrite app_nil_r. cbn [map app] in Hinc. rewrite <- Hinc.
    by destruct s as [c [t sp dl [inc w sn cl] f fl o]].
  - cbn [requestPieces schedule_requests flat_map] in *.
    fold (schedule_requests blockSize sched) in *.
    rewrite length_app, length_requests_from in Hlen.
    set (n := Z.to_nat bc) in *.
    assert (length (take n bodies) = n) as L1 by (rewrite length_take; lia).
    assert (length (drop n bodies) = length (schedule_requests blockSize sched)) as L2
      by (rewrite length_drop; lia).
    rewrite <- (take_drop n bodies) in Hall. apply Forall_app in Hall as [A1 A2].
    rewrite <- (take_drop n bodies), map_app, <- app_assoc in Hinc.
    unfold bind, wrap, requestPiece. fold n. rewrite <- L1 at 1.
    rewrite (requestPiece_loop_frames (take n bodies) _ _ _ _
               (map frame (drop n bodies) ++ tl)) by done.
    rewrite (IH (drop n bodies)) by done.
    rewrite set_conn_set_conn, conn_set_conn, L1. unfold conn_after.
    cbn [incoming wscript sent closed].
    rewrite <- !app_assoc, <- concat_app, <- map_app, take_drop. done.
Qed.

Lemma Handshake_run s peerAddr others chunk tl :
  Peers (client s) = peerAddr :: others →
  dial_ok (world s) = true →
  wscript (conn (world s)) = [] →
  incoming (conn (world s)) = Data chunk :: tl →
  (length chunk ≤ 68)%nat →
  ∃ out,
    Handshake s =
      (Ok tt, set_stdout out
                (set_conn (conn_after tl [handshake_msg (client s)] (conn (world s))) s)).
Proof.
  intros HP Hd Hw Hinc Hlen. unfold Handshake. rewrite HP, Hd.
  unfold bind, wrap. rewrite conn_Write_unscripted by done.
  unfold conn_Read. rewrite conn_set_conn. cbn [conn_after incoming].
  rewrite Hinc. cbn [read_once].
  replace (68 <? length chunk)%nat with false by (symmetry; apply Nat.ltb_ge; lia).
  unfold Printf. eexists. reflexivity.
Qed.

Lemma discard_waitForMessage_frame messageId body tl s :
  incoming (conn (world s)) = frame body :: tl →
  body ≠ [] →
  Z.of_nat (length body) < 2 ^ 32 →
  discard (waitForMessage messageId) s =
    (Ok tt, set_conn (conn_after tl [] (conn (world s))) s).
Proof.
  intros Hinc Hne Hlen.
  pose proof (conn_Read_frame _ _ _ Hinc Hlen) as HF.
  unfold discard, waitForMessage, bind, wrap in *.
  destruct (conn_Read 4 s) as [[lengthBuf|e|m] s1]; [|done..].
  destruct (conn_Read (Z.to_nat (Uint32 lengthBuf)) s1) as [[message|e|m] s2]; [|done..].
  injection HF as -> ->. destruct body as [|m0 body]; [done|].
  by destruct (bool_decide _).
Qed.

(** A whole download from a peer that plays along: the tracker names a
    peer, the peer answers the handshake in one delivery of at most 68
    bytes, sends two messages of any kind, then one frame of at least
    nine bytes for every block request.  [Download] then returns success,
    the file written holds the payloads of these frames in the order of
    arrival, nothing is left unread and the connection is closed.  No byte
    of the handshake reply, no message id, no piece index, offset or
    length in a reply and no hash of a piece is checked on the way.
    (Lengths below [2 ^ 53], as above.) *)
Theorem Download_cooperative_peer outputFileName s peers peerAddr others reply
    bitfield unchoke bodies :
  let info := Info (File (client s)) in
  let requests := schedule_requests (16 * 1024) (schedule (Length info) (PieceLength info)) in
  0 ≤ Length info < 2 ^ 53 →
  0 < PieceLength info < 2 ^ 53 →
  tracker (world s) = PeersField peers →
  parsePeers peers (spare (world s)) = Ok (peerAddr :: others) →
  dial_ok (world s) = true →
  write_result (world s) = Written →
  wscript (conn (world s)) = [] →
  incoming (conn (world s)) =
    Data reply :: frame bitfield :: frame unchoke :: map frame bodies →
  (length reply ≤ 68)%nat →
  bitfield ≠ [] ∧ Z.of_nat (length bitfield) < 2 ^ 32 →
  unchoke ≠ [] ∧ Z.of_nat (length unchoke) < 2 ^ 32 →
  Forall (fun body => (9 ≤ length body)%nat ∧ Z.of_nat (length body) < 2 ^ 32) bodies →
  length bodies = length requests →
  let r := Download outputFileName s in
  fst r = Ok tt ∧
  files (world (snd r)) =
    files (world s) ++ [(outputFileName, concat (map (drop 9) bodies))] ∧
  sent (conn (world (snd r))) =
    sent (conn (world s)) ++ [handshake_msg (client s); interested_msg] ++ requests ∧
  incoming (conn (world (snd r))) = [] ∧
  closed (conn (world (snd r))) = true.
Proof.
  cbv zeta. intros _ _ Htr Hpp Hd Hfs Hw Hinc Hreply [Hb1 Hb2] [Hu1 Hu2] Hall Hlen.
  destruct (Download outputFileName s) as [r s'] eqn:E.
  unfold Download, bind, defer in E.
  assert (wrap "failed to connect to a tracker" ConnectTracker s =
          (Ok tt, set_Peers (peerAddr :: others) s)) as Ea
    by (unfold wrap, ConnectTracker; by rewrite Htr, Hpp).
  rewrite Ea in E.
  set (sa := set_Peers (peerAddr :: others) s) in *.
  destruct (Handshake_run sa peerAddr others reply
              (frame bitfield :: frame unchoke :: map frame bodies))
    as [out Hh]; [done..|].
  unfold wrap at 1 in E. rewrite Hh in E.
  rewrite (discard_waitForMessage_frame Bitfield bitfield
             (frame unchoke :: map frame bodies)) in E by done.
  rewrite discard_interested in E by done.
  rewrite (discard_waitForMessage_frame Unchoke unchoke (map frame bodies)) in E by done.
  rewrite Download_pieces_schedule in E.
  rewrite (requestPieces_frames _ _ bodies [] []) in E
    by (done || by rewrite app_nil_r).
  unfold wrap, os_WriteFile in E.
  cbn [write_result world set_conn set_stdout set_Peers sa] in E.
  rewrite Hfs in E. injection E as <- <-. cbn. rewrite <- !app_assoc. done.
Qed.

Lemma Download_cooperative_peer_witness :
  let s := a_state 6 4
             [handshake_reply; frame [byte_of_Z 0]; frame [byte_of_Z 9];
              piece_frame 7 7 3 "a"%char; piece_frame 0 0 1 "b"%char]
             [] in
  fst (Download "out" s) = Ok tt ∧
  files (world (snd (Download "out" s))) = [("out", list_ascii_of_string "aaab")].
Proof.
  cbv zeta.
  assert (Forall (fun body => (9 ≤ length body)%nat ∧ Z.of_nat (length body) < 2 ^ 32)
            [[byte_of_Z 7] ++ be32 7 ++ be32 7 ++ replicate 3 "a"%char;
             [byte_of_Z 7] ++ be32 0 ++ be32 0 ++ replicate 1 "b"%char]) as Hall
    by (repeat constructor; cbn; lia).
  destruct (Download_cooperative_peer "out"
              (a_state 6 4
                 [handshake_reply; frame [byte_of_Z 0]; frame [byte_of_Z 9];
                  piece_frame 7 7 3 "a"%char; piece_frame 0 0 1 "b"%char] [])
              (map byte_of_Z [192; 168; 1; 1; 26; 225]) "192.168.1.1:6881" []
              (replicate 48 "x"%char ++ replicate 20 "R"%char)
              [byte_of_Z 0] [byte_of_Z 9]
              [[byte_of_Z 7] ++ be32 7 ++ be32 7 ++ replicate 3 "a"%char;
               [byte_of_Z 7] ++ be32 0 ++ be32 0 ++ replicate 1 "b"%char]
              ltac:(by vm_compute) ltac:(by vm_compute)
              eq_refl eq_refl eq_refl eq_refl eq_refl eq_refl
              ltac:(cbn; lia) ltac:(split; [done|cbn; lia]) ltac:(split; [done|cbn; lia])
              Hall eq_refl)
    as (H1 & H2 & _).
  split; [exact H1|exact H2].
Defined.

End download_more.

(** * Messages that arrive in several deliveries *)

Section session_split.

Implicit Types (s : State).

Lemma byte_is_id m0 messageId :
  bool_decide (m0 = byte_of_Z messageId) = bool_decide (Z_of_byte m0 = messageId mod 256).
Proof.
  apply bool_decide_ext. split.
  - intros ->. apply Z_of_byte_of_Z.
  - intros H. unfold byte_of_Z. rewrite <- H. unfold Z_of_byte.
    rewrite N2Z.id. symmetry. apply ascii_N_embedding.
Qed.

(** [waitForMessage] reads the body with one [conn.Read].  When the body
    of a message comes in two deliveries, the call returns after the
    first one, judging by its first byte; the bytes of the second
    delivery stay on the connection, where the next read takes them for
    the start of a new message. *)
Theorem waitForMessage_split_body messageId m0 c1 c2 tl s :
  incoming (conn (world s)) =
    Data (be32 (Z.of_nat (length (m0 :: c1 ++ c2)))) :: Data (m0 :: c1) :: Data c2 :: tl →
  c2 ≠ [] →
  Z.of_nat (length (m0 :: c1 ++ c2)) < 2 ^ 32 →
  waitForMessage messageId s =
    (if bool_decide (Z_of_byte m0 = messageId mod 256) then Ok tt
     else Err (Errorf ("wanted to recieve " +:+ itoa messageId +:+
                       " message id, but got " +:+ itoa (Z_of_byte m0))),
     set_conn (conn_after (Data c2 :: tl) [] (conn (world s))) s).
Proof.
  intros Hinc Hc2 Hlen. unfold waitForMessage, bind, wrap.
  rewrite (conn_Read_prefix (Z.of_nat (length (m0 :: c1 ++ c2))) [] (Data (m0 :: c1) :: Data c2 :: tl))
    by (by rewrite app_nil_r).
  rewrite Uint32_be32_small, Nat2Z.id by lia.
  unfold conn_Read. rewrite conn_set_conn. cbn [with_incoming incoming].
  assert (length c2 ≠ 0)%nat as Hn by (by destruct c2).
  cbn [length read_once].
  replace (S (length (c1 ++ c2)) <? S (length c1))%nat with false
    by (symmetry; apply Nat.ltb_ge; rewrite length_app; lia).
  rewrite take_ge by (cbn [length]; rewrite length_app; lia).
  unfold fill_buffer. cbn [app]. rewrite byte_is_id.
  rewrite set_conn_set_conn. unfold conn_after, with_incoming.
  cbn [incoming wscript sent closed]. rewrite app_nil_r.
  by destruct (bool_decide _).
Qed.

Lemma waitForMessage_split_body_witness :
  let s := a_state 8 4
             [Data (be32 3); Data [byte_of_Z 5; byte_of_Z 255]; Data [byte_of_Z 0];
              frame [byte_of_Z 1]] [] in
  fst (waitForMessage Bitfield s) = Ok tt ∧
  incoming (conn (world (snd (waitForMessage Bitfield s)))) =
    [Data [byte_of_Z 0]; frame [byte_of_Z 1]].
Proof.
  cbv zeta.
  rewrite (waitForMessage_split_body Bitfield (byte_of_Z 5) [byte_of_Z 255] [byte_of_Z 0]
             [frame [byte_of_Z 1]]); [|reflexivity|done|vm_compute; reflexivity].
  split; reflexivity.
Defined.

End session_split.

(** * The block requests of a download tile the file *)

Section requests_tile.

Implicit Types (s : State).









End requests_tile.
